(** * Step-yielding sorting producers and the Advent-of-Code Day 2 snippets

    A shallow embedding of the code blocks of
    [src/data/blog/sorting-visualizer.mdx] (generator functions
    [bubbleSort], [mergeSort], [merge], the plain functions they were made
    from, the helper [makeRandomArray], the React driver [sort]/[reset],
    the colour of a bar, the algorithm registry and the callback of
    autoplay) and of [src/data/blog/2023-aoc-day-2.mdx] (the two versions
    of [part1] and the one of part 2).

    Conventions.
    - A JS [number] held in the sorted array is an integer ([Z]).  The
      arrays of the article come from [Math.round(Math.random() * 1000)];
      NaN and rounding of very large values are outside the model.
    - The array [arr] handed to a generator function is one mutable object.
      It is the store of the model; a yielded [{ result: arr, ... }] holds a
      reference to it, and the [result] field of a [StepState] below is the
      content of that object at the moment the value is handed to the
      consumer ([yields_store], [sort_shows_array]).
    - A generator body is a resumable computation ([Susp]): resumed on the
      current store it either returns, or yields a value together with the
      continuation that the next [next()] call resumes.
    - Loops and the recursion of [mergeSort] are unrolled with fuel; the
      theorems hold for every fuel above the length of the array.

    Part I has the programs, Part II the notions the properties are stated
    with, Part III the proofs of the main properties, Part IV further
    properties of the same programs. *)

From stdpp Require Import gmap strings list sorting.
From Stdlib Require Import ZArith Lia Ascii.
From Equations Require Import Equations.

Local Open Scope Z_scope.

(** * Part I: the programs *)

(** ** The step model ([types.ts]) *)

(** [colors?: Record<number, string>]: a JS object keyed by array index.
    A computed key [[j]] is the decimal name of [j], so integer keys are
    kept as [Z]; a later duplicate key of an object literal overwrites an
    earlier one, which is what successive inserts do. *)
Record StepState := mkStepState {
  result : list Z;
  colors : option (gmap Z string)
}.

(** [{ [k1]: c1, [k2]: c2, ... }], keys written in source order. *)
Definition object_literal (kvs : list (Z * string)) : gmap Z string :=
  foldl (fun m kv => <[kv.1 := kv.2]> m) ∅ kvs.

(** ** Generator bodies *)

(** Ways in which a run of the model stops without a JS counterpart:
    the fuel of a loop ran out, or an index outside the array was used
    (JS would read [undefined] or grow the array, leaving [number[]]). *)
Inductive fault := OutOfFuel | OutOfRange.

(** What a generator body does when resumed on a store. *)
Inductive Susp (A : Type) : Type :=
| Returned (a : A) (arr : list Z)
| Yielded (s : StepState) (arr : list Z) (k : list Z -> Susp A)
| Stuck (e : fault).
Arguments Returned {A} a arr.
Arguments Yielded {A} s arr k.
Arguments Stuck {A} e.

Definition Gen (A : Type) : Type := list Z -> Susp A.

Definition ret {A} (a : A) : Gen A := fun arr => Returned a arr.

Fixpoint bindS {A B} (r : Susp A) (f : A -> Gen B) : Susp B :=
  match r with
  | Returned a arr => f a arr
  | Yielded s arr k => Yielded s arr (fun arr' => bindS (k arr') f)
  | Stuck e => Stuck e
  end.

Definition bind {A B} (m : Gen A) (f : A -> Gen B) : Gen B :=
  fun arr => bindS (m arr) f.

Notation "x <- m ;; k" := (bind m (fun x => k))
  (at level 100, m at next level, right associativity).
Notation "m ;;; k" := (bind m (fun _ => k))
  (at level 100, right associativity).

Definition stuck {A} (e : fault) : Gen A := fun _ => Stuck e.

(** [yield { result: arr, colors: c }] *)
Definition yield_ (c : gmap Z string) : Gen unit :=
  fun arr => Yielded (mkStepState arr (Some c)) arr (fun arr' => Returned tt arr').

(** [return { result: arr }] *)
Definition return_result : Gen StepState :=
  fun arr => Returned (mkStepState arr None) arr.

(** [yield* g]: every value the delegate yields is yielded again, in
    order and as it is produced; the expression evaluates to the
    delegate's return value. *)
Fixpoint delegate {A} (r : Susp A) : Susp A :=
  match r with
  | Returned a arr => Returned a arr
  | Yielded s arr k => Yielded s arr (fun arr' => delegate (k arr'))
  | Stuck e => Stuck e
  end.

Definition yield_star {A} (g : Gen A) : Gen A := fun arr => delegate (g arr).

(** [arr.length] *)
Definition arr_length : Gen Z := fun arr => Returned (Z.of_nat (length arr)) arr.

Definition in_range (arr : list Z) (k : Z) : bool :=
  (0 <=? k) && (k <? Z.of_nat (length arr)).

(** [arr[k]] *)
Definition arr_get (k : Z) : Gen Z :=
  fun arr =>
    match (if 0 <=? k then arr !! Z.to_nat k else None) with
    | Some v => Returned v arr
    | None => Stuck OutOfRange
    end.

(** [arr[k] = v] *)
Definition arr_set (k v : Z) : Gen unit :=
  fun arr =>
    if in_range arr k then Returned tt (<[Z.to_nat k := v]> arr)
    else Stuck OutOfRange.

(** [while (cond) body], the local variables of the loop being [l].
    A [for (init; cond; incr) body] loop is [init; while (cond) { body; incr }]. *)
Fixpoint while_ {L} (fuel : nat) (cond : L -> Gen bool) (body : L -> Gen L)
    (l : L) : Gen L :=
  match fuel with
  | O => stuck OutOfFuel
  | S fuel' =>
      b <- cond l ;;
      if b : bool then (l' <- body l ;; while_ fuel' cond body l') else ret l
  end.

(** ** [bubble-sort.ts] *)

(** The body of the inner loop: one adjacent comparison. *)
Definition bubbleSort_compare (j : Z) : Gen unit :=
  a <- arr_get j ;;
  b <- arr_get (j + 1) ;;
  if a >? b then
    yield_ (object_literal [(j, "yellow"); (j + 1, "green")]) ;;;
    temp <- arr_get j ;;
    v <- arr_get (j + 1) ;;
    arr_set j v ;;;
    arr_set (j + 1) temp ;;;
    yield_ (object_literal [(j, "green"); (j + 1, "yellow")])
  else
    yield_ (object_literal [(j, "yellow"); (j + 1, "yellow")]).

(** [for (let j = 0; j < arr.length - i - 1; j++) ...] *)
Definition bubbleSort_inner (fuel : nat) (i : Z) : Gen Z :=
  while_ fuel (fun j => n <- arr_length ;; ret (j <? n - i - 1))
         (fun j => bubbleSort_compare j ;;; ret (j + 1)) 0.

(** [for (let i = 0; i < arr.length; i++) ...] *)
Definition bubbleSort_outer (fuel : nat) : Gen Z :=
  while_ fuel (fun i => n <- arr_length ;; ret (i <? n))
         (fun i => bubbleSort_inner fuel i ;;; ret (i + 1)) 0.

Definition bubbleSort (fuel : nat) : Gen StepState :=
  bubbleSort_outer fuel ;;; return_result.

(** ** [merge()] and [mergeSort()] *)

(** The helper [function* push(index)] of [merge]; it appends to the
    scratch array [sorted], which is threaded through here. *)
Definition push (middle index : Z) (sorted : list Z) : Gen (list Z) :=
  yield_ (object_literal [(middle, "blue"); (index, "red")]) ;;;
  v <- arr_get index ;;
  ret (sorted ++ [v]).

(** The locals [left], [right], [sorted] of [merge] ([left] and [right]
    are constructors in Rocq, hence the underscores). *)
Definition merge_locals : Type := Z * Z * list Z.

(** [while (left <= middle && right <= j) { ... }] *)
Definition merge_both (fuel : nat) (middle j : Z) : merge_locals -> Gen merge_locals :=
  while_ fuel
    (fun '(left_, right_, _) => ret ((left_ <=? middle) && (right_ <=? j)))
    (fun '(left_, right_, sorted) =>
       a <- arr_get left_ ;;
       b <- arr_get right_ ;;
       if a <=? b then
         sorted' <- yield_star (push middle left_ sorted) ;;
         ret (left_ + 1, right_, sorted')
       else
         sorted' <- yield_star (push middle right_ sorted) ;;
         ret (left_, right_ + 1, sorted')).

(** [while (left <= middle) { yield* push(left); left++ }] *)
Definition merge_left (fuel : nat) (middle : Z) : merge_locals -> Gen merge_locals :=
  while_ fuel
    (fun '(left_, _, _) => ret (left_ <=? middle))
    (fun '(left_, right_, sorted) =>
       sorted' <- yield_star (push middle left_ sorted) ;;
       ret (left_ + 1, right_, sorted')).

(** [while (right <= j) { yield* push(right); right++ }] *)
Definition merge_right (fuel : nat) (middle j : Z) : merge_locals -> Gen merge_locals :=
  while_ fuel
    (fun '(_, right_, _) => ret (right_ <=? j))
    (fun '(left_, right_, sorted) =>
       sorted' <- yield_star (push middle right_ sorted) ;;
       ret (left_, right_ + 1, sorted')).

(** [for (let k = 0; k < sorted.length; k++) { yield ...; arr[i + k] = sorted[k] }] *)
Definition merge_write_back (fuel : nat) (i : Z) (sorted : list Z) : Gen Z :=
  while_ fuel
    (fun k => ret (k <? Z.of_nat (length sorted)))
    (fun k =>
       yield_ (object_literal [(i + k, "yellow")]) ;;;
       match (if 0 <=? k then sorted !! Z.to_nat k else None) with
       | Some v => arr_set (i + k) v
       | None => stuck OutOfRange
       end ;;;
       ret (k + 1)) 0.

Definition merge (fuel : nat) (i middle j : Z) : Gen StepState :=
  ls <- merge_both fuel middle j (i, middle + 1, []) ;;
  ls <- merge_left fuel middle ls ;;
  ls <- merge_right fuel middle j ls ;;
  merge_write_back fuel i ls.2 ;;;
  return_result.

(** [Math.floor((j - i) / 2) + i]; [Z.div] rounds towards minus infinity. *)
Definition middle_of (i j : Z) : Z := (j - i) / 2 + i.

Fixpoint mergeSort_from (fuel : nat) (i j : Z) : Gen StepState :=
  match fuel with
  | O => stuck OutOfFuel
  | S fuel' =>
      let middle := middle_of i j in
      yield_ (object_literal [(i, "yellow"); (middle, "blue"); (j, "green")]) ;;;
      if j <=? i then return_result
      else
        yield_star (mergeSort_from fuel' i middle) ;;;
        yield_star (mergeSort_from fuel' (middle + 1) j) ;;;
        yield_star (merge fuel i middle j) ;;;
        return_result
  end.

(** [mergeSort(arr)] with the default parameters [i = 0], [j = arr.length - 1];
    the array is not touched between the call and the first [next()]. *)
Definition mergeSort (fuel : nat) : Gen StepState :=
  fun arr => mergeSort_from fuel 0 (Z.of_nat (length arr) - 1) arr.

(** ** Running a generator *)

(** All [next()] calls up to completion, the store being left alone
    between two calls: the values yielded, in order, and either the fault
    or the returned value with the final store. *)
Fixpoint drain {A} (r : Susp A) : list StepState * (fault + A * list Z) :=
  match r with
  | Returned a arr => ([], inr (a, arr))
  | Yielded s arr k => let '(t, o) := drain (k arr) in (s :: t, o)
  | Stuck e => ([], inl e)
  end.

(** [IteratorResult<StepState, StepState>]; [value] is [None] for the
    [undefined] of a generator that had already completed. *)
Record IteratorResult := mkIteratorResult {
  value : option StepState;
  done : bool
}.

(** A generator object: suspended (at its start or at a [yield]) with the
    rest of its body, or completed. *)
Inductive Generator :=
| Suspended (k : Gen StepState)
| Completed.

(** [generator.next()], on the store [arr]. *)
Definition next (g : Generator) (arr : list Z)
    : fault + IteratorResult * Generator * list Z :=
  match g with
  | Completed => inr (mkIteratorResult None true, Completed, arr)
  | Suspended k =>
      match k arr with
      | Yielded s arr' k' => inr (mkIteratorResult (Some s) false, Suspended k', arr')
      | Returned s arr' => inr (mkIteratorResult (Some s) true, Completed, arr')
      | Stuck e => inl e
      end
  end.

(** ** The driver ([App.tsx]) *)

(** The component state: the generator object, the array it is bound to,
    and [sortingState], the last [IteratorResult] received. *)
Record App := mkApp {
  generator : Generator;
  array : list Z;
  sortingState : IteratorResult
}.

(** [useState(algorithm(arr))] followed by [useState(() => generator.next())];
    also what [reset] installs for a fresh array. *)
Definition start (algorithm : Gen StepState) (arr : list Z) : fault + App :=
  match next (Suspended algorithm) arr with
  | inr (r, g, arr') => inr (mkApp g arr' r)
  | inl e => inl e
  end.

(** [const sort = () => { if (!sortingState.done) setSortingState(generator.next()) }] *)
Definition sort (st : App) : fault + App :=
  if done (sortingState st) then inr st
  else
    match next (generator st) (array st) with
    | inr (r, g, arr') => inr (mkApp g arr' r)
    | inl e => inl e
    end.

(** [n] clicks on the button. *)
Fixpoint sort_times (n : nat) (st : App) : fault + App :=
  match n with
  | O => inr st
  | S n' => match sort st with inr st' => sort_times n' st' | inl e => inl e end
  end.

(** ** [make-random-array.ts] *)

Section MakeRandomArray.

(** [Math.round(Math.random() * 1000)] at the [k]-th call of [Math.random];
    the number of calls made so far is threaded through. *)
Variable rounded_random : nat -> Z.

(** [for (let i = 0; i < length; i++) arr.push(...)] *)
Equations? makeRandomArray_loop (length i : Z) (calls : nat) (arr : list Z)
    : list Z * nat by wf (Z.to_nat (length - i)) lt :=
  makeRandomArray_loop length i calls arr with Z_lt_dec i length := {
    | left _ =>
        makeRandomArray_loop length (i + 1) (S calls) (arr ++ [rounded_random calls]);
    | right _ => (arr, calls) }.
Proof. lia. Qed.

Definition makeRandomArray (length : Z) (calls : nat) : list Z * nat :=
  makeRandomArray_loop length 0 calls [].

End MakeRandomArray.

(** ** The algorithm selector *)

(** How a handler of the component ends when it does not end normally:
    with a fault of the model, or with the [TypeError] of a call of
    [undefined]. *)
Inductive failure := Fault (e : fault) | TypeError.

(** The state of the component of the selector: [algorithmKey],
    [sortGenerator] with the array it is bound to, and [sortState]. *)
Record Selector := mkSelector {
  algorithmKey : string;
  sortGenerator : Generator;
  sortArray : list Z;
  sortState : IteratorResult
}.

Section Selector.

(** The generator functions of the registry that the article does not
    list, and the fuel given to every generator. *)
Variables insertionSort quickSort inPlaceMergeSort : nat -> Gen StepState.
Variable fuel : nat.

(** [export const algorithms = { bubbleSort, insertionSort, ... } as const] *)
Definition algorithms : gmap string (Gen StepState) :=
  list_to_map
    [ ("bubbleSort", bubbleSort fuel);
      ("insertionSort", insertionSort fuel);
      ("mergeSort", mergeSort fuel);
      ("quickSort", quickSort fuel);
      ("inPlaceMergeSort", inPlaceMergeSort fuel) ].

Definition algorithmNames : gmap string string :=
  list_to_map
    [ ("bubbleSort", "Bubble Sort");
      ("insertionSort", "Insertion Sort");
      ("mergeSort", "Merge Sort");
      ("quickSort", "Quick Sort");
      ("inPlaceMergeSort", "In-Place Merge Sort") ].



(** [const selectedAlgorithm = algorithms[algorithmKey]] *)
Definition selectedAlgorithm (st : Selector) : option (Gen StepState) :=
  algorithms !! algorithmKey st.


(** [reset], [fresh] being the array [randomArray(ARRAY_LEN)] returns. *)
Definition reset (fresh : list Z) (st : Selector) : failure + Selector :=
  match selectedAlgorithm st with
  | None => inl TypeError
  | Some algorithm =>
      match next (Suspended algorithm) fresh with
      | inr (r, g, arr') => inr (mkSelector (algorithmKey st) g arr' r)
      | inl e => inl (Fault e)
      end
  end.

End Selector.

(** ** Advent of Code 2023, day 2: the two [part1] *)

(** A JS number that is an integer or [NaN] ([None]). The model computes
    with the exact integers. It is the code as long as every number stays
    within [Number.MAX_SAFE_INTEGER], [2 ^ 53 - 1]; beyond it the code
    rounds, and past the largest double it has [Infinity], which the model
    has not. A statement about the value of a number carries that range
    as a hypothesis. *)
Definition number : Type := option Z.

(** [a > b], [a <= b], [a + b], [Math.max(a, b)]: a comparison with [NaN]
    is false, an operation on [NaN] gives [NaN]. *)
Definition number_gt (a : number) (b : Z) : bool :=
  match a with Some x => x >? b | None => false end.

Definition number_le (a : number) (b : Z) : bool :=
  match a with Some x => x <=? b | None => false end.

Definition number_add (a b : number) : number :=
  match a, b with Some x, Some y => Some (x + y) | _, _ => None end.

Definition Math_max (a b : number) : number :=
  match a, b with Some x, Some y => Some (Z.max x y) | _, _ => None end.

(** Strings are taken to be ASCII. *)
Definition is_whitespace (c : ascii) : bool :=
  let n := Z.of_N (N_of_ascii c) in ((9 <=? n) && (n <=? 13)) || (n =? 32).

Definition digit_value (c : ascii) : option Z :=
  let n := Z.of_N (N_of_ascii c) in
  if (48 <=? n) && (n <=? 57) then Some (n - 48) else None.

Definition hex_digit_value (c : ascii) : option Z :=
  let n := Z.of_N (N_of_ascii c) in
  if (48 <=? n) && (n <=? 57) then Some (n - 48)
  else if (97 <=? n) && (n <=? 102) then Some (n - 87)
  else if (65 <=? n) && (n <=? 70) then Some (n - 55)
  else None.

Fixpoint skip_whitespace (s : string) : string :=
  match s with
  | String c s' => if is_whitespace c then skip_whitespace s' else s
  | EmptyString => EmptyString
  end.

(** The value of the longest prefix of digits; [acc] is the value so far,
    [None] when no digit has been read. *)
Fixpoint parse_digits (value_of : ascii -> option Z) (radix : Z) (acc : option Z)
    (s : string) : option Z :=
  match s with
  | String c s' =>
      match value_of c with
      | Some d => parse_digits value_of radix (Some (default 0 acc * radix + d)) s'
      | None => acc
      end
  | EmptyString => acc
  end.

(** [parseInt(s)] without a radix: leading white space, a sign, [0x] or
    [0X] for base 16, then the longest prefix of digits; [NaN] without one.
    The value is the integer that the digits denote; the code has that
    integer rounded to a double, the same up to [2 ^ 53]. *)
Definition parseInt (s : string) : number :=
  let s := skip_whitespace s in
  let '(sign, s) :=
    match s with
    | String c s' =>
        if Ascii.eqb c "-" then (-1, s')
        else if Ascii.eqb c "+" then (1, s')
        else (1, s)
    | EmptyString => (1, s)
    end in
  let magnitude :=
    match s with
    | String c1 (String c2 s') =>
        if Ascii.eqb c1 "0" && (Ascii.eqb c2 "x" || Ascii.eqb c2 "X")
        then parse_digits hex_digit_value 16 None s'
        else parse_digits digit_value 10 None s
    | _ => parse_digits digit_value 10 None s
    end in
  Z.mul sign <$> magnitude.

(** [s.trim()] *)
Definition trim (s : string) : string :=
  String.rev (skip_whitespace (String.rev (skip_whitespace s))).

Fixpoint drop_string (n : nat) (s : string) : string :=
  match n, s with
  | S n', String _ s' => drop_string n' s'
  | _, _ => s
  end.

(** [s.replace(pattern, '')] for a string [pattern]: its first occurrence
    is removed. *)
Fixpoint replace_with_empty (pattern s : string) : string :=
  if String.prefix pattern s then drop_string (String.length pattern) s
  else
    match s with
    | String c s' => String c (replace_with_empty pattern s')
    | EmptyString => EmptyString
    end.

(** [s.split(separator)] for a non-empty [separator]: [current] is the
    piece being read, [skip] the number of characters of a separator just
    found that are still to be passed. *)
Fixpoint split_from (separator : string) (skip : nat) (current : string)
    (s : string) {struct s} : list string :=
  match s with
  | EmptyString => [current]
  | String c s' =>
      match skip with
      | S skip' => split_from separator skip' current s'
      | O =>
          if String.prefix separator s
          then current :: split_from separator (String.length separator - 1) "" s'
          else split_from separator 0 (current +:+ String c "") s'
      end
  end.

Definition split (separator s : string) : list string :=
  split_from separator 0 "" s.

(** What a call of [part1] does: it returns a number, or throws the
    [TypeError] of a method call on [undefined]. *)
Inductive outcome := Returns (sum : number) | Throws.

(** [parseInt] of an element of a destructured array, [None] being
    [undefined]: [parseInt(undefined)] is [NaN]. *)
Definition parseInt_of (numStr : option string) : number :=
  numStr ≫= parseInt.

Module FirstWay.

(** [function checkReveal(str)], the loop over [str.split(', ')]. *)
Fixpoint checkReveal_balls (balls : list string) : bool :=
  match balls with
  | [] => true
  | ball :: rest =>
      let parts := split " " ball in
      let numStr := parts !! 0%nat in
      let color := parts !! 1%nat in
      let num := parseInt_of numStr in
      if bool_decide (color = Some "red") && number_gt num 12 then false
      else if bool_decide (color = Some "green") && number_gt num 13 then false
      else if bool_decide (color = Some "blue") && number_gt num 14 then false
      else checkReveal_balls rest
  end.

Definition checkReveal (str : string) : bool :=
  checkReveal_balls (split ", " str).

(** The loop [for (const game of lines)] of [part1]. *)
Fixpoint part1_lines (lines : list string) (sum : number) : outcome :=
  match lines with
  | [] => Returns sum
  | game :: rest =>
      let parts := split ": " game in
      match parts !! 0%nat, parts !! 1%nat with
      | Some gameText, Some infoText =>
          let id := trim (replace_with_empty "Game " gameText) in
          let possible := forallb checkReveal (split "; " infoText) in
          part1_lines rest (if possible then number_add sum (parseInt id) else sum)
      | _, _ => Throws
      end
  end.

Definition part1 (input : string) : outcome :=
  part1_lines (split (String "010" "") input) (Some 0).

End FirstWay.

Module SecondWay.

(** [leastNumOfBalls[color]] read as a number: a key that is not there
    reads [undefined], which [Math.max] turns into [NaN]. *)
Definition read (leastNumOfBalls : gmap string number) (key : string) : number :=
  default None (leastNumOfBalls !! key).

(** The key that [leastNumOfBalls[color]] uses. *)
Definition key_of (color : option string) : string := default "undefined" color.

(** [for (const [numStr, color] of infos)] *)
Fixpoint record_infos (infos : list (list string))
    (leastNumOfBalls : gmap string number) : gmap string number :=
  match infos with
  | [] => leastNumOfBalls
  | parts :: rest =>
      let numStr := parts !! 0%nat in
      let color := parts !! 1%nat in
      let num := parseInt_of numStr in
      record_infos rest
        (<[key_of color := Math_max (read leastNumOfBalls (key_of color)) num]>
           leastNumOfBalls)
  end.

(** [for (const reveal of reveals)] *)
Fixpoint record_reveals (reveals : list string)
    (leastNumOfBalls : gmap string number) : gmap string number :=
  match reveals with
  | [] => leastNumOfBalls
  | reveal :: rest =>
      let infos := split " " <$> split ", " reveal in
      record_reveals rest (record_infos infos leastNumOfBalls)
  end.

Fixpoint part1_lines (lines : list string) (sum : number) : outcome :=
  match lines with
  | [] => Returns sum
  | game :: rest =>
      let parts := split ": " game in
      match parts !! 0%nat, parts !! 1%nat with
      | Some gameText, Some infoText =>
          let id := trim (replace_with_empty "Game " gameText) in
          let reveals := split "; " infoText in
          let leastNumOfBalls :=
            record_reveals reveals
              (<["green" := Some 0]> (<["blue" := Some 0]> (<["red" := Some 0]> ∅))) in
          let red := read leastNumOfBalls "red" in
          let blue := read leastNumOfBalls "blue" in
          let green := read leastNumOfBalls "green" in
          part1_lines rest
            (if number_le red 12 && number_le green 13 && number_le blue 14
             then number_add sum (parseInt id) else sum)
      | _, _ => Throws
      end
  end.

Definition part1 (input : string) : outcome :=
  part1_lines (split (String "010" "") input) (Some 0).

End SecondWay.

(** ** The bars ([App.tsx]) *)

(** [fill={colors?.[index] ?? "white"}], the colour of the bar of the
    cell [index] in [result.map((value, index) => ...)]. *)
Definition fill (s : StepState) (index : nat) : string :=
  default "white" (colors s ≫= fun c => c !! Z.of_nat index).

(** ** Resetting ([App.tsx]) *)

Module Resetting.

(** [const reset = () => { const newGenerator = mergeSort(makeRandomArray(10));
    setGenerator(newGenerator); setSortingState(newGenerator.next()) }]:
    the state it replaces is not read.  [calls] counts the calls of
    [Math.random] as in [makeRandomArray]. *)
Definition reset (rounded_random : nat -> Z) (fuel : nat) (calls : nat) (st : App)
    : (fault + App) * nat :=
  let '(arr, calls') := makeRandomArray rounded_random 10 calls in
  (start (mergeSort fuel) arr, calls').

End Resetting.

(** ** The sorting functions before they became generators *)

Module Plain.

(** [function bubbleSort(arr: number[])] at the start of the article: the
    body of the inner loop. Nothing is yielded and nothing returned. *)
Definition bubbleSort_compare (j : Z) : Gen unit :=
  a <- arr_get j ;;
  b <- arr_get (j + 1) ;;
  if a >? b then
    temp <- arr_get j ;;
    v <- arr_get (j + 1) ;;
    arr_set j v ;;;
    arr_set (j + 1) temp
  else ret tt.

Definition bubbleSort_inner (fuel : nat) (i : Z) : Gen Z :=
  while_ fuel (fun j => n <- arr_length ;; ret (j <? n - i - 1))
         (fun j => bubbleSort_compare j ;;; ret (j + 1)) 0.

Definition bubbleSort_outer (fuel : nat) : Gen Z :=
  while_ fuel (fun i => n <- arr_length ;; ret (i <? n))
         (fun i => bubbleSort_inner fuel i ;;; ret (i + 1)) 0.

Definition bubbleSort (fuel : nat) : Gen unit :=
  bubbleSort_outer fuel ;;; ret tt.

(** [export function merge(arr, i, middle, j)], the "normal" one. *)
Definition merge_both (fuel : nat) (middle j : Z) : merge_locals -> Gen merge_locals :=
  while_ fuel
    (fun '(left_, right_, _) => ret ((left_ <=? middle) && (right_ <=? j)))
    (fun '(left_, right_, sorted) =>
       a <- arr_get left_ ;;
       b <- arr_get right_ ;;
       if a <=? b then
         v <- arr_get left_ ;;
         ret (left_ + 1, right_, sorted ++ [v])
       else
         v <- arr_get right_ ;;
         ret (left_, right_ + 1, sorted ++ [v])).

Definition merge_left (fuel : nat) (middle : Z) : merge_locals -> Gen merge_locals :=
  while_ fuel
    (fun '(left_, _, _) => ret (left_ <=? middle))
    (fun '(left_, right_, sorted) =>
       v <- arr_get left_ ;;
       ret (left_ + 1, right_, sorted ++ [v])).

Definition merge_right (fuel : nat) (middle j : Z) : merge_locals -> Gen merge_locals :=
  while_ fuel
    (fun '(_, right_, _) => ret (right_ <=? j))
    (fun '(left_, right_, sorted) =>
       v <- arr_get right_ ;;
       ret (left_, right_ + 1, sorted ++ [v])).

Definition merge_write_back (fuel : nat) (i : Z) (sorted : list Z) : Gen Z :=
  while_ fuel
    (fun k => ret (k <? Z.of_nat (length sorted)))
    (fun k =>
       match (if 0 <=? k then sorted !! Z.to_nat k else None) with
       | Some v => arr_set (i + k) v
       | None => stuck OutOfRange
       end ;;;
       ret (k + 1)) 0.

Definition merge (fuel : nat) (i middle j : Z) : Gen unit :=
  ls <- merge_both fuel middle j (i, middle + 1, []) ;;
  ls <- merge_left fuel middle ls ;;
  ls <- merge_right fuel middle j ls ;;
  merge_write_back fuel i ls.2 ;;;
  ret tt.

(** [export function mergeSort(arr, i = 0, j = arr.length - 1)], the
    "normal" one. *)
Fixpoint mergeSort_from (fuel : nat) (i j : Z) : Gen unit :=
  match fuel with
  | O => stuck OutOfFuel
  | S fuel' =>
      if j <=? i then ret tt
      else
        let middle := middle_of i j in
        mergeSort_from fuel' i middle ;;;
        mergeSort_from fuel' (middle + 1) j ;;;
        merge fuel i middle j
  end.

Definition mergeSort (fuel : nat) : Gen unit :=
  fun arr => mergeSort_from fuel 0 (Z.of_nat (length arr) - 1) arr.

End Plain.

(** ** Advent of Code 2023, day 2: part 2 *)

(** [a * b], exact. The code has the product rounded to a double, the
    same as long as it stays within [2 ^ 53]; [Infinity * 0], which is
    [NaN] in the code, does not arise in that range. *)
Definition number_mul (a b : number) : number :=
  match a, b with Some x, Some y => Some (x * y) | _, _ => None end.

Module PartTwo.

(** The second [part1] with the change of the diff: the test on the three
    numbers is replaced by [sum += red * green * blue]; [id] is still
    computed. The function keeps its name. *)
Fixpoint part1_lines (lines : list string) (sum : number) : outcome :=
  match lines with
  | [] => Returns sum
  | game :: rest =>
      let parts := split ": " game in
      match parts !! 0%nat, parts !! 1%nat with
      | Some gameText, Some infoText =>
          let id := trim (replace_with_empty "Game " gameText) in
          let reveals := split "; " infoText in
          let leastNumOfBalls :=
            SecondWay.record_reveals reveals
              (<["green" := Some 0]> (<["blue" := Some 0]> (<["red" := Some 0]> ∅))) in
          let red := SecondWay.read leastNumOfBalls "red" in
          let blue := SecondWay.read leastNumOfBalls "blue" in
          let green := SecondWay.read leastNumOfBalls "green" in
          part1_lines rest (number_add sum (number_mul (number_mul red green) blue))
      | _, _ => Throws
      end
  end.

Definition part1 (input : string) : outcome :=
  part1_lines (split (String "010" "") input) (Some 0).

End PartTwo.

(** ** Autoplay *)

(** The refs [lastCalled] and [delta]; times are counted in an integral
    unit. *)
Record Refs := mkRefs { lastCalled : Z; delta : Z }.

(** What the callback of a frame asks for: [nextStep()] and
    [setMode(Mode.Pause)]. *)
Inductive request := NextStep | SetModePause.

#[global] Instance request_eq_dec : EqDecision request.
Proof. solve_decision. Defined.

(** The callback given to [useRafLoop], called with the time of the frame;
    [isDone] is [sortState?.done] as the callback reads it. *)
Definition on_frame (isDone : bool) (time : Z) (refs : Refs) : list request * Refs :=
  let '(stepped, refs') :=
    if time - lastCalled refs >? delta refs
    then ([NextStep], mkRefs time (delta refs))
    else ([], refs) in
  (stepped ++ (if isDone then [SetModePause] else []), refs').

(** The loop over the frames that come while [delta] is not changed. *)
Fixpoint on_frames (frames : list (bool * Z)) (refs : Refs)
    : list (Z * list request) * Refs :=
  match frames with
  | [] => ([], refs)
  | (isDone, time) :: frames' =>
      let '(requests, refs') := on_frame isDone time refs in
      let '(log, refs'') := on_frames frames' refs' in
      ((time, requests) :: log, refs'')
  end.

(** Modelled from the spec: the members of the enum [Mode], whose
    declaration is not in the article. The code names [Mode.Pause] and
    [Mode.Play]; the spec has the playback modes stopped, slow and fast,
    and the member for fast playback is called [Fast] here. *)
Inductive Mode := Pause | Play | Fast.



(** [onReset: () => { setMode(Mode.Pause) }] and
    [onAlgorithmChange: () => { setMode(Mode.Pause) }], the callbacks the
    component gives to the hook [useSorting] for a reset and for a change
    of algorithm: what they make of [mode]. The body of the hook, which
    calls them, is not in the article. *)
Definition onReset (mode : Mode) : Mode := Pause.


(** * Part II: what the programs are said to do *)

(** ** Runs *)

(** [runs m arr t a arr']: started on [arr] and driven to completion, [m]
    yields exactly [t] and then returns [a], leaving the store [arr']. *)
Definition runs {A} (m : Gen A) (arr : list Z) (t : list StepState) (a : A)
    (arr' : list Z) : Prop :=
  drain (m arr) = (t, inr (a, arr')).

(** ** What the loops of bubble sort compute *)

(** The steps of one comparison of the cells after [l1], holding [a] and [b]. *)
Definition compare_block (l1 : list Z) (a b : Z) (l2 : list Z) : list StepState :=
  let j := Z.of_nat (length l1) in
  if a >? b then
    [ mkStepState (l1 ++ a :: b :: l2)
        (Some (object_literal [(j, "yellow"); (j + 1, "green")]));
      mkStepState (l1 ++ b :: a :: l2)
        (Some (object_literal [(j, "green"); (j + 1, "yellow")])) ]
  else
    [ mkStepState (l1 ++ a :: b :: l2)
        (Some (object_literal [(j, "yellow"); (j + 1, "yellow")])) ].

(** One pass over the cells [a :: l]: the larger value is carried along. *)
Fixpoint pass_array (a : Z) (l : list Z) : list Z :=
  match l with
  | [] => [a]
  | b :: l' => if a >? b then b :: pass_array a l' else a :: pass_array b l'
  end.

Fixpoint pass_blocks (l1 : list Z) (a : Z) (l suf : list Z)
    : list (list StepState) :=
  match l with
  | [] => []
  | b :: l' =>
      compare_block l1 a b (l' ++ suf) ::
      (if a >? b then pass_blocks (l1 ++ [b]) a l' suf
       else pass_blocks (l1 ++ [a]) b l' suf)
  end.

(** [k] passes, the first over the first [k] cells, each next one over
    one cell less. *)
Fixpoint sweeps (k : nat) (arr : list Z) : list Z :=
  match k, arr with
  | S k', a :: rest => sweeps k' (pass_array a (take k' rest) ++ drop k' rest)
  | _, _ => arr
  end.

Fixpoint sweeps_blocks (k : nat) (arr : list Z) : list (list StepState) :=
  match k, arr with
  | S k', a :: rest =>
      pass_blocks [] a (take k' rest) (drop k' rest) ++
      sweeps_blocks k' (pass_array a (take k' rest) ++ drop k' rest)
  | _, _ => []
  end.

(** The steps of one adjacent comparison: a single step when the two cells
    are in order, a step before and a step after the exchange otherwise. *)
Inductive comparison_steps : list StepState -> Prop :=
| steps_in_order (l1 : list Z) a b l2 :
    a <= b ->
    let j := Z.of_nat (length l1) in
    comparison_steps
      [ mkStepState (l1 ++ a :: b :: l2)
          (Some (object_literal [(j, "yellow"); (j + 1, "yellow")])) ]
| steps_exchanged (l1 : list Z) a b l2 :
    a > b ->
    let j := Z.of_nat (length l1) in
    comparison_steps
      [ mkStepState (l1 ++ a :: b :: l2)
          (Some (object_literal [(j, "yellow"); (j + 1, "green")]));
        mkStepState (l1 ++ b :: a :: l2)
          (Some (object_literal [(j, "green"); (j + 1, "yellow")])) ].

(** ** What the loops of merge sort compute *)

(** The step yielded by [push(index)]. *)
Definition push_step (arr : list Z) (middle index : Z) : StepState :=
  mkStepState arr (Some (object_literal [(middle, "blue"); (index, "red")])).

(** The cells in the order in which [merge] selects them, as pairs of an
    index and the value read there: [l] are the cells from index [li] on
    (the left run), [r] those from [ri] on (the right run); [n] bounds
    the number of cells. *)
Fixpoint picks (n : nat) (li : nat) (l : list Z) (ri : nat) (r : list Z)
    : list (nat * Z) :=
  match n with
  | O => []
  | S n' =>
      match l, r with
      | a :: l', b :: r' =>
          if a <=? b then (li, a) :: picks n' (S li) l' ri r
          else (ri, b) :: picks n' li l (S ri) r'
      | a :: l', [] => (li, a) :: picks n' (S li) l' ri []
      | [], b :: r' => (ri, b) :: picks n' li [] (S ri) r'
      | [], [] => []
      end
  end.

Definition picks_steps (arr : list Z) (middle : Z) (ps : list (nat * Z))
    : list StepState :=
  map (fun p => push_step arr middle (Z.of_nat p.1)) ps.

(** The steps of the write-back loop: [s1] has been written over the
    first cells after [pre], [s2] is still to be written over [g2]. *)
Fixpoint write_steps (pre s1 s2 g2 post : list Z) : list StepState :=
  match s2, g2 with
  | v :: s2', x :: g2' =>
      mkStepState (pre ++ s1 ++ g2 ++ post)
        (Some (object_literal
                 [(Z.of_nat (length pre) + Z.of_nat (length s1), "yellow")]))
      :: write_steps pre (s1 ++ [v]) s2' g2' post
  | _, _ => []
  end.

(** The cells of two adjacent runs [L] and [R], the first starting at
    index [li], in the order in which [merge] selects them. *)
Definition merge_picks (li : nat) (L R : list Z) : list (nat * Z) :=
  picks (length L + length R) li L (li + length L) R.

(** The step yielded at the entry of [mergeSort(arr, i, j)]. *)
Definition split_step (arr : list Z) (i j : Z) : StepState :=
  mkStepState arr
    (Some (object_literal [(i, "yellow"); (middle_of i j, "blue"); (j, "green")])).

(** Where [mergeSort] splits a segment of [n >= 2] cells. *)
Definition left_size (n : nat) : nat := S ((n - 1) / 2).

(** The steps of a call [mergeSort(arr, i, j)] on the segment [seg] of
    [pre ++ seg ++ post]: the split step, then the steps [tL] of the call
    on the left part and [tR] of the call on the right part, which leave
    the segment as [seg2], then the steps [pushes] of the three [while]
    loops of [merge] and the steps [writes] of its write-back loop, which
    leave the segment as [sorted]. *)
Definition delegates_in_order (pre seg post : list Z) (fuel : nat) : Prop :=
  exists tL vL arr1 tR vR seg2 sorted pushes writes,
    let arr := pre ++ seg ++ post in
    let i := Z.of_nat (length pre) in
    let j := i + Z.of_nat (length seg) - 1 in
    let middle := middle_of i j in
    runs (mergeSort_from fuel i middle) arr tL vL arr1 /\
    runs (mergeSort_from fuel (middle + 1) j) arr1 tR vR (pre ++ seg2 ++ post) /\
    runs (mergeSort_from (S fuel) i j) arr
         (split_step arr i j :: tL ++ tR ++ pushes ++ writes)
         (mkStepState (pre ++ sorted ++ post) None) (pre ++ sorted ++ post) /\
    length pushes = length seg /\
    Forall (fun s =>
              result s = pre ++ seg2 ++ post /\
              exists idx, i <= idx <= j /\
                colors s = Some (object_literal [(middle, "blue"); (idx, "red")]))
           pushes /\
    length writes = length seg /\
    forall k : nat, (k < length seg)%nat ->
      writes !! k =
        Some (mkStepState (pre ++ take k sorted ++ drop k seg2 ++ post)
                (Some (object_literal [(i + Z.of_nat k, "yellow")]))).

(** ** Steps and the store *)

(** Every value a body yields has the store of that moment as its
    [result]: the field is a reference to the one array. *)
Fixpoint yields_store {A} (r : Susp A) : Prop :=
  match r with
  | Returned _ _ => True
  | Yielded s arr k => result s = arr /\ forall arr', yields_store (k arr')
  | Stuck _ => True
  end.

(** The component shows the array as it is: the [result] of the step in
    [sortingState] is the array, and what the generator will still yield
    refers to the array too. *)
Definition shows_array (st : App) : Prop :=
  (forall s, value (sortingState st) = Some s ->
     done (sortingState st) = false -> result s = array st) /\
  match generator st with
  | Suspended k => forall arr, yields_store (k arr)
  | Completed => True
  end.

(** ** The driver and whole runs *)

(** The component state once [r], the generator resumed for the first
    time, has been received. *)
Definition app_of (r : Susp StepState) : fault + App :=
  match r with
  | Yielded s arr k => inr (mkApp (Suspended k) arr (mkIteratorResult (Some s) false))
  | Returned s arr => inr (mkApp Completed arr (mkIteratorResult (Some s) true))
  | Stuck e => inl e
  end.

(** The steps a producer yields on [arr]. *)
Definition steps_of (algorithm : nat -> Gen StepState) (arr : list Z)
    : list StepState :=
  (drain (algorithm (S (length arr)) arr)).1.

(** A producer run to completion on [arr] returns the sorted array. *)
Definition sorts (algorithm : Gen StepState) (arr : list Z) : Prop :=
  exists t final,
    runs algorithm arr t (mkStepState final None) final /\
    Sorted Z.le final /\ final ≡ₚ arr /\
    exists st0,
      start algorithm arr = inr st0 /\
      sort_times (length t) st0 =
        inr (mkApp Completed final
               (mkIteratorResult (Some (mkStepState final None)) true)).

(** ** The inputs of the puzzle of day 2 *)

Definition sample_input : string :=
  "Game 1: 3 blue, 4 red; 1 red, 2 green, 6 blue; 2 green" +:+ String "010" "" +:+
  "Game 2: 1 blue, 2 green; 3 green, 4 blue, 1 red; 1 green, 1 blue" +:+ String "010" "" +:+
  "Game 3: 8 green, 6 blue, 20 red; 5 blue, 4 red, 13 green; 5 green, 1 red" +:+ String "010" "" +:+
  "Game 4: 1 green, 3 red, 6 blue; 3 green, 6 red; 3 green, 15 blue, 14 red" +:+ String "010" "" +:+
  "Game 5: 6 red, 1 blue, 3 green; 2 blue, 1 red, 2 green".

Fixpoint only_digits (s : string) : bool :=
  match s with
  | String c s' => bool_decide (is_Some (digit_value c)) && only_digits s'
  | EmptyString => true
  end.

(** A non-empty string of decimal digits. *)
Definition all_digits (s : string) : bool :=
  match s with
  | EmptyString => false
  | String _ _ => only_digits s
  end.

(** ["count color"] with a colour among red, green and blue. *)
Definition well_formed_ball (ball : string) : bool :=
  match split " " ball with
  | [count; color] =>
      all_digits count && bool_decide (color ∈ ["red"; "green"; "blue"])
  | _ => false
  end.

(** ["Game N: "] and reveals separated by ["; "], each a list of balls
    separated by [", "]. *)
Definition well_formed_line (game : string) : bool :=
  match split ": " game with
  | [gameText; infoText] =>
      String.prefix "Game " gameText && all_digits (drop_string 5 gameText) &&
      forallb (fun reveal => forallb well_formed_ball (split ", " reveal))
              (split "; " infoText)
  | _ => false
  end.

Definition well_formed (input : string) : bool :=
  forallb well_formed_line (split (String "010" "") input).

(** A ball of colour [c] that shows more than [limit]. *)
Definition exceeds (c : string) (limit : Z) (parts : list string) : bool :=
  bool_decide (parts !! 1%nat = Some c) && number_gt (parseInt_of (parts !! 0%nat)) limit.

(** The count of a ball of colour [c] is a number. *)
Definition counted (c : string) (parts : list string) : Prop :=
  parts !! 1%nat = Some c -> is_Some (parseInt_of (parts !! 0%nat)).

(** ** The component between two clicks *)

(** The component after its first render on [algorithm(arr)] and [n]
    calls of [sort]. *)
Definition clicks (algorithm : Gen StepState) (arr : list Z) (n : nat) : fault + App :=
  match start algorithm arr with
  | inr st0 => sort_times n st0
  | inl e => inl e
  end.

(** [sortingState.value] is there, and [sortingState.done] tells whether
    the generator has completed. *)
Definition in_step (st : App) : Prop :=
  is_Some (value (sortingState st)) /\
  (done (sortingState st) = true <-> generator st = Completed).

(** Every value a body yields or returns has the store of that moment as
    its [result]. *)
Fixpoint results_are_store (r : Susp StepState) : Prop :=
  match r with
  | Returned s arr => result s = arr
  | Yielded s arr k => result s = arr /\ forall arr', results_are_store (k arr')
  | Stuck _ => True
  end.

(** The [result] in [sortingState] is the array as it is now, and so
    will the results be of what the generator still yields or returns. *)
Definition shows_live_array (st : App) : Prop :=
  (forall s, value (sortingState st) = Some s -> result s = array st) /\
  match generator st with
  | Suspended k => forall arr, results_are_store (k arr)
  | Completed => True
  end.

(** ** The steps of [mergeSort] *)

(** A step that colours bars of the cells [lo..hi) only, one at least,
    and none of them white. *)
Definition colours_cells (lo hi : Z) (s : StepState) : Prop :=
  exists c, colors s = Some c /\
    (exists k, is_Some (c !! k)) /\
    forall k colour, c !! k = Some colour -> lo <= k < hi /\ colour <> "white".

(** The number of steps of [mergeSort] on [n] cells, to a depth of [depth]
    calls. *)
Fixpoint mergeSort_steps (depth n : nat) : nat :=
  match depth with
  | O => 1
  | S depth' =>
      if (n <=? 1)%nat then 1%nat
      else (1 + mergeSort_steps depth' (left_size n) +
            mergeSort_steps depth' (n - left_size n) + 2 * n)%nat
  end.

(** ** How a run ends *)

(** The value returned and the store left by a run to completion, or the
    fault it stops on. *)
Definition completion {A} (r : Susp A) : fault + A * list Z := (drain r).2.

(** The array a run to completion leaves. *)
Definition final_store {A} (r : Susp A) : fault + list Z :=
  match completion r with
  | inr (_, arr) => inr arr
  | inl e => inl e
  end.

(** ** Lines and separators *)

(** [pattern] occurs in [s]. *)
Fixpoint contains (pattern s : string) : bool :=
  String.prefix pattern s ||
  match s with
  | String _ s' => contains pattern s'
  | EmptyString => false
  end.

(** ** The balls of a game *)

(** The balls of the reveals of a game, each split into its words, in the
    order in which the second way reads them. *)
Definition balls_of (reveals : list string) : list (list string) :=
  reveals ≫= fun reveal => split " " <$> split ", " reveal.

(** The counts, as [parseInt] reads them, of the balls filed under [key]. *)
Definition counts_of (key : string) (infos : list (list string)) : list number :=
  (fun parts => parseInt_of (parts !! 0%nat)) <$>
  filter (fun parts => SecondWay.key_of (parts !! 1%nat) = key) infos.

(** [const leastNumOfBalls = { red: 0, blue: 0, green: 0 }] *)
Definition empty_bag : gmap string number :=
  <["green" := Some 0]> (<["blue" := Some 0]> (<["red" := Some 0]> ∅)).

(** ** The pace of autoplay *)

(** The times of the frames that asked for [nextStep()]. *)
Fixpoint step_times (log : list (Z * list request)) : list Z :=
  match log with
  | [] => []
  | (time, requests) :: log' =>
      match requests with
      | NextStep :: _ => time :: step_times log'
      | _ => step_times log'
      end
  end.

(** ** A sort in flight *)


(** ** Numbers that a double holds exactly *)

(** [Number.MAX_SAFE_INTEGER]. The integers up to it are doubles, and a
    sum or a product of two of them that does not pass it is exact: in
    that range the numbers of the model are the numbers of the code. *)
Definition MAX_SAFE_INTEGER : Z := 2 ^ 53 - 1.

(** The count of a ball has at most [count_digits] characters. *)
Definition short_ball (count_digits : nat) (ball : string) : bool :=
  match split " " ball with
  | count :: _ => (String.length count <=? count_digits)%nat
  | [] => true
  end.

(** What follows ["Game "] has at most [id_digits] characters, and the
    count of every ball at most [count_digits]. *)
Definition short_line (id_digits count_digits : nat) (game : string) : bool :=
  match split ": " game with
  | gameText :: infoText :: _ =>
      (String.length (drop_string 5 gameText) <=? id_digits)%nat &&
      forallb (fun reveal => forallb (short_ball count_digits) (split ", " reveal))
              (split "; " infoText)
  | _ => true
  end.

Definition short_numbers (id_digits count_digits : nat) (input : string) : bool :=
  forallb (short_line id_digits count_digits) (split (String "010" "") input).

(** * Part III: proofs *)

(** ** Reasoning about runs *)

Lemma drain_bindS {A B} (r : Susp A) (f : A -> Gen B) :
  drain (bindS r f) =
    match drain r with
    | (t, inr (a, arr')) => let '(t', o) := drain (f a arr') in (t ++ t', o)
    | (t, inl e) => (t, inl e)
    end.
Proof.
  induction r as [a arr|s arr k IH|e]; simpl.
  - by destruct (drain (f a arr)).
  - rewrite IH. destruct (drain (k arr)) as [t [e|[a arr']]]; [done|].
    by destruct (drain (f a arr')).
  - done.
Qed.

Lemma drain_delegate {A} (r : Susp A) : drain (delegate r) = drain r.
Proof. induction r as [| s arr k IH |]; simpl; [done| by rewrite IH |done]. Qed.

Lemma runs_fun {A} (m : Gen A) arr t1 a1 arr1 t2 a2 arr2 :
  runs m arr t1 a1 arr1 -> runs m arr t2 a2 arr2 ->
  t1 = t2 /\ a1 = a2 /\ arr1 = arr2.
Proof. unfold runs. intros -> [= -> -> ->]. done. Qed.

Lemma runs_ret {A} (a : A) arr : runs (ret a) arr [] a arr.
Proof. done. Qed.

Lemma runs_bind {A B} (m : Gen A) (f : A -> Gen B) arr t a arr1 t' b arr2 :
  runs m arr t a arr1 -> runs (f a) arr1 t' b arr2 ->
  runs (bind m f) arr (t ++ t') b arr2.
Proof.
  unfold runs, bind. intros Hm Hf. by rewrite drain_bindS, Hm, Hf.
Qed.

Lemma runs_bind_inv {A B} (m : Gen A) (f : A -> Gen B) arr t b arr2 :
  runs (bind m f) arr t b arr2 ->
  exists t1 a arr1 t2,
    runs m arr t1 a arr1 /\ runs (f a) arr1 t2 b arr2 /\ t = t1 ++ t2.
Proof.
  unfold runs, bind. rewrite drain_bindS.
  destruct (drain (m arr)) as [t1 [e|[a arr1]]]; [done|].
  destruct (drain (f a arr1)) as [t2 o] eqn:Hf. intros [= <- ->].
  by exists t1, a, arr1, t2.
Qed.

Lemma runs_yield c arr :
  runs (yield_ c) arr [mkStepState arr (Some c)] tt arr.
Proof. done. Qed.

Lemma runs_return_result arr :
  runs return_result arr [] (mkStepState arr None) arr.
Proof. done. Qed.

Lemma runs_yield_star {A} (g : Gen A) arr t a arr' :
  runs g arr t a arr' -> runs (yield_star g) arr t a arr'.
Proof. unfold runs, yield_star. by rewrite drain_delegate. Qed.

Lemma runs_arr_length arr : runs arr_length arr [] (Z.of_nat (length arr)) arr.
Proof. done. Qed.

(** Reading and writing the cell that follows a prefix [l1]. *)
Lemma runs_arr_get (l1 : list Z) (x : Z) (l2 : list Z) k :
  k = Z.of_nat (length l1) ->
  runs (arr_get k) (l1 ++ x :: l2) [] x (l1 ++ x :: l2).
Proof.
  intros ->. unfold runs, arr_get.
  rewrite (proj2 (Z.leb_le _ _)) by lia.
  rewrite Nat2Z.id, list_lookup_middle by done. done.
Qed.

Lemma runs_arr_set (l1 : list Z) (x : Z) (l2 : list Z) k v :
  k = Z.of_nat (length l1) ->
  runs (arr_set k v) (l1 ++ x :: l2) [] tt (l1 ++ v :: l2).
Proof.
  intros ->. unfold runs, arr_set, in_range.
  rewrite length_app. simpl.
  rewrite (proj2 (Z.leb_le _ _)), (proj2 (Z.ltb_lt _ _)) by lia. simpl.
  rewrite Nat2Z.id. replace (length l1) with (length l1 + 0)%nat by lia.
  by rewrite insert_app_r.
Qed.

Lemma runs_arr_get_next (l1 : list Z) (a x : Z) (l2 : list Z) k :
  k = Z.of_nat (length l1) + 1 ->
  runs (arr_get k) (l1 ++ a :: x :: l2) [] x (l1 ++ a :: x :: l2).
Proof.
  intros ->. rewrite (cons_middle a l1), app_assoc.
  apply runs_arr_get. rewrite length_app. simpl. lia.
Qed.

Lemma runs_arr_set_next (l1 : list Z) (a x : Z) (l2 : list Z) k v :
  k = Z.of_nat (length l1) + 1 ->
  runs (arr_set k v) (l1 ++ a :: x :: l2) [] tt (l1 ++ a :: v :: l2).
Proof.
  intros ->. rewrite (cons_middle a l1), (cons_middle a l1 (v :: l2)), !app_assoc.
  apply runs_arr_set. rewrite length_app. simpl. lia.
Qed.

(** One unfolding of a loop. *)
Lemma runs_while_exit {L} fuel (cond : L -> Gen bool) body (l : L) arr :
  runs (cond l) arr [] false arr ->
  runs (while_ (S fuel) cond body l) arr [] l arr.
Proof. intros Hc. simpl. by apply (runs_bind _ _ _ [] false arr [] l arr). Qed.

Lemma runs_while_iter {L} fuel (cond : L -> Gen bool) body (l : L) arr
    t l1 arr1 t' l2 arr2 :
  runs (cond l) arr [] true arr ->
  runs (body l) arr t l1 arr1 ->
  runs (while_ fuel cond body l1) arr1 t' l2 arr2 ->
  runs (while_ (S fuel) cond body l) arr (t ++ t') l2 arr2.
Proof.
  intros Hc Hb Hw. simpl.
  apply (runs_bind _ _ _ [] true arr (t ++ t') l2 arr2); [done|].
  by apply (runs_bind _ _ _ t l1 arr1 t' l2 arr2).
Qed.

Lemma runs_bind_silent {A B} (m : Gen A) (f : A -> Gen B) arr a arr1 t b arr2 :
  runs m arr [] a arr1 -> runs (f a) arr1 t b arr2 ->
  runs (bind m f) arr t b arr2.
Proof. apply (runs_bind m f arr [] a arr1 t b arr2). Qed.

Lemma runs_bind_then {A B} (m : Gen A) (f : A -> Gen B) arr t a arr1 b arr2 :
  runs m arr t a arr1 -> runs (f a) arr1 [] b arr2 ->
  runs (bind m f) arr t b arr2.
Proof. intros Hm Hf. rewrite <- (app_nil_r t). by eapply runs_bind. Qed.

Lemma runs_bind_yield {B} c (f : unit -> Gen B) arr t b arr2 :
  runs (f tt) arr t b arr2 ->
  runs (bind (yield_ c) f) arr (mkStepState arr (Some c) :: t) b arr2.
Proof. apply (runs_bind (yield_ c) f arr [_] tt arr t b arr2). done. Qed.

(** ** Bubble sort: what the loops compute *)

Lemma compare_runs (l1 : list Z) a b l2 j :
  j = Z.of_nat (length l1) ->
  runs (bubbleSort_compare j) (l1 ++ a :: b :: l2) (compare_block l1 a b l2) tt
       (l1 ++ (if a >? b then b :: a :: l2 else a :: b :: l2)).
Proof.
  intros ->. unfold bubbleSort_compare, compare_block.
  eapply runs_bind_silent; [by apply runs_arr_get|].
  eapply runs_bind_silent; [by apply runs_arr_get_next|].
  destruct (a >? b).
  - apply runs_bind_yield.
    eapply runs_bind_silent; [by apply runs_arr_get|].
    eapply runs_bind_silent; [by apply runs_arr_get_next|].
    eapply runs_bind_silent; [by apply runs_arr_set|].
    eapply runs_bind_silent; [by apply runs_arr_set_next|].
    apply runs_yield.
  - apply runs_yield.
Qed.

Lemma length_pass_array a l : length (pass_array a l) = S (length l).
Proof.
  revert a. induction l as [|b l IH]; intros a; simpl; [done|].
  destruct (a >? b); simpl; by rewrite IH.
Qed.

Lemma inner_runs (l : list Z) : forall (l1 : list Z) a (suf : list Z) fuel,
  (length l < fuel)%nat ->
  runs (while_ fuel
          (fun j => n <- arr_length ;; ret (j <? n - Z.of_nat (length suf) - 1))
          (fun j => bubbleSort_compare j ;;; ret (j + 1))
          (Z.of_nat (length l1)))
       (l1 ++ a :: l ++ suf)
       (concat (pass_blocks l1 a l suf))
       (Z.of_nat (length l1 + length l))
       (l1 ++ pass_array a l ++ suf).
Proof.
  induction l as [|b l IH]; intros l1 a suf fuel Hfuel;
    (destruct fuel as [|fuel]; [simpl in Hfuel; lia|]).
  - rewrite Nat.add_0_r. apply runs_while_exit.
    eapply runs_bind_silent; [apply runs_arr_length|].
    rewrite length_app. simpl. rewrite (proj2 (Z.ltb_ge _ _)) by lia. done.
  - simpl pass_blocks. simpl concat. simpl pass_array.
    eapply runs_while_iter.
    + eapply runs_bind_silent; [apply runs_arr_length|].
      rewrite !length_app. simpl. rewrite length_app.
      rewrite (proj2 (Z.ltb_lt _ _)) by lia. done.
    + eapply runs_bind_then; [by apply (compare_runs l1 a b (l ++ suf))|apply runs_ret].
    + replace (Z.of_nat (length l1) + 1) with (Z.of_nat (length (l1 ++ [if a >? b then b else a])))
        by (rewrite length_app; simpl; lia).
      replace (Z.of_nat (length l1 + length (b :: l)))
        with (Z.of_nat (length (l1 ++ [if a >? b then b else a]) + length l))
        by (rewrite length_app; simpl; lia).
      simpl in Hfuel.
      destruct (a >? b).
      * replace (l1 ++ b :: a :: l ++ suf) with ((l1 ++ [b]) ++ a :: l ++ suf)
          by (by rewrite <- app_assoc).
        replace (l1 ++ (b :: pass_array a l) ++ suf)
          with ((l1 ++ [b]) ++ pass_array a l ++ suf) by (by rewrite <- app_assoc).
        apply IH. lia.
      * replace (l1 ++ a :: b :: l ++ suf) with ((l1 ++ [a]) ++ b :: l ++ suf)
          by (by rewrite <- app_assoc).
        replace (l1 ++ (a :: pass_array b l) ++ suf)
          with ((l1 ++ [a]) ++ pass_array b l ++ suf) by (by rewrite <- app_assoc).
        apply IH. lia.
Qed.

Lemma length_pass_rest a (rest : list Z) k :
  length (pass_array a (take k rest) ++ drop k rest) = S (length rest).
Proof.
  rewrite length_app, length_pass_array. simpl.
  by rewrite <- length_app, take_drop.
Qed.

Lemma outer_runs (F : nat) (k : nat) : forall (arr : list Z) fuel,
  (k <= length arr)%nat -> (k < fuel)%nat -> (k <= F)%nat ->
  runs (while_ fuel
          (fun i => n <- arr_length ;; ret (i <? n))
          (fun i => bubbleSort_inner F i ;;; ret (i + 1))
          (Z.of_nat (length arr - k)))
       arr
       (concat (sweeps_blocks k arr))
       (Z.of_nat (length arr))
       (sweeps k arr).
Proof.
  induction k as [|k IH]; intros arr fuel Hk Hfuel HF;
    (destruct fuel as [|fuel]; [lia|]).
  - rewrite Nat.sub_0_r. destruct arr; apply runs_while_exit;
      (eapply runs_bind_silent; [apply runs_arr_length|]);
      rewrite Z.ltb_irrefl; done.
  - destruct arr as [|a rest]; [simpl in Hk; lia|].
    simpl sweeps. simpl sweeps_blocks. rewrite concat_app.
    simpl in Hk.
    eapply runs_while_iter.
    + eapply runs_bind_silent; [apply runs_arr_length|].
      rewrite (proj2 (Z.ltb_lt _ _)) by (simpl length; lia). done.
    + eapply runs_bind_then; [|apply runs_ret].
      unfold bubbleSort_inner.
      replace (Z.of_nat (length (a :: rest) - S k))
        with (Z.of_nat (length (drop k rest)))
        by (rewrite length_drop; simpl; lia).
      pose proof (inner_runs (take k rest) [] a (drop k rest) F) as Hin.
      simpl in Hin. rewrite take_drop in Hin. apply Hin.
      rewrite length_take. lia.
    + pose proof (length_pass_rest a rest k) as Hlen.
      replace (Z.of_nat (length (a :: rest) - S k) + 1)
        with (Z.of_nat (length (pass_array a (take k rest) ++ drop k rest) - k))
        by (rewrite Hlen; simpl; lia).
      replace (Z.of_nat (length (a :: rest)))
        with (Z.of_nat (length (pass_array a (take k rest) ++ drop k rest)))
        by (rewrite Hlen; done).
      apply IH; [rewrite Hlen|..]; lia.
Qed.

Lemma bubbleSort_runs (arr : list Z) fuel :
  (length arr < fuel)%nat ->
  runs (bubbleSort fuel) arr
       (concat (sweeps_blocks (length arr) arr))
       (mkStepState (sweeps (length arr) arr) None)
       (sweeps (length arr) arr).
Proof.
  intros Hfuel. unfold bubbleSort, bubbleSort_outer.
  eapply runs_bind_then; [|apply runs_return_result].
  pose proof (outer_runs fuel (length arr) arr fuel) as H.
  rewrite Nat.sub_diag in H. apply H; lia.
Qed.

(** *** The array after the passes *)

Lemma pass_array_perm a l : pass_array a l ≡ₚ a :: l.
Proof.
  revert a. induction l as [|b l IH]; intros a; simpl; [done|].
  destruct (a >? b).
  - rewrite IH. apply perm_swap.
  - by rewrite IH.
Qed.

(** A pass leaves a largest value of the cells it went over in the last one. *)
Lemma pass_array_last a l :
  exists init m,
    pass_array a l = init ++ [m] /\ Forall (fun x => x <= m) init /\
    a <= m /\ length init = length l.
Proof.
  revert a. induction l as [|b l IH]; intros a; simpl.
  - exists [], a. repeat split; [constructor | lia].
  - destruct (Z.gtb_spec a b) as [Hgt|Hle].
    + destruct (IH a) as (init & m & -> & Hall & Ham & Hlen).
      exists (b :: init), m. repeat split; [constructor; [lia|done] | lia | simpl; lia].
    + destruct (IH b) as (init & m & -> & Hall & Hbm & Hlen).
      exists (a :: init), m. repeat split; [constructor; [lia|done] | lia | simpl; lia].
Qed.

Lemma sweeps_perm k : forall arr, sweeps k arr ≡ₚ arr.
Proof.
  induction k as [|k IH]; intros [|a rest]; simpl; try done.
  by rewrite IH, pass_array_perm, <- app_comm_cons, take_drop.
Qed.

Lemma sweeps_length k arr : length (sweeps k arr) = length arr.
Proof. by rewrite (sweeps_perm k arr). Qed.

Lemma sweeps_sorted k : forall arr,
  (k <= length arr)%nat ->
  StronglySorted Z.le (drop k arr) ->
  Forall (fun x => Forall (Z.le x) (drop k arr)) (take k arr) ->
  StronglySorted Z.le (sweeps k arr).
Proof.
  induction k as [|k IH]; intros arr Hk Hsuf Hpre.
  - destruct arr; simpl; by rewrite ?drop_0 in Hsuf.
  - destruct arr as [|a rest]; [simpl in Hk; lia|].
    simpl in Hk, Hsuf, Hpre |- *.
    destruct (pass_array_last a (take k rest)) as (init & m & Hp & Hinit & _ & Hlen).
    assert (Hk' : length init = k) by (rewrite Hlen, length_take; lia).
    assert (Hin : forall x, x ∈ init ++ [m] -> Forall (Z.le x) (drop k rest)).
    { intros x Hx. rewrite <- Hp, pass_array_perm in Hx.
      by apply (proj1 (Forall_forall _ _) Hpre). }
    rewrite Hp, <- app_assoc. clear Hlen. subst k. apply IH.
    + rewrite !length_app. simpl. lia.
    + rewrite drop_app_length. simpl. apply SSorted_cons; [done|].
      apply Hin. set_solver.
    + rewrite take_app_length, drop_app_length. simpl.
      apply Forall_forall. intros x Hx. constructor.
      * by apply (proj1 (Forall_forall _ _) Hinit).
      * apply Hin. set_solver.
Qed.

Lemma bubbleSort_sorted arr : Sorted Z.le (sweeps (length arr) arr).
Proof.
  apply StronglySorted_Sorted, sweeps_sorted; [done|..];
    rewrite ?drop_all, ?firstn_all; [constructor|].
  apply Forall_forall. intros; constructor.
Qed.

(** *** The steps of the passes *)

Lemma compare_block_steps l1 a b l2 : comparison_steps (compare_block l1 a b l2).
Proof.
  unfold compare_block. destruct (Z.gtb_spec a b).
  - apply steps_exchanged. lia.
  - by apply steps_in_order.
Qed.

Lemma pass_blocks_steps l : forall l1 a suf,
  Forall comparison_steps (pass_blocks l1 a l suf) /\
  length (pass_blocks l1 a l suf) = length l /\
  Forall (fun s => length (result s) = length (l1 ++ a :: l ++ suf))
         (concat (pass_blocks l1 a l suf)).
Proof.
  induction l as [|b l IH]; intros l1 a suf; simpl; [by repeat split|].
  assert (Hb : Forall (fun s => length (result s) = length (l1 ++ a :: b :: l ++ suf))
                 (compare_block l1 a b (l ++ suf))).
  { unfold compare_block. destruct (a >? b); repeat constructor; simpl.
    rewrite !length_app. done. }
  destruct (a >? b).
  - destruct (IH (l1 ++ [b]) a suf) as (H1 & H2 & H3).
    repeat split; [constructor; [apply compare_block_steps|done] | by rewrite H2 |].
    apply Forall_app. split; [done|].
    eapply Forall_impl; [exact H3|]. intros s ->. rewrite !length_app. simpl. lia.
  - destruct (IH (l1 ++ [a]) b suf) as (H1 & H2 & H3).
    repeat split; [constructor; [apply compare_block_steps|done] | by rewrite H2 |].
    apply Forall_app. split; [done|].
    eapply Forall_impl; [exact H3|]. intros s ->. rewrite !length_app. simpl. lia.
Qed.

Lemma sweeps_blocks_steps k : forall arr,
  (k <= length arr)%nat ->
  Forall comparison_steps (sweeps_blocks k arr) /\
  (2 * length (sweeps_blocks k arr) = k * (k - 1))%nat /\
  Forall (fun s => length (result s) = length arr) (concat (sweeps_blocks k arr)).
Proof.
  induction k as [|k IH]; intros arr Hk.
  - destruct arr; simpl; by repeat split.
  - destruct arr as [|a rest]; [simpl in Hk; lia|]. simpl in Hk. simpl sweeps_blocks.
    destruct (pass_blocks_steps (take k rest) [] a (drop k rest)) as (H1 & H2 & H3).
    destruct (IH (pass_array a (take k rest) ++ drop k rest)) as (G1 & G2 & G3).
    { rewrite length_pass_rest. lia. }
    rewrite length_pass_rest in G3. rewrite take_drop in H3.
    repeat split.
    + by apply Forall_app.
    + rewrite length_app, H2, length_take. nia.
    + rewrite concat_app. by apply Forall_app.
Qed.

(** ** Merge sort: what the loops compute *)

Lemma runs_arr_get_at (arr : list Z) (k : nat) x :
  arr !! k = Some x -> runs (arr_get (Z.of_nat k)) arr [] x arr.
Proof.
  intros H. unfold runs, arr_get.
  rewrite (proj2 (Z.leb_le _ _)) by lia. by rewrite Nat2Z.id, H.
Qed.

Lemma runs_bind_silent_inv {A B} (m : Gen A) (f : A -> Gen B) arr a arr1 t b arr2 :
  runs m arr [] a arr1 -> runs (bind m f) arr t b arr2 ->
  runs (f a) arr1 t b arr2.
Proof.
  intros Hm (t1 & a' & arr1' & t2 & Hm' & Hf & ->)%runs_bind_inv.
  destruct (runs_fun _ _ _ _ _ _ _ _ Hm Hm') as (<- & <- & <-). done.
Qed.

(** Loops followed by the rest of the function body [K]. *)
Lemma runs_while_exit_k {L B} fuel (cond : L -> Gen bool) body (l : L)
    (K : L -> Gen B) arr t b arr2 :
  runs (cond l) arr [] false arr ->
  runs (K l) arr t b arr2 ->
  runs (bind (while_ (S fuel) cond body l) K) arr t b arr2.
Proof.
  intros Hc HK. eapply runs_bind_silent; [|exact HK]. by apply runs_while_exit.
Qed.

Lemma runs_while_iter_k {L B} fuel (cond : L -> Gen bool) body (l : L)
    (K : L -> Gen B) arr t l1 arr1 t' b arr2 :
  runs (cond l) arr [] true arr ->
  runs (body l) arr t l1 arr1 ->
  runs (bind (while_ fuel cond body l1) K) arr1 t' b arr2 ->
  runs (bind (while_ (S fuel) cond body l) K) arr (t ++ t') b arr2.
Proof.
  intros Hc Hb (t1 & l2 & arr' & t2 & Hw & HK & ->)%runs_bind_inv.
  rewrite app_assoc. eapply runs_bind; [|exact HK].
  by eapply runs_while_iter.
Qed.

Lemma runs_push (arr : list Z) middle (k : nat) v sorted :
  arr !! k = Some v ->
  runs (yield_star (push middle (Z.of_nat k) sorted)) arr
       [push_step arr middle (Z.of_nat k)] (sorted ++ [v]) arr.
Proof.
  intros H. apply runs_yield_star. unfold push, push_step.
  apply runs_bind_yield.
  eapply runs_bind_silent; [by apply runs_arr_get_at|apply runs_ret].
Qed.

Lemma merge_both_exit fuel middle j left_ right_ sorted arr :
  middle < left_ \/ j < right_ ->
  runs (merge_both (S fuel) middle j (left_, right_, sorted)) arr []
       (left_, right_, sorted) arr.
Proof.
  intros H. apply runs_while_exit. unfold runs, ret. simpl. do 3 f_equal.
  apply andb_false_iff. rewrite !Z.leb_gt. lia.
Qed.

Lemma merge_left_exit fuel middle left_ right_ sorted arr :
  middle < left_ ->
  runs (merge_left (S fuel) middle (left_, right_, sorted)) arr []
       (left_, right_, sorted) arr.
Proof.
  intros H. apply runs_while_exit. unfold runs, ret. simpl. do 3 f_equal.
  apply Z.leb_gt. lia.
Qed.

Lemma merge_right_exit fuel middle j left_ right_ sorted arr :
  j < right_ ->
  runs (merge_right (S fuel) middle j (left_, right_, sorted)) arr []
       (left_, right_, sorted) arr.
Proof.
  intros H. apply runs_while_exit. unfold runs, ret. simpl. do 3 f_equal.
  apply Z.leb_gt. lia.
Qed.

Lemma runs_ret_true arr (b : bool) : b = true -> runs (ret b) arr [] true arr.
Proof. by intros ->. Qed.

(** Closes a goal [runs (K s) ...] with a hypothesis about [K s'], leaving [s' = s]. *)
Ltac same_run H :=
  match goal with
  | |- runs (?K ?s1) _ _ _ _ =>
      match type of H with
      | runs (K ?s2) _ _ _ _ => replace s1 with s2; [exact H|]
      end
  end.

(** The three [while] loops of [merge], followed by the rest [K] of the body. *)
Lemma scan_runs {B} (arr : list Z) (middle j : Z) (K : merge_locals -> Gen B)
    (n : nat) :
  forall (l r A1 A2 C1 C2 acc : list Z) f1 f2 f3 t b arr',
  (length l + length r <= n)%nat ->
  (n < f1)%nat -> (n < f2)%nat -> (n < f3)%nat ->
  arr = A1 ++ l ++ A2 -> arr = C1 ++ r ++ C2 ->
  middle = Z.of_nat (length A1 + length l) - 1 ->
  j = Z.of_nat (length C1 + length r) - 1 ->
  runs (K (Z.of_nat (length A1 + length l), Z.of_nat (length C1 + length r),
           acc ++ (picks n (length A1) l (length C1) r).*2)) arr t b arr' ->
  runs (ls <- merge_both f1 middle j
                (Z.of_nat (length A1), Z.of_nat (length C1), acc) ;;
        ls <- merge_left f2 middle ls ;;
        ls <- merge_right f3 middle j ls ;;
        K ls)
       arr
       (picks_steps arr middle (picks n (length A1) l (length C1) r) ++ t)
       b arr'.
Proof.
  induction n as [|n IH]; intros l r A1 A2 C1 C2 acc f1 f2 f3 t b arr'
    Hn Hf1 Hf2 Hf3 HA HC Hmid Hj HK;
    (destruct f1 as [|f1]; [lia|]); (destruct f2 as [|f2]; [lia|]);
    (destruct f3 as [|f3]; [lia|]).
  - destruct l; [|simpl in Hn; lia]. destruct r; [|simpl in Hn; lia].
    simpl in HK |- *. rewrite !Nat.add_0_r, app_nil_r in HK.
    rewrite Nat.add_0_r in Hmid, Hj.
    eapply runs_bind_silent; [apply merge_both_exit; lia|].
    eapply runs_bind_silent; [apply merge_left_exit; lia|].
    eapply runs_bind_silent; [apply merge_right_exit; lia|]. done.
  - assert (Hsnoc : forall (X : list Z) z, length (X ++ [z]) = S (length X)).
    { intros. rewrite length_app. simpl. lia. }
    destruct l as [|x l], r as [|y r]; simpl in Hn.
    + simpl in HK |- *. rewrite !Nat.add_0_r, app_nil_r in HK.
      rewrite Nat.add_0_r in Hmid, Hj.
      eapply runs_bind_silent; [apply merge_both_exit; lia|].
      eapply runs_bind_silent; [apply merge_left_exit; lia|].
      eapply runs_bind_silent; [apply merge_right_exit; lia|]. done.
    + (* only the right run is left *)
      rewrite Nat.add_0_r in Hmid. simpl length in Hj.
      eapply runs_bind_silent; [apply merge_both_exit; lia|].
      eapply runs_bind_silent; [apply merge_left_exit; lia|].
      simpl picks. simpl picks_steps. simpl app.
      eapply (runs_while_iter_k _ _ _ _ _ _ [_]).
      { apply runs_ret_true, Z.leb_le. lia. }
      { eapply runs_bind_then; [|apply runs_ret]. apply runs_push.
        rewrite HC. apply list_lookup_middle. done. }
      pose proof (IH [] r A1 A2 (C1 ++ [y]) C2 (acc ++ [y]) (S f1) (S f2) f3 t b arr')
        as IH'.
      rewrite Hsnoc in IH'.
      assert (HC' : arr = (C1 ++ [y]) ++ r ++ C2) by (by rewrite HC, <- app_assoc).
      specialize (IH' ltac:(simpl; lia) ltac:(lia) ltac:(lia) ltac:(lia) HA HC'
                      ltac:(simpl length; lia) ltac:(lia)).
      eapply runs_bind_silent_inv in IH'; [|apply merge_both_exit; lia| ].
      * eapply runs_bind_silent_inv in IH'; [|apply merge_left_exit; lia].
        replace (Z.of_nat (length C1) + 1) with (Z.of_nat (S (length C1))) by lia.
        exact IH'.
      * same_run HK. simpl picks. rewrite fmap_cons. simpl snd.
        rewrite <- app_assoc. simpl length. do 2 f_equal; lia.
    + (* only the left run is left *)
      rewrite Nat.add_0_r in Hj. simpl length in Hmid.
      eapply runs_bind_silent; [apply merge_both_exit; lia|].
      simpl picks. simpl picks_steps. simpl app.
      eapply (runs_while_iter_k _ _ _ _ _ _ [_]).
      { apply runs_ret_true, Z.leb_le. lia. }
      { eapply runs_bind_then; [|apply runs_ret]. apply runs_push.
        rewrite HA. apply list_lookup_middle. done. }
      pose proof (IH l [] (A1 ++ [x]) A2 C1 C2 (acc ++ [x]) (S f1) f2 (S f3) t b arr')
        as IH'.
      rewrite Hsnoc in IH'.
      assert (HA' : arr = (A1 ++ [x]) ++ l ++ A2) by (by rewrite HA, <- app_assoc).
      specialize (IH' ltac:(simpl; lia) ltac:(lia) ltac:(lia) ltac:(lia) HA' HC
                      ltac:(lia) ltac:(simpl length; lia)).
      eapply runs_bind_silent_inv in IH'; [|apply merge_both_exit; lia| ].
      * replace (Z.of_nat (length A1) + 1) with (Z.of_nat (S (length A1))) by lia.
        exact IH'.
      * same_run HK. simpl picks. rewrite fmap_cons. simpl snd.
        rewrite <- app_assoc. simpl length. do 2 f_equal; lia.
    + simpl length in Hmid, Hj. simpl picks.
      assert (Hx : arr !! length A1 = Some x)
        by (rewrite HA; by apply list_lookup_middle).
      assert (Hy : arr !! length C1 = Some y)
        by (rewrite HC; by apply list_lookup_middle).
      destruct (x <=? y) eqn:Hxy; simpl picks_steps; simpl app.
      * eapply (runs_while_iter_k _ _ _ _ _ _ [_]).
        { apply runs_ret_true, andb_true_iff. rewrite !Z.leb_le. lia. }
        { eapply runs_bind_silent; [by apply runs_arr_get_at|].
          eapply runs_bind_silent; [by apply runs_arr_get_at|].
          rewrite Hxy. eapply runs_bind_then; [|apply runs_ret]. by apply runs_push. }
        pose proof (IH l (y :: r) (A1 ++ [x]) A2 C1 C2 (acc ++ [x]) f1 (S f2) (S f3)
                      t b arr') as IH'.
        rewrite Hsnoc in IH'.
        assert (HA' : arr = (A1 ++ [x]) ++ l ++ A2) by (by rewrite HA, <- app_assoc).
        specialize (IH' ltac:(simpl; lia) ltac:(lia) ltac:(lia) ltac:(lia) HA' HC
                        ltac:(lia) ltac:(simpl length; lia)).
        replace (Z.of_nat (length A1) + 1) with (Z.of_nat (S (length A1))) by lia.
        apply IH'. same_run HK. simpl picks. rewrite Hxy, fmap_cons. simpl snd.
        rewrite <- app_assoc. simpl length. do 2 f_equal; lia.
      * eapply (runs_while_iter_k _ _ _ _ _ _ [_]).
        { apply runs_ret_true, andb_true_iff. rewrite !Z.leb_le. lia. }
        { eapply runs_bind_silent; [by apply runs_arr_get_at|].
          eapply runs_bind_silent; [by apply runs_arr_get_at|].
          rewrite Hxy. eapply runs_bind_then; [|apply runs_ret]. by apply runs_push. }
        pose proof (IH (x :: l) r A1 A2 (C1 ++ [y]) C2 (acc ++ [y]) f1 (S f2) (S f3)
                      t b arr') as IH'.
        rewrite Hsnoc in IH'.
        assert (HC' : arr = (C1 ++ [y]) ++ r ++ C2) by (by rewrite HC, <- app_assoc).
        specialize (IH' ltac:(simpl; lia) ltac:(lia) ltac:(lia) ltac:(lia) HA HC'
                        ltac:(simpl length; lia) ltac:(lia)).
        replace (Z.of_nat (length C1) + 1) with (Z.of_nat (S (length C1))) by lia.
        apply IH'. same_run HK. simpl picks. rewrite Hxy, fmap_cons. simpl snd.
        rewrite <- app_assoc. simpl length. do 2 f_equal; lia.
Qed.

Lemma picks_length n : forall li l ri r,
  (length l + length r <= n)%nat ->
  length (picks n li l ri r) = (length l + length r)%nat.
Proof.
  induction n as [|n IH]; intros li l ri r Hn.
  - destruct l, r; simpl in *; lia.
  - destruct l as [|a l], r as [|b r]; simpl in *; try done.
    + rewrite IH; simpl; lia.
    + rewrite IH; simpl; lia.
    + destruct (a <=? b); simpl; rewrite IH; simpl; lia.
Qed.

Lemma picks_perm n : forall li l ri r,
  (length l + length r <= n)%nat -> (picks n li l ri r).*2 ≡ₚ l ++ r.
Proof.
  induction n as [|n IH]; intros li l ri r Hn.
  - destruct l, r; simpl in *; try lia. done.
  - destruct l as [|a l], r as [|b r]; simpl in *; try done.
    + rewrite IH by (simpl; lia). done.
    + rewrite IH by (simpl; lia). done.
    + destruct (a <=? b); simpl; rewrite IH by (simpl; lia); simpl; [done|].
      apply (Permutation_middle (a :: l) r b).
Qed.

Lemma picks_sorted n : forall li l ri r,
  (length l + length r <= n)%nat ->
  StronglySorted Z.le l -> StronglySorted Z.le r ->
  StronglySorted Z.le (picks n li l ri r).*2.
Proof.
  induction n as [|n IH]; intros li l ri r Hn Hl Hr.
  - destruct l, r; simpl in *; try lia. constructor.
  - destruct l as [|a l], r as [|b r]; simpl in *; try constructor.
    + apply IH; [simpl; lia|constructor|by inversion Hr].
    + rewrite picks_perm by (simpl; lia). by inversion Hr.
    + apply IH; [simpl; lia|by inversion Hl|constructor].
    + rewrite picks_perm by (simpl; lia). rewrite app_nil_r. by inversion Hl.
    + inversion Hl as [|? ? Hl' Hal]; inversion Hr as [|? ? Hr' Hbr]; subst.
      destruct (Z.leb_spec a b) as [Hab|Hab]; simpl; constructor.
      * apply IH; [simpl; lia|done|done].
      * rewrite picks_perm by (simpl; lia). apply Forall_app. split; [done|].
        constructor; [done|]. eapply Forall_impl; [exact Hbr|]. simpl. lia.
      * apply IH; [simpl; lia|done|done].
      * rewrite picks_perm by (simpl; lia). apply Forall_app. split; [|done].
        constructor; [lia|]. eapply Forall_impl; [exact Hal|]. simpl. lia.
Qed.

Lemma write_back_runs (sorted : list Z) (s2 : list Z) :
  forall (s1 g2 pre post : list Z) fuel,
  sorted = s1 ++ s2 -> length g2 = length s2 -> (length s2 < fuel)%nat ->
  runs (while_ fuel
          (fun k => ret (k <? Z.of_nat (length sorted)))
          (fun k =>
             yield_ (object_literal [(Z.of_nat (length pre) + k, "yellow")]) ;;;
             match (if 0 <=? k then sorted !! Z.to_nat k else None) with
             | Some v => arr_set (Z.of_nat (length pre) + k) v
             | None => stuck OutOfRange
             end ;;;
             ret (k + 1))
          (Z.of_nat (length s1)))
       (pre ++ s1 ++ g2 ++ post)
       (write_steps pre s1 s2 g2 post)
       (Z.of_nat (length sorted))
       (pre ++ sorted ++ post).
Proof.
  induction s2 as [|v s2 IH]; intros s1 g2 pre post fuel Hs Hg Hfuel;
    (destruct fuel as [|fuel]; [simpl in Hfuel; lia|]).
  - destruct g2; [|done]. rewrite app_nil_r in Hs. subst s1.
    apply runs_while_exit. by rewrite Z.ltb_irrefl.
  - destruct g2 as [|x g2]; [done|]. simpl in Hg, Hfuel. simpl write_steps.
    eapply (runs_while_iter _ _ _ _ _ [_]).
    { apply runs_ret_true, Z.ltb_lt. rewrite Hs, length_app. simpl. lia. }
    { apply runs_bind_yield.
      rewrite (proj2 (Z.leb_le _ _)) by lia.
      rewrite Nat2Z.id, Hs, list_lookup_middle by done.
      eapply runs_bind_silent; [|apply runs_ret].
      rewrite (app_assoc pre s1). simpl.
      apply runs_arr_set. rewrite length_app. lia. }
    replace (Z.of_nat (length s1) + 1) with (Z.of_nat (length (s1 ++ [v])))
      by (rewrite length_app; simpl; lia).
    replace ((pre ++ s1) ++ v :: g2 ++ post) with (pre ++ (s1 ++ [v]) ++ g2 ++ post)
      by (by rewrite <- !app_assoc).
    apply IH; [by rewrite <- app_assoc|lia|lia].
Qed.

Lemma merge_runs (pre L R post : list Z) fuel i middle j :
  (length L + length R < fuel)%nat ->
  i = Z.of_nat (length pre) ->
  middle = i + Z.of_nat (length L) - 1 ->
  j = middle + Z.of_nat (length R) ->
  runs (merge fuel i middle j) (pre ++ L ++ R ++ post)
       (picks_steps (pre ++ L ++ R ++ post) middle (merge_picks (length pre) L R) ++
        write_steps pre [] (merge_picks (length pre) L R).*2 (L ++ R) post)
       (mkStepState (pre ++ (merge_picks (length pre) L R).*2 ++ post) None)
       (pre ++ (merge_picks (length pre) L R).*2 ++ post).
Proof.
  intros Hfuel -> -> ->. unfold merge, merge_picks.
  replace (Z.of_nat (length pre) + Z.of_nat (length L) - 1 + 1)
    with (Z.of_nat (length (pre ++ L))) by (rewrite length_app; lia).
  rewrite <- (length_app pre L).
  apply (scan_runs _ _ _ (fun ls => merge_write_back fuel (Z.of_nat (length pre)) ls.2 ;;; return_result)
           _ L R pre (R ++ post) (pre ++ L) post []); try lia.
  - done.
  - by rewrite <- !app_assoc.
  - rewrite length_app. lia.
  - simpl. eapply runs_bind_then; [|apply runs_return_result].
    unfold merge_write_back.
    pose proof (write_back_runs (picks (length L + length R) (length pre) L (length (pre ++ L)) R).*2
                  (picks (length L + length R) (length pre) L (length (pre ++ L)) R).*2
                  [] (L ++ R) pre post fuel) as H.
    simpl in H. rewrite <- app_assoc in H.
    apply H; [done|..]; rewrite length_fmap, picks_length, ?length_app by done; lia.
Qed.

Lemma write_steps_spec (s2 : list Z) : forall pre s1 g2 post,
  length g2 = length s2 ->
  length (write_steps pre s1 s2 g2 post) = length s2 /\
  forall (k : nat), (k < length s2)%nat ->
    write_steps pre s1 s2 g2 post !! k =
      Some (mkStepState (pre ++ (s1 ++ take k s2) ++ drop k g2 ++ post)
              (Some (object_literal
                 [(Z.of_nat (length pre) + Z.of_nat (length s1 + k), "yellow")]))).
Proof.
  induction s2 as [|v s2 IH]; intros pre s1 g2 post Hg.
  - split; [by destruct g2|]. simpl. lia.
  - destruct g2 as [|x g2]; [done|]. simpl in Hg.
    destruct (IH pre (s1 ++ [v]) g2 post) as [Hlen Hk]; [lia|].
    split; [simpl; by rewrite Hlen|].
    intros [|k] Hlt; simpl in Hlt |- *.
    + by rewrite app_nil_r, Nat.add_0_r.
    + rewrite Hk by lia. rewrite length_app. simpl length.
      rewrite <- (app_assoc s1 [v]). simpl app.
      replace (length s1 + 1 + k)%nat with (length s1 + S k)%nat by lia. done.
Qed.

Lemma mergeSort_from_leaf fuel i j arr :
  j <= i ->
  runs (mergeSort_from (S fuel) i j) arr [split_step arr i j]
       (mkStepState arr None) arr.
Proof.
  intros Hji. simpl. apply runs_bind_yield.
  rewrite (proj2 (Z.leb_le _ _)) by done. apply runs_return_result.
Qed.

Lemma mergeSort_from_node fuel i j arr tL vL arr1 tR vR arr2 tM vM arr3 :
  i < j ->
  runs (mergeSort_from fuel i (middle_of i j)) arr tL vL arr1 ->
  runs (mergeSort_from fuel (middle_of i j + 1) j) arr1 tR vR arr2 ->
  runs (merge (S fuel) i (middle_of i j) j) arr2 tM vM arr3 ->
  runs (mergeSort_from (S fuel) i j) arr
       (split_step arr i j :: tL ++ tR ++ tM) (mkStepState arr3 None) arr3.
Proof.
  intros Hij HL HR HM. simpl. apply runs_bind_yield.
  rewrite (proj2 (Z.leb_gt _ _)) by done.
  eapply runs_bind; [by apply runs_yield_star|].
  eapply runs_bind; [by apply runs_yield_star|].
  eapply runs_bind_then; [by apply runs_yield_star|].
  apply runs_return_result.
Qed.

Lemma left_size_bounds n : (2 <= n)%nat -> (1 <= left_size n < n)%nat.
Proof.
  intros Hn. unfold left_size. split; [lia|].
  assert ((n - 1) / 2 <= (n - 1) - 1)%nat; [|lia].
  pose proof (Nat.div_mod_eq (n - 1) 2).
  pose proof (Nat.mod_upper_bound (n - 1) 2). lia.
Qed.

Lemma middle_of_segment (i : Z) (n : nat) :
  middle_of i (i + Z.of_nat n - 1) = i + Z.of_nat (left_size n) - 1 \/ n = 0%nat.
Proof.
  destruct n as [|n]; [by right|left]. unfold middle_of, left_size.
  replace (i + Z.of_nat (S n) - 1 - i) with (Z.of_nat n) by lia.
  replace (S n - 1)%nat with n by lia.
  rewrite Nat2Z.inj_succ, Nat2Z.inj_div. simpl. lia.
Qed.

Lemma picks_steps_length arr middle ps :
  Forall (fun s => length (result s) = length arr) (picks_steps arr middle ps).
Proof. unfold picks_steps. apply Forall_fmap, Forall_forall. by intros. Qed.

Lemma write_steps_length (s2 : list Z) : forall pre s1 g2 post,
  length g2 = length s2 ->
  Forall (fun s => length (result s) = length (pre ++ s1 ++ g2 ++ post))
         (write_steps pre s1 s2 g2 post).
Proof.
  induction s2 as [|v s2 IH]; intros pre s1 g2 post Hg; destruct g2 as [|x g2];
    try done; simpl; try constructor; [done|].
  eapply Forall_impl; [apply IH; simpl in Hg; lia|].
  intros s ->. rewrite !length_app. simpl. rewrite !length_app. simpl. lia.
Qed.

(** One call [mergeSort(arr, i, j)] on a segment [L ++ R] of at least two
    cells, [L] being its left part: the steps of the two recursive calls
    and of [merge] follow the split step. *)
Lemma mergeSort_from_split (pre L R post : list Z) fuel tL vL L' tR vR R' :
  length L = left_size (length L + length R) ->
  (2 <= length L + length R < S fuel)%nat ->
  length L' = length L -> length R' = length R ->
  let i := Z.of_nat (length pre) in
  let j := i + Z.of_nat (length L + length R) - 1 in
  let middle := i + Z.of_nat (length L) - 1 in
  runs (mergeSort_from fuel i middle) (pre ++ L ++ R ++ post) tL vL
       (pre ++ L' ++ R ++ post) ->
  runs (mergeSort_from fuel (middle + 1) j) (pre ++ L' ++ R ++ post) tR vR
       (pre ++ L' ++ R' ++ post) ->
  runs (mergeSort_from (S fuel) i j) (pre ++ L ++ R ++ post)
       (split_step (pre ++ L ++ R ++ post) i j :: tL ++ tR ++
        picks_steps (pre ++ L' ++ R' ++ post) middle (merge_picks (length pre) L' R') ++
        write_steps pre [] (merge_picks (length pre) L' R').*2 (L' ++ R') post)
       (mkStepState (pre ++ (merge_picks (length pre) L' R').*2 ++ post) None)
       (pre ++ (merge_picks (length pre) L' R').*2 ++ post).
Proof.
  intros HL Hn HL' HR' i j middle HrL HrR.
  assert (Hmid : middle_of i j = middle).
  { destruct (middle_of_segment i (length L + length R)) as [H|H]; [|lia].
    unfold j, middle. rewrite H, <- HL. done. }
  eapply mergeSort_from_node; rewrite ?Hmid.
  - unfold j, i. pose proof (left_size_bounds (length L + length R)). lia.
  - exact HrL.
  - exact HrR.
  - apply merge_runs; unfold middle, j, i; lia.
Qed.

Lemma mergeSort_from_sorts (n : nat) : forall (pre seg post : list Z),
  (length seg <= n)%nat ->
  exists t seg',
    (forall fuel, (length seg < fuel)%nat ->
       runs (mergeSort_from fuel (Z.of_nat (length pre))
               (Z.of_nat (length pre) + Z.of_nat (length seg) - 1))
            (pre ++ seg ++ post) t
            (mkStepState (pre ++ seg' ++ post) None) (pre ++ seg' ++ post)) /\
    seg' ≡ₚ seg /\ StronglySorted Z.le seg' /\
    Forall (fun s => length (result s) = length (pre ++ seg ++ post)) t.
Proof.
  induction n as [|n IH]; intros pre seg post Hn.
  - destruct seg; [|simpl in Hn; lia].
    exists [split_step (pre ++ [] ++ post) (Z.of_nat (length pre))
              (Z.of_nat (length pre) + Z.of_nat (length (@nil Z)) - 1)], [].
    (split; [|split; [|split]]); [|constructor|constructor|by repeat constructor].
    intros [|fuel] Hf; [simpl in Hf; lia|]. apply mergeSort_from_leaf. simpl. lia.
  - destruct (decide (length seg <= 1)%nat) as [Hsmall|Hbig].
    + exists [split_step (pre ++ seg ++ post) (Z.of_nat (length pre))
                (Z.of_nat (length pre) + Z.of_nat (length seg) - 1)], seg.
      (split; [|split; [|split]]); [|done| |by repeat constructor].
      * intros [|fuel] Hf; [lia|]. apply mergeSort_from_leaf. lia.
      * destruct seg as [|x [|y seg]]; [constructor|repeat constructor|simpl in Hsmall; lia].
    + pose proof (left_size_bounds (length seg) ltac:(lia)) as Hh.
      set (h := left_size (length seg)) in *.
      assert (Hseg : seg = take h seg ++ drop h seg) by (by rewrite take_drop).
      assert (HlenL : length (take h seg) = h) by (rewrite length_take; lia).
      assert (HlenR : length (drop h seg) = (length seg - h)%nat) by (by rewrite length_drop).
      destruct (IH pre (take h seg) (drop h seg ++ post)) as (tL & L' & HrL & HpL & HsL & HtL); [lia|].
      destruct (IH (pre ++ L') (drop h seg) post) as (tR & R' & HrR & HpR & HsR & HtR); [lia|].
      assert (HL' : length L' = h) by (by rewrite HpL).
      assert (HR' : length R' = (length seg - h)%nat) by (by rewrite HpR).
      exists (split_step (pre ++ seg ++ post) (Z.of_nat (length pre))
                (Z.of_nat (length pre) + Z.of_nat (length seg) - 1) :: tL ++ tR ++
              picks_steps (pre ++ L' ++ R' ++ post)
                (Z.of_nat (length pre) + Z.of_nat h - 1) (merge_picks (length pre) L' R') ++
              write_steps pre [] (merge_picks (length pre) L' R').*2 (L' ++ R') post),
             (merge_picks (length pre) L' R').*2.
      assert (Hperm : (merge_picks (length pre) L' R').*2 ≡ₚ seg).
      { unfold merge_picks. rewrite picks_perm by done.
        by rewrite HpL, HpR, take_drop. }
      split; [|split; [|split]].
      * intros [|fuel] Hf; [lia|].
        pose proof (mergeSort_from_split pre (take h seg) (drop h seg) post fuel
                      tL (mkStepState (pre ++ L' ++ drop h seg ++ post) None) L'
                      tR (mkStepState (pre ++ L' ++ R' ++ post) None) R') as H.
        rewrite HlenL, HlenR in H. 
        replace (h + (length seg - h))%nat with (length seg) in H by lia.
        assert (Harr : pre ++ seg ++ post = pre ++ take h seg ++ drop h seg ++ post)
          by (by rewrite (app_assoc (take h seg)), take_drop).
        rewrite Harr.
        apply H; try done; try lia.
        -- specialize (HrL fuel). rewrite HlenL in HrL.
           rewrite <- ?app_assoc in HrL. apply HrL. lia.
        -- specialize (HrR fuel). rewrite HlenR, length_app, HL' in HrR.
           rewrite <- ?app_assoc in HrR.
           replace (Z.of_nat (length pre) + Z.of_nat h - 1 + 1)
             with (Z.of_nat (length pre + h)) by lia.
           replace (Z.of_nat (length pre) + Z.of_nat (length seg) - 1)
             with (Z.of_nat (length pre + h) + Z.of_nat (length seg - h) - 1) by lia.
           apply HrR. lia.
      * done.
      * unfold merge_picks. by apply picks_sorted.
      * constructor; [done|]. rewrite !Forall_app. repeat split.
        -- eapply Forall_impl; [exact HtL|]. intros s ->. rewrite !length_app. lia.
        -- eapply Forall_impl; [exact HtR|]. intros s ->. rewrite !length_app. lia.
        -- eapply Forall_impl; [apply picks_steps_length|]. intros s ->.
           rewrite !length_app. lia.
        -- eapply Forall_impl; [apply write_steps_length|].
           { rewrite length_fmap. unfold merge_picks. rewrite picks_length, length_app; done. }
           intros s ->. rewrite !length_app. simpl. lia.
Qed.

Lemma picks_index n : forall li l ri r,
  Forall (fun p : nat * Z =>
            (li <= p.1 < li + length l)%nat \/ (ri <= p.1 < ri + length r)%nat)
         (picks n li l ri r).
Proof.
  induction n as [|n IH]; intros li l ri r; [constructor|].
  destruct l as [|a l], r as [|b r]; simpl; try constructor; simpl; try lia.
  - eapply Forall_impl; [apply IH|]. simpl. lia.
  - eapply Forall_impl; [apply IH|]. simpl. lia.
  - destruct (a <=? b); constructor; simpl; try lia;
      (eapply Forall_impl; [apply IH|]); simpl; lia.
Qed.

(** ** The driver and the runs *)

Lemma start_app_of algorithm arr : start algorithm arr = app_of (algorithm arr).
Proof. unfold start, next. by destruct (algorithm arr). Qed.

Lemma sort_app_of k arr s :
  sort (mkApp (Suspended k) arr (mkIteratorResult (Some s) false)) = app_of (k arr).
Proof. unfold sort, next. simpl. by destruct (k arr). Qed.

(** Clicking through a run: the [k]-th state shows the [k]-th yielded
    step, and after as many clicks as there are steps the returned value
    is shown with [done]. *)
Lemma sort_times_drain (r : Susp StepState) : forall t v arr',
  drain r = (t, inr (v, arr')) ->
  exists st,
    app_of r = inr st /\
    sort_times (length t) st =
      inr (mkApp Completed arr' (mkIteratorResult (Some v) true)) /\
    forall k s, t !! k = Some s ->
      exists st', sort_times k st = inr st' /\
                  sortingState st' = mkIteratorResult (Some s) false.
Proof.
  induction r as [v0 arr0|s arr0 k IH|e]; intros t v arr' Hd; simpl in Hd.
  - injection Hd as <- <- <-. eexists. split; [done|]. split; [done|]. by intros k s.
  - destruct (drain (k arr0)) as [t' o] eqn:Hk. injection Hd as <- ->.
    destruct (IH arr0 t' v arr' Hk) as (st' & Hst' & Hfin & Hsteps).
    eexists. split; [done|]. simpl. rewrite sort_app_of, Hst'. split; [done|].
    intros [|n] s' Hn; simpl in Hn.
    + injection Hn as <-. eexists. by split.
    + simpl. rewrite sort_app_of, Hst'. by apply Hsteps.
  - done.
Qed.

(** ** The steps refer to the array *)

Lemma yields_store_bindS {A B} (r : Susp A) (f : A -> Gen B) :
  yields_store r -> (forall a arr, yields_store (f a arr)) ->
  yields_store (bindS r f).
Proof.
  intros Hr Hf. induction r as [a arr|s arr k IH|e]; simpl in *; [apply Hf| |done].
  destruct Hr as [Hs Hk]. split; [done|]. intros arr'. by apply IH.
Qed.

Lemma yields_store_bind {A B} (m : Gen A) (f : A -> Gen B) :
  (forall arr, yields_store (m arr)) -> (forall a arr, yields_store (f a arr)) ->
  forall arr, yields_store (bind m f arr).
Proof. intros Hm Hf arr. by apply yields_store_bindS. Qed.

Lemma yields_store_delegate {A} (g : Gen A) :
  (forall arr, yields_store (g arr)) -> forall arr, yields_store (yield_star g arr).
Proof.
  intros Hg arr. unfold yield_star. specialize (Hg arr).
  induction (g arr) as [a arr0|s arr0 k IH|e]; simpl in *; [done| |done].
  destruct Hg as [Hs Hk]. split; [done|]. intros arr'. by apply IH.
Qed.

Lemma yields_store_while {L} (cond : L -> Gen bool) (body : L -> Gen L) fuel :
  (forall l arr, yields_store (cond l arr)) ->
  (forall l arr, yields_store (body l arr)) ->
  forall l arr, yields_store (while_ fuel cond body l arr).
Proof.
  intros Hc Hb. induction fuel as [|fuel IH]; intros l arr; [done|].
  simpl. apply yields_store_bind; [apply Hc|].
  intros [|] arr1; [|done]. apply yields_store_bind; [apply Hb|]. intros. apply IH.
Qed.

Lemma yields_store_arr_get k arr : yields_store (arr_get k arr).
Proof. unfold arr_get. by destruct (if 0 <=? k then _ else _). Qed.

Lemma yields_store_arr_set k v arr : yields_store (arr_set k v arr).
Proof. unfold arr_set. by destruct (in_range arr k). Qed.

(** Solves [yields_store] goals on bodies made of the operations above. *)
Ltac yields_store :=
  repeat first
    [ done
    | apply yields_store_arr_get
    | apply yields_store_arr_set
    | apply yields_store_while; intros
    | apply yields_store_delegate; intros
    | apply yields_store_bind; intros
    | match goal with |- yields_store ((let '(_, _) := ?p in _) _) => destruct p end
    | match goal with |- yields_store ((if ?b then _ else _) _) => destruct b end
    | match goal with |- yields_store (match ?o with Some _ => _ | None => _ end _) =>
        destruct o end ].

Lemma bubbleSort_yields_store fuel arr : yields_store (bubbleSort fuel arr).
Proof.
  unfold bubbleSort, bubbleSort_outer, bubbleSort_inner, bubbleSort_compare.
  yields_store.
Qed.

Lemma merge_yields_store fuel i middle j arr : yields_store (merge fuel i middle j arr).
Proof.
  unfold merge, merge_both, merge_left, merge_right, merge_write_back, push.
  yields_store.
Qed.

Lemma mergeSort_from_yields_store fuel : forall i j arr,
  yields_store (mergeSort_from fuel i j arr).
Proof.
  induction fuel as [|fuel IH]; intros i j arr; [done|].
  simpl. split; [done|]. intros arr'.
  yields_store; first [apply IH|apply merge_yields_store].
Qed.

Lemma mergeSort_yields_store fuel arr : yields_store (mergeSort fuel arr).
Proof. apply mergeSort_from_yields_store. Qed.

(** From the first [next()] on and after every click the component shows
    the array as it is at that moment. *)
Lemma start_shows_array algorithm arr st :
  (forall arr, yields_store (algorithm arr)) ->
  start algorithm arr = inr st -> shows_array st.
Proof.
  intros Halg. rewrite start_app_of. specialize (Halg arr).
  destruct (algorithm arr) as [s arr0|s arr0 k|e]; simpl; intros [= <-]; split; simpl;
    try done.
  - by intros ? [= <-] _; destruct Halg.
  - by destruct Halg.
Qed.

Lemma sort_shows_array st st' :
  shows_array st -> sort st = inr st' -> shows_array st'.
Proof.
  intros [Hres Hgen]. unfold sort.
  destruct (done (sortingState st)) eqn:Hd;
    [intros [= <-]; split; [intros s _ Hd'; congruence|done]|].
  unfold next. destruct (generator st) as [k|]; [|by intros [= <-]; split].
  specialize (Hgen (array st)).
  destruct (k (array st)) as [s arr0|s arr0 k'|e]; simpl; intros [= <-]; split; simpl;
    try done.
  - by intros ? [= <-] _; destruct Hgen.
  - by destruct Hgen.
Qed.

(** ** Whole runs of the two producers *)

Lemma mergeSort_runs (arr : list Z) :
  exists t final,
    (forall fuel, (length arr < fuel)%nat ->
       runs (mergeSort fuel) arr t (mkStepState final None) final) /\
    final ≡ₚ arr /\ StronglySorted Z.le final /\
    Forall (fun s => length (result s) = length arr) t.
Proof.
  destruct (mergeSort_from_sorts (length arr) [] arr []) as (t & final & Hr & Hp & Hs & Ht);
    [done|].
  simpl in Hr, Ht. rewrite app_nil_r in Hr, Ht. rewrite app_nil_r in Hr.
  exists t, final. split; [|done]. intros fuel Hf. apply (Hr fuel Hf).
Qed.

Lemma runs_sorts algorithm arr t final :
  runs algorithm arr t (mkStepState final None) final ->
  Sorted Z.le final -> final ≡ₚ arr -> sorts algorithm arr.
Proof.
  intros Hr Hs Hp. exists t, final. split; [done|]. split; [done|]. split; [done|].
  destruct (sort_times_drain (algorithm arr) t _ _ Hr) as (st & Hst & Hfin & _).
  exists st. by rewrite start_app_of.
Qed.

(** ** The properties of the sorting producers *)

(** C1. For every array (empty, single-element and with duplicates
    included) and enough fuel, [bubbleSort] and [mergeSort] run to
    completion: the last value is returned, not yielded, it comes with
    [done = true] after one click per yielded step, its [result] is
    non-decreasing and a permutation of the input, and it has no [colors]. *)
Theorem sorting_producers_sort (arr : list Z) (fuel : nat) :
  (length arr < fuel)%nat ->
  sorts (bubbleSort fuel) arr /\ sorts (mergeSort fuel) arr.
Proof.
  intros Hfuel. split.
  - eapply runs_sorts; [by apply bubbleSort_runs|apply bubbleSort_sorted|apply sweeps_perm].
  - destruct (mergeSort_runs arr) as (t & final & Hr & Hp & Hs & _).
    eapply runs_sorts; [by apply Hr|by apply StronglySorted_Sorted|done].
Qed.

Lemma sorting_producers_sort_witness :
  (length [3; 1; 3; 2] < 5)%nat /\
  sorts (bubbleSort 5) [3; 1; 3; 2] /\ sorts (mergeSort 5) [3; 1; 3; 2].
Proof.
  split; [simpl; lia|]. apply (sorting_producers_sort [3; 1; 3; 2] 5). simpl. lia.
Defined.

(** C2, as the code has it. On an array of length 0 or 1 [bubbleSort]
    yields nothing before it returns the array; [mergeSort] yields exactly
    one step, the split step of the whole range, on the unchanged array,
    and then returns it. *)
Theorem short_array_steps (arr : list Z) (fuel : nat) :
  (length arr <= 1)%nat -> (length arr < fuel)%nat ->
  runs (bubbleSort fuel) arr [] (mkStepState arr None) arr /\
  runs (mergeSort fuel) arr
       [split_step arr 0 (Z.of_nat (length arr) - 1)] (mkStepState arr None) arr.
Proof.
  intros Hshort Hfuel. split.
  - pose proof (bubbleSort_runs arr fuel Hfuel) as H.
    destruct arr as [|x [|y arr]]; [exact H|exact H|simpl in Hshort; lia].
  - destruct fuel as [|fuel]; [lia|]. apply mergeSort_from_leaf. lia.
Qed.

Lemma short_array_steps_witness :
  (length [7] <= 1)%nat /\ (length [7] < 2)%nat /\
  runs (bubbleSort 2) [7] [] (mkStepState [7] None) [7] /\
  runs (mergeSort 2) [7]
       [split_step [7] 0 (Z.of_nat (length [7]) - 1)] (mkStepState [7] None) [7].
Proof.
  split; [simpl; lia|]. split; [simpl; lia|].
  apply (short_array_steps [7] 2); simpl; lia.
Defined.

(** C2 as stated fails: [mergeSort] on a one-element array yields a step. *)
Lemma mergeSort_short_array_yields :
  ~ (forall fuel arr t v arr',
       (length arr <= 1)%nat -> runs (mergeSort fuel) arr t v arr' -> t = []).
Proof.
  intros H.
  specialize (H 2%nat [7] [split_step [7] 0 0] (mkStepState [7] None) [7]).
  discriminate H; [simpl; lia|reflexivity].
Qed.

(** [yield* g] followed by the rest [k] of the body: the steps of [g],
    as they are, then those of [k]; the value [g] returns is dropped. *)
Lemma yield_star_flattens {A B} (g : Gen A) (k : Gen B) arr t a arr1 t' b arr2 :
  runs g arr t a arr1 -> runs k arr1 t' b arr2 ->
  runs (yield_star g ;;; k) arr (t ++ t') b arr2.
Proof. intros Hg Hk. eapply runs_bind; [by apply runs_yield_star|done]. Qed.

(** C3. A call of [mergeSort] on a segment [seg] of at least two cells
    (the whole array when [pre] and [post] are empty) yields one flat
    sequence: its split step, the steps of the recursive call on the left
    part, those of the call on the right part, then one "selected" step of
    [merge] per cell, on the array as the two calls left it, then one
    "written-back" step per cell, the [k]-th showing the first [k] cells of
    the segment already overwritten.  The values returned by the delegates
    do not appear; the value returned at the end is the caller's own, on
    the final array.  On a segment of at most one cell only the split step
    is yielded.  The steps on [[5; 3; 1]] are the fifteen below. *)
Theorem mergeSort_delegation (pre seg post : list Z) (fuel : nat) :
  (2 <= length seg < S fuel)%nat ->
  delegates_in_order pre seg post fuel /\
  (forall arr i j, j <= i ->
     runs (mergeSort_from (S fuel) i j) arr [split_step arr i j]
          (mkStepState arr None) arr) /\
  drain (mergeSort 4 [5; 3; 1]) =
    ([ mkStepState [5; 3; 1]
         (Some (object_literal [(0, "yellow"); (1, "blue"); (2, "green")]));
       mkStepState [5; 3; 1]
         (Some (object_literal [(0, "yellow"); (0, "blue"); (1, "green")]));
       mkStepState [5; 3; 1]
         (Some (object_literal [(0, "yellow"); (0, "blue"); (0, "green")]));
       mkStepState [5; 3; 1]
         (Some (object_literal [(1, "yellow"); (1, "blue"); (1, "green")]));
       mkStepState [5; 3; 1] (Some (object_literal [(0, "blue"); (1, "red")]));
       mkStepState [5; 3; 1] (Some (object_literal [(0, "blue"); (0, "red")]));
       mkStepState [5; 3; 1] (Some (object_literal [(0, "yellow")]));
       mkStepState [3; 3; 1] (Some (object_literal [(1, "yellow")]));
       mkStepState [3; 5; 1]
         (Some (object_literal [(2, "yellow"); (2, "blue"); (2, "green")]));
       mkStepState [3; 5; 1] (Some (object_literal [(1, "blue"); (2, "red")]));
       mkStepState [3; 5; 1] (Some (object_literal [(1, "blue"); (0, "red")]));
       mkStepState [3; 5; 1] (Some (object_literal [(1, "blue"); (1, "red")]));
       mkStepState [3; 5; 1] (Some (object_literal [(0, "yellow")]));
       mkStepState [1; 5; 1] (Some (object_literal [(1, "yellow")]));
       mkStepState [1; 3; 1] (Some (object_literal [(2, "yellow")])) ],
     inr (mkStepState [1; 3; 5] None, [1; 3; 5])).
Proof.
  intros Hn. split; [|split; [intros; by apply mergeSort_from_leaf|reflexivity]].
  pose proof (left_size_bounds (length seg) ltac:(lia)) as Hh.
  set (h := left_size (length seg)) in *.
  assert (HlenL : length (take h seg) = h) by (rewrite length_take; lia).
  assert (HlenR : length (drop h seg) = (length seg - h)%nat) by (by rewrite length_drop).
  destruct (mergeSort_from_sorts h pre (take h seg) (drop h seg ++ post))
    as (tL & L' & HrL & HpL & _ & _); [lia|].
  destruct (mergeSort_from_sorts (length seg) (pre ++ L') (drop h seg) post)
    as (tR & R' & HrR & HpR & _ & _); [lia|].
  assert (HL' : length L' = h) by (by rewrite HpL).
  assert (HR' : length R' = (length seg - h)%nat) by (by rewrite HpR).
  assert (Hmid : middle_of (Z.of_nat (length pre))
                   (Z.of_nat (length pre) + Z.of_nat (length seg) - 1)
                 = Z.of_nat (length pre) + Z.of_nat h - 1).
  { destruct (middle_of_segment (Z.of_nat (length pre)) (length seg)) as [H|H]; [done|lia]. }
  assert (Harr : pre ++ seg ++ post = pre ++ take h seg ++ drop h seg ++ post)
    by (by rewrite (app_assoc (take h seg)), take_drop).
  specialize (HrL fuel ltac:(lia)). specialize (HrR fuel ltac:(lia)).
  rewrite HlenL in HrL. rewrite HlenR, length_app, HL' in HrR.
  rewrite <- !app_assoc in HrR.
  replace (Z.of_nat (length pre + h)) with (Z.of_nat (length pre) + Z.of_nat h - 1 + 1)
    in HrR by lia.
  replace (Z.of_nat (length pre) + Z.of_nat h - 1 + 1 + Z.of_nat (length seg - h) - 1)
    with (Z.of_nat (length pre) + Z.of_nat (length seg) - 1) in HrR by lia.
  pose proof (mergeSort_from_split pre (take h seg) (drop h seg) post fuel
                tL (mkStepState (pre ++ L' ++ drop h seg ++ post) None) L'
                tR (mkStepState (pre ++ L' ++ R' ++ post) None) R') as H.
  rewrite HlenL, HlenR in H.
  replace (h + (length seg - h))%nat with (length seg) in H by lia.
  specialize (H eq_refl ltac:(lia) HL' HR' HrL HrR).
  exists tL, (mkStepState (pre ++ L' ++ drop h seg ++ post) None),
    (pre ++ L' ++ drop h seg ++ post), tR,
    (mkStepState (pre ++ L' ++ R' ++ post) None), (L' ++ R'),
    (merge_picks (length pre) L' R').*2,
    (picks_steps (pre ++ L' ++ R' ++ post) (Z.of_nat (length pre) + Z.of_nat h - 1)
       (merge_picks (length pre) L' R')),
    (write_steps pre [] (merge_picks (length pre) L' R').*2 (L' ++ R') post).
  unfold delegates_in_order. cbv zeta. rewrite Hmid, Harr, <- !app_assoc.
  assert (Hpk : length (merge_picks (length pre) L' R') = length seg).
  { unfold merge_picks. rewrite picks_length by done. lia. }
  destruct (write_steps_spec (merge_picks (length pre) L' R').*2 pre [] (L' ++ R') post)
    as [Hwl Hwk]; [by rewrite length_fmap, Hpk, length_app, HL', HR'; lia|].
  rewrite length_fmap, Hpk in Hwl, Hwk.
  split; [done|]. split; [done|]. split; [done|].
  split; [unfold picks_steps; by rewrite length_fmap|].
  split; [|split; [done|]].
  - unfold picks_steps. apply Forall_fmap.
    eapply Forall_impl; [apply picks_index|].
    intros p Hp. simpl in Hp |- *. split; [done|]. exists (Z.of_nat p.1).
    split; [lia|done].
  - intros k Hk. by rewrite Hwk.
Qed.

Lemma mergeSort_delegation_witness :
  (2 <= length [5; 3; 1] < 4)%nat /\ delegates_in_order [] [5; 3; 1] [] 3.
Proof.
  split; [simpl; lia|]. apply (mergeSort_delegation [] [5; 3; 1] [] 3). simpl. lia.
Defined.

(** The two cells of an exchange are coloured differently in its first step. *)
Lemma exchange_colours_differ (j : Z) :
  object_literal [(j, "yellow"); (j + 1, "green")] !! j = Some "yellow" /\
  object_literal [(j, "yellow"); (j + 1, "green")] !! (j + 1) = Some "green".
Proof.
  unfold object_literal. simpl. split.
  - rewrite lookup_insert_ne by lia. apply lookup_insert_eq.
  - apply lookup_insert_eq.
Qed.

(** C4. [bubbleSort] yields its steps comparison by comparison: one step
    when the two cells are in order, two when they are exchanged, the first
    of the two colouring the two cells differently; there are
    [n * (n - 1) / 2] comparisons.  On [[3; 1; 2]] the steps are the five
    below and the run returns [[1; 2; 3]]. *)
Theorem bubbleSort_steps_per_comparison (arr : list Z) (fuel : nat) :
  (length arr < fuel)%nat ->
  (exists blocks final,
     runs (bubbleSort fuel) arr (concat blocks) (mkStepState final None) final /\
     Forall comparison_steps blocks /\
     (2 * length blocks = length arr * (length arr - 1))%nat) /\
  (forall j : Z,
     object_literal [(j, "yellow"); (j + 1, "green")] !! j <>
     object_literal [(j, "yellow"); (j + 1, "green")] !! (j + 1)) /\
  drain (bubbleSort 4 [3; 1; 2]) =
    ([ mkStepState [3; 1; 2] (Some (object_literal [(0, "yellow"); (1, "green")]));
       mkStepState [1; 3; 2] (Some (object_literal [(0, "green"); (1, "yellow")]));
       mkStepState [1; 3; 2] (Some (object_literal [(1, "yellow"); (2, "green")]));
       mkStepState [1; 2; 3] (Some (object_literal [(1, "green"); (2, "yellow")]));
       mkStepState [1; 2; 3] (Some (object_literal [(0, "yellow"); (1, "yellow")])) ],
     inr (mkStepState [1; 2; 3] None, [1; 2; 3])) /\
  (exists st0, start (bubbleSort 4) [3; 1; 2] = inr st0 /\
     sort_times 5 st0 =
       inr (mkApp Completed [1; 2; 3]
              (mkIteratorResult (Some (mkStepState [1; 2; 3] None)) true))).
Proof.
  intros Hfuel. split; [|split; [|split]].
  - exists (sweeps_blocks (length arr) arr), (sweeps (length arr) arr).
    split; [by apply bubbleSort_runs|].
    destruct (sweeps_blocks_steps (length arr) arr) as (H1 & H2 & _); done.
  - intros j. destruct (exchange_colours_differ j) as [-> ->]. done.
  - reflexivity.
  - eexists. split; reflexivity.
Qed.

Lemma bubbleSort_steps_per_comparison_witness :
  (length [3; 1; 2] < 4)%nat /\
  exists blocks final,
     runs (bubbleSort 4) [3; 1; 2] (concat blocks) (mkStepState final None) final /\
     Forall comparison_steps blocks /\
     (2 * length blocks = length [3; 1; 2] * (length [3; 1; 2] - 1))%nat.
Proof.
  split; [simpl; lia|].
  apply (bubbleSort_steps_per_comparison [3; 1; 2] 4). simpl. lia.
Defined.

(** C5. Once [sortingState.done] is true, any number of further calls of
    [sort] returns normally and leaves the whole component state, hence the
    displayed [result] and [colors], as it is. *)
Theorem sort_after_done (st : App) (n : nat) :
  done (sortingState st) = true -> sort_times n st = inr st.
Proof.
  intros Hdone. induction n as [|n IH]; [done|].
  simpl. unfold sort. by rewrite Hdone.
Qed.

Lemma sort_after_done_witness :
  let st := mkApp Completed [1; 2; 3]
              (mkIteratorResult (Some (mkStepState [1; 2; 3] None)) true) in
  done (sortingState st) = true /\ sort_times 3 st = inr st.
Proof.
  split; [reflexivity|]. by apply (sort_after_done _ 3).
Defined.

(** C8. Every step of a run of [bubbleSort] or [mergeSort] ([merge]
    included), yielded or returned, has a [result] as long as the input. *)
Theorem result_length_constant (arr : list Z) (fuel : nat) :
  (length arr < fuel)%nat ->
  (exists t v arr',
     runs (bubbleSort fuel) arr t v arr' /\
     Forall (fun s => length (result s) = length arr) (t ++ [v])) /\
  (exists t v arr',
     runs (mergeSort fuel) arr t v arr' /\
     Forall (fun s => length (result s) = length arr) (t ++ [v])).
Proof.
  intros Hfuel. split.
  - eexists _, _, _. split; [by apply bubbleSort_runs|].
    apply Forall_app. split.
    + by destruct (sweeps_blocks_steps (length arr) arr) as (_ & _ & H).
    + repeat constructor. apply sweeps_length.
  - destruct (mergeSort_runs arr) as (t & final & Hr & Hp & _ & Ht).
    eexists _, _, _. split; [by apply Hr|].
    apply Forall_app. split; [done|]. repeat constructor. simpl. by rewrite Hp.
Qed.

Lemma result_length_constant_witness :
  (length [5; 3; 1] < 4)%nat /\
  (exists t v arr',
     runs (bubbleSort 4) [5; 3; 1] t v arr' /\
     Forall (fun s => length (result s) = length [5; 3; 1]) (t ++ [v])) /\
  (exists t v arr',
     runs (mergeSort 4) [5; 3; 1] t v arr' /\
     Forall (fun s => length (result s) = length [5; 3; 1]) (t ++ [v])).
Proof.
  split; [simpl; lia|]. apply (result_length_constant [5; 3; 1] 4). simpl. lia.
Defined.

(** C9. Both producers terminate on every array: with any fuel above the
    length of the array the run returns, and the steps yielded are the
    finite list [steps_of _ arr], which depends on the array alone. *)
Theorem producers_terminate (arr : list Z) (fuel : nat) :
  (length arr < fuel)%nat ->
  (exists v arr', runs (bubbleSort fuel) arr (steps_of bubbleSort arr) v arr') /\
  (exists v arr', runs (mergeSort fuel) arr (steps_of mergeSort arr) v arr').
Proof.
  intros Hfuel. unfold steps_of. split.
  - rewrite (bubbleSort_runs arr (S (length arr))) by lia.
    eexists _, _. by apply bubbleSort_runs.
  - destruct (mergeSort_runs arr) as (t & final & Hr & _).
    rewrite (Hr (S (length arr))) by lia. eexists _, _. by apply Hr.
Qed.

Lemma producers_terminate_witness :
  (length [2; 2; 1] < 9)%nat /\
  (exists v arr', runs (bubbleSort 9) [2; 2; 1] (steps_of bubbleSort [2; 2; 1]) v arr') /\
  (exists v arr', runs (mergeSort 9) [2; 2; 1] (steps_of mergeSort [2; 2; 1]) v arr').
Proof.
  split; [simpl; lia|]. apply (producers_terminate [2; 2; 1] 9). simpl. lia.
Defined.

Lemma makeRandomArray_loop_spec (rounded_random : nat -> Z) (n : nat) :
  forall length i calls arr,
  Z.to_nat (length - i) = n ->
  makeRandomArray_loop rounded_random length i calls arr =
    (arr ++ (rounded_random <$> seq calls n), (calls + n)%nat).
Proof.
  induction n as [|n IH]; intros length i calls arr Hn; simp makeRandomArray_loop.
  - destruct (Z_lt_dec i length); [lia|]. simpl.
    by rewrite app_nil_r, Nat.add_0_r.
  - destruct (Z_lt_dec i length); [|lia]. simpl.
    rewrite IH by lia. rewrite <- app_assoc. simpl. do 2 f_equal. lia.
Qed.

(** C6, as the code has it. [makeRandomArray] validates nothing: for a
    length of zero or less it returns the empty array without any call to
    [Math.random]; for a positive length [n] it makes [n] calls and
    returns the array of the [n] values drawn, in the order in which they
    were drawn, which has [n] cells. *)
Theorem makeRandomArray_length (rounded_random : nat -> Z) (length : Z) (calls : nat) :
  (length <= 0 -> makeRandomArray rounded_random length calls = ([], calls)) /\
  (0 < length ->
     (makeRandomArray rounded_random length calls).1 =
       rounded_random <$> seq calls (Z.to_nat length) /\
     List.length (makeRandomArray rounded_random length calls).1 = Z.to_nat length /\
     (makeRandomArray rounded_random length calls).2 = (calls + Z.to_nat length)%nat).
Proof.
  unfold makeRandomArray. split; intros Hlen.
  - rewrite (makeRandomArray_loop_spec _ 0) by lia. simpl. by rewrite Nat.add_0_r.
  - rewrite (makeRandomArray_loop_spec _ (Z.to_nat length)) by (f_equal; lia).
    simpl. by rewrite length_fmap, length_seq.
Qed.

Lemma makeRandomArray_length_witness :
  (-3 <= 0 /\ makeRandomArray (fun k => 7 * Z.of_nat k) (-3) 0 = ([], 0%nat)) /\
  (0 < 2 /\
   (makeRandomArray (fun k => 7 * Z.of_nat k) 2 4).1 =
     (fun k => 7 * Z.of_nat k) <$> seq 4 (Z.to_nat 2) /\
   List.length (makeRandomArray (fun k => 7 * Z.of_nat k) 2 4).1 = Z.to_nat 2 /\
   (makeRandomArray (fun k => 7 * Z.of_nat k) 2 4).2 = (4 + Z.to_nat 2)%nat).
Proof.
  split; (split; [lia|]).
  - apply (makeRandomArray_length (fun k => 7 * Z.of_nat k) (-3) 0). lia.
  - apply (makeRandomArray_length (fun k => 7 * Z.of_nat k) 2 4). lia.
Defined.

(** C6 as stated fails: generation returns an array for the length 0. *)
Lemma makeRandomArray_accepts_zero :
  ~ (forall (rounded_random : nat -> Z) length calls arr calls',
       makeRandomArray rounded_random length calls = (arr, calls') -> 0 < length).
Proof.
  intros H.
  specialize (H (fun _ => 0) 0 0%nat [] 0%nat).
  unfold makeRandomArray in H.
  rewrite (makeRandomArray_loop_spec _ 0) in H by done.
  specialize (H eq_refl). lia.
Qed.



(** ** Day 2: the two ways agree *)

Lemma parse_digits_some value_of radix a s :
  is_Some (parse_digits value_of radix (Some a) s).
Proof.
  revert a. induction s as [|c s IH]; intros a; simpl; [by eexists|].
  destruct (value_of c); [apply IH|by eexists].
Qed.

Lemma digit_not_whitespace c : is_Some (digit_value c) -> is_whitespace c = false.
Proof.
  unfold digit_value, is_whitespace. intros [d H].
  destruct ((48 <=? _) && (_ <=? 57)) eqn:E; [|done].
  apply andb_true_iff in E as [E1%Z.leb_le E2%Z.leb_le].
  apply orb_false_iff. split; [apply andb_false_iff; right|]; lia.
Qed.

Lemma digit_not_char c (x : ascii) :
  is_Some (digit_value c) -> digit_value x = None -> Ascii.eqb c x = false.
Proof.
  intros [d H] Hx. destruct (Ascii.eqb_spec c x) as [->|]; [congruence|done].
Qed.

(** [parseInt] of a non-empty string of digits is a number, not [NaN]. *)
Lemma parseInt_all_digits s : all_digits s = true -> is_Some (parseInt s).
Proof.
  destruct s as [|c s]; [done|]. simpl.
  intros [Hc%bool_decide_eq_true Hs]%andb_true_iff.
  assert (Hdec : is_Some (parse_digits digit_value 10 None (String c s))).
  { simpl. destruct Hc as [d ->]. apply parse_digits_some. }
  unfold parseInt. cbn [skip_whitespace]. rewrite (digit_not_whitespace c Hc).
  rewrite !(digit_not_char c) by done. cbv iota beta.
  destruct s as [|c2 s].
  - destruct Hdec as [v ->]. by eexists.
  - simpl in Hs. apply andb_true_iff in Hs as [Hc2%bool_decide_eq_true _].
    rewrite !(digit_not_char c2) by done. rewrite andb_false_r.
    destruct Hdec as [v ->]. by eexists.
Qed.

Lemma checkReveal_balls_forallb balls :
  FirstWay.checkReveal_balls balls =
    forallb (fun ball => negb (exceeds "red" 12 (split " " ball))) balls &&
    forallb (fun ball => negb (exceeds "green" 13 (split " " ball))) balls &&
    forallb (fun ball => negb (exceeds "blue" 14 (split " " ball))) balls.
Proof.
  induction balls as [|ball balls IH]; [done|].
  simpl. unfold exceeds at 1 3 5. rewrite IH.
  destruct (bool_decide _ && number_gt _ 12); [done|].
  destruct (bool_decide _ && number_gt _ 13); [simpl; by rewrite andb_false_r|].
  destruct (bool_decide _ && number_gt _ 14); [simpl; by rewrite !andb_false_r|].
  done.
Qed.

Lemma record_infos_le c limit infos : forall m,
  c <> "undefined" ->
  Forall (counted c) infos ->
  number_le (SecondWay.read (SecondWay.record_infos infos m) c) limit =
    number_le (SecondWay.read m c) limit &&
    forallb (fun parts => negb (exceeds c limit parts)) infos.
Proof.
  induction infos as [|parts infos IH]; intros m Hc Hall; simpl.
  - by rewrite andb_true_r.
  - inversion Hall as [|? ? Hparts Hrest]; subst.
    rewrite IH by done. rewrite andb_assoc. f_equal.
    unfold SecondWay.read at 1. unfold exceeds. unfold counted in Hparts.
    destruct (decide (parts !! 1%nat = Some c)) as [Heq|Hne].
    + rewrite Heq. simpl. rewrite lookup_insert_eq. simpl.
      rewrite bool_decide_eq_true_2 by done.
      destruct (Hparts Heq) as [x ->]. simpl.
      destruct (SecondWay.read m c) as [v|]; [|done]. simpl.
      destruct (Z.leb_spec (Z.max v x) limit), (Z.leb_spec v limit),
        (Z.gtb_spec x limit); simpl; try done; lia.
    + rewrite lookup_insert_ne.
      2:{ destruct (parts !! 1%nat) as [color|]; simpl; congruence. }
      rewrite bool_decide_eq_false_2 by done. simpl. by rewrite andb_true_r.
Qed.

Lemma forallb_fmap {A B} (f : B -> bool) (g : A -> B) (l : list A) :
  forallb f (g <$> l) = forallb (fun x => f (g x)) l.
Proof. induction l as [|x l IH]; [done|]. simpl. by rewrite <- IH. Qed.

Lemma record_reveals_le c limit reveals : forall m,
  c <> "undefined" ->
  Forall (fun reveal => Forall (counted c) (split " " <$> split ", " reveal)) reveals ->
  number_le (SecondWay.read (SecondWay.record_reveals reveals m) c) limit =
    number_le (SecondWay.read m c) limit &&
    forallb (fun reveal =>
               forallb (fun ball => negb (exceeds c limit (split " " ball)))
                       (split ", " reveal)) reveals.
Proof.
  induction reveals as [|reveal reveals IH]; intros m Hc Hall; simpl.
  - by rewrite andb_true_r.
  - inversion Hall as [|? ? Hreveal Hrest]; subst.
    rewrite IH, record_infos_le by done.
    by rewrite <- andb_assoc, forallb_fmap.
Qed.

Lemma forallb_checkReveal reveals :
  forallb FirstWay.checkReveal reveals =
    forallb (fun reveal => forallb (fun ball => negb (exceeds "red" 12 (split " " ball)))
                             (split ", " reveal)) reveals &&
    forallb (fun reveal => forallb (fun ball => negb (exceeds "green" 13 (split " " ball)))
                             (split ", " reveal)) reveals &&
    forallb (fun reveal => forallb (fun ball => negb (exceeds "blue" 14 (split " " ball)))
                             (split ", " reveal)) reveals.
Proof.
  induction reveals as [|reveal reveals IH]; [done|].
  simpl. rewrite IH. unfold FirstWay.checkReveal. rewrite checkReveal_balls_forallb.
  repeat match goal with |- context [forallb ?f ?l] =>
    let b := fresh "b" in generalize (forallb f l); intros b end.
  repeat match goal with b : bool |- _ => destruct b end; done.
Qed.

Lemma well_formed_ball_counted c ball :
  well_formed_ball ball = true -> counted c (split " " ball).
Proof.
  unfold well_formed_ball, counted.
  destruct (split " " ball) as [|count [|color [|? ?]]]; try done.
  intros [Hd _]%andb_true_iff _. simpl. by apply parseInt_all_digits.
Qed.

Lemma part1_lines_agree lines : forall sum,
  forallb well_formed_line lines = true ->
  FirstWay.part1_lines lines sum = SecondWay.part1_lines lines sum.
Proof.
  induction lines as [|game lines IH]; intros sum Hwf; [done|].
  simpl in Hwf. apply andb_true_iff in Hwf as [Hgame Hlines].
  simpl. unfold well_formed_line in Hgame.
  destruct (split ": " game) as [|gameText [|infoText [|? ?]]]; try done.
  simpl. apply andb_true_iff in Hgame as [_ Hreveals].
  assert (Hcounted : forall c,
            Forall (fun reveal => Forall (counted c) (split " " <$> split ", " reveal))
                   (split "; " infoText)).
  { intros c. apply Forall_forall. intros reveal Hin.
    apply Forall_fmap, Forall_forall. intros ball Hball.
    apply well_formed_ball_counted.
    rewrite forallb_forall in Hreveals.
    specialize (Hreveals reveal ltac:(by apply list_elem_of_In)).
    rewrite forallb_forall in Hreveals. apply Hreveals. by apply list_elem_of_In. }
  rewrite forallb_checkReveal.
  rewrite !record_reveals_le by done.
  by rewrite IH.
Qed.

(** C10. On a well-formed input, lines ["Game N: ..."] of reveals of
    ["count color"] balls with the colours red, green and blue, the two
    versions of [part1] return the same sum. *)
Theorem part1_ways_agree (input : string) :
  well_formed input = true -> FirstWay.part1 input = SecondWay.part1 input.
Proof. apply part1_lines_agree. Qed.

Lemma part1_ways_agree_witness :
  well_formed sample_input = true /\
  FirstWay.part1 sample_input = SecondWay.part1 sample_input.
Proof.
  split; [reflexivity|]. apply (part1_ways_agree sample_input). reflexivity.
Defined.

(** The sample of the puzzle: games 1, 2 and 5 are possible. *)
Example part1_sample :
  FirstWay.part1 sample_input = Returns (Some 8) /\
  SecondWay.part1 sample_input = Returns (Some 8).
Proof. split; reflexivity. Qed.

(** The hypothesis matters: a count that is not a number is passed over by
    the first way and makes the game impossible for the second. *)
Example part1_ways_differ_on_NaN :
  FirstWay.part1 "Game 1: x red" = Returns (Some 1) /\
  SecondWay.part1 "Game 1: x red" = Returns (Some 0).
Proof. split; reflexivity. Qed.

(** * Part IV: further properties *)

(** ** [mergeSort] and [merge] on a part of the array *)

(** X1. [mergeSort(arr, i, j)] called on the cells [i..j] of an array
    sorts these cells among themselves and leaves every other cell as it
    is. *)
Theorem mergeSort_from_sorts_segment (pre seg post : list Z) (fuel : nat) :
  (length seg < fuel)%nat ->
  exists t seg',
    runs (mergeSort_from fuel (Z.of_nat (length pre))
            (Z.of_nat (length pre) + Z.of_nat (length seg) - 1))
         (pre ++ seg ++ post) t
         (mkStepState (pre ++ seg' ++ post) None) (pre ++ seg' ++ post) /\
    Sorted Z.le seg' /\ seg' ≡ₚ seg.
Proof.
  intros Hfuel.
  destruct (mergeSort_from_sorts (length seg) pre seg post) as (t & seg' & Hr & Hp & Hs & _);
    [done|].
  exists t, seg'. split; [by apply Hr|]. split; [by apply StronglySorted_Sorted|done].
Qed.

Lemma mergeSort_from_sorts_segment_witness :
  (length [4; 2; 3] < 4)%nat /\
  exists t seg',
    runs (mergeSort_from 4 (Z.of_nat (length [9; 8]))
            (Z.of_nat (length [9; 8]) + Z.of_nat (length [4; 2; 3]) - 1))
         ([9; 8] ++ [4; 2; 3] ++ [1]) t
         (mkStepState ([9; 8] ++ seg' ++ [1]) None) ([9; 8] ++ seg' ++ [1]) /\
    Sorted Z.le seg' /\ seg' ≡ₚ [4; 2; 3].
Proof.
  split; [simpl; lia|]. apply (mergeSort_from_sorts_segment [9; 8] [4; 2; 3] [1] 4).
  simpl. lia.
Defined.

(** X2. [merge(arr, i, middle, j)] on two adjacent sorted runs [L]
    (cells [i..middle]) and [R] (cells [middle+1..j]) leaves the cells
    [i..j] sorted, with the values of the two runs, touches no other cell,
    and yields two steps per cell. *)
Theorem merge_merges_sorted_runs (pre L R post : list Z) (fuel : nat) :
  Sorted Z.le L -> Sorted Z.le R ->
  (length L + length R < fuel)%nat ->
  exists t merged,
    runs (merge fuel (Z.of_nat (length pre))
            (Z.of_nat (length pre) + Z.of_nat (length L) - 1)
            (Z.of_nat (length pre) + Z.of_nat (length L) - 1 + Z.of_nat (length R)))
         (pre ++ L ++ R ++ post) t
         (mkStepState (pre ++ merged ++ post) None) (pre ++ merged ++ post) /\
    Sorted Z.le merged /\ merged ≡ₚ L ++ R /\
    length t = (2 * (length L + length R))%nat.
Proof.
  intros HL HR Hfuel.
  exists (picks_steps (pre ++ L ++ R ++ post)
            (Z.of_nat (length pre) + Z.of_nat (length L) - 1)
            (merge_picks (length pre) L R) ++
          write_steps pre [] (merge_picks (length pre) L R).*2 (L ++ R) post),
         (merge_picks (length pre) L R).*2.
  assert (Hpk : length (merge_picks (length pre) L R) = (length L + length R)%nat)
    by (unfold merge_picks; by rewrite picks_length).
  split; [by apply merge_runs|]. split; [|split].
  - apply StronglySorted_Sorted. unfold merge_picks.
    apply picks_sorted; [done|apply Sorted_StronglySorted; [apply _|done]..].
  - unfold merge_picks. by apply picks_perm.
  - destruct (write_steps_spec (merge_picks (length pre) L R).*2 pre [] (L ++ R) post)
      as [Hw _]; [by rewrite length_fmap, Hpk, length_app|].
    rewrite length_app, Hw. unfold picks_steps. rewrite !length_fmap, Hpk. lia.
Qed.

Lemma merge_merges_sorted_runs_witness :
  Sorted Z.le [2; 5] /\ Sorted Z.le [1; 5; 7] /\
  (length [2; 5] + length [1; 5; 7] < 6)%nat /\
  exists t merged,
    runs (merge 6 (Z.of_nat (length [0]))
            (Z.of_nat (length [0]) + Z.of_nat (length [2; 5]) - 1)
            (Z.of_nat (length [0]) + Z.of_nat (length [2; 5]) - 1
             + Z.of_nat (length [1; 5; 7])))
         ([0] ++ [2; 5] ++ [1; 5; 7] ++ []) t
         (mkStepState ([0] ++ merged ++ []) None) ([0] ++ merged ++ []) /\
    Sorted Z.le merged /\ merged ≡ₚ [2; 5] ++ [1; 5; 7] /\
    length t = (2 * (length [2; 5] + length [1; 5; 7]))%nat.
Proof.
  assert (H1 : Sorted Z.le [2; 5]) by (repeat constructor; lia).
  assert (H2 : Sorted Z.le [1; 5; 7]) by (repeat constructor; lia).
  split; [done|]. split; [done|]. split; [simpl; lia|].
  apply (merge_merges_sorted_runs [0] [2; 5] [1; 5; 7] [] 6 H1 H2). simpl. lia.
Defined.

(** ** More on the steps of [bubbleSort] *)

Lemma comparison_steps_length b : comparison_steps b -> (1 <= length b <= 2)%nat.
Proof. intros [l1 a c l2 H|l1 a c l2 H]; simpl; lia. Qed.

Lemma concat_length_bounds {A} (bs : list (list A)) :
  Forall (fun b => (1 <= length b <= 2)%nat) bs ->
  (length bs <= length (concat bs) <= 2 * length bs)%nat.
Proof.
  induction 1 as [|b bs Hb _ IH]; simpl; [lia|]. rewrite length_app. lia.
Qed.

(** X3. A run of [bubbleSort] on [n] cells yields at least [n(n-1)/2]
    steps, one per comparison, and at most [n(n-1)], two per comparison. *)
Theorem bubbleSort_step_count (arr : list Z) (fuel : nat) :
  (length arr < fuel)%nat ->
  exists t v arr',
    runs (bubbleSort fuel) arr t v arr' /\
    (length arr * (length arr - 1) <= 2 * length t)%nat /\
    (length t <= length arr * (length arr - 1))%nat.
Proof.
  intros Hfuel. eexists _, _, _. split; [by apply bubbleSort_runs|].
  destruct (sweeps_blocks_steps (length arr) arr) as (H1 & H2 & _); [done|].
  pose proof (concat_length_bounds (sweeps_blocks (length arr) arr)) as Hb.
  destruct Hb as [Hlo Hhi].
  { eapply Forall_impl; [exact H1|]. apply comparison_steps_length. }
  lia.
Qed.

Lemma bubbleSort_step_count_witness :
  (length [4; 1; 3; 2] < 5)%nat /\
  exists t v arr',
    runs (bubbleSort 5) [4; 1; 3; 2] t v arr' /\
    (length [4; 1; 3; 2] * (length [4; 1; 3; 2] - 1) <= 2 * length t)%nat /\
    (length t <= length [4; 1; 3; 2] * (length [4; 1; 3; 2] - 1))%nat.
Proof.
  split; [simpl; lia|]. apply (bubbleSort_step_count [4; 1; 3; 2] 5). simpl. lia.
Defined.

Lemma pass_sorted_input (l : list Z) : forall l1 a suf,
  Forall (Z.le a) l -> StronglySorted Z.le l ->
  pass_array a l = a :: l /\
  length (concat (pass_blocks l1 a l suf)) = length l /\
  Forall (fun s => result s = l1 ++ a :: l ++ suf) (concat (pass_blocks l1 a l suf)).
Proof.
  induction l as [|b l IH]; intros l1 a suf Ha Hl; simpl; [by repeat split|].
  inversion Ha as [|? ? Hab Ha']; inversion Hl as [|? ? Hl' Hb]; subst.
  unfold compare_block. rewrite (Z.gtb_ltb a b), (proj2 (Z.ltb_ge b a)) by lia.
  destruct (IH (l1 ++ [a]) b suf Hb Hl') as (-> & Hlen & Hres).
  split; [done|]. simpl. split; [by rewrite Hlen|].
  constructor; [done|].
  eapply Forall_impl; [exact Hres|]. intros s ->. by rewrite <- app_assoc.
Qed.

Lemma sweeps_sorted_input (k : nat) : forall arr,
  (k <= length arr)%nat -> StronglySorted Z.le arr ->
  sweeps k arr = arr /\
  (2 * length (concat (sweeps_blocks k arr)) = k * (k - 1))%nat /\
  Forall (fun s => result s = arr) (concat (sweeps_blocks k arr)).
Proof.
  induction k as [|k IH]; intros arr Hk Hs.
  - destruct arr; simpl; by repeat split.
  - destruct arr as [|a rest]; [simpl in Hk; lia|]. simpl in Hk.
    inversion Hs as [|? ? Hrest Ha]; subst.
    assert (Htake : StronglySorted Z.le (take k rest)).
    { rewrite <- (take_drop k rest) in Hrest. by apply StronglySorted_app_1_l in Hrest. }
    assert (Hle : Forall (Z.le a) (take k rest)).
    { rewrite <- (take_drop k rest) in Ha. by apply Forall_app in Ha as [? _]. }
    destruct (pass_sorted_input (take k rest) [] a (drop k rest) Hle Htake)
      as (Hp & Hlen & Hres).
    simpl sweeps. simpl sweeps_blocks. rewrite Hp. simpl. rewrite take_drop.
    destruct (IH (a :: rest) ltac:(simpl; lia) Hs) as (-> & Hcount & Hall).
    split; [done|]. rewrite concat_app, length_app, Hlen, length_take.
    split; [nia|]. apply Forall_app. split; [|done].
    simpl in Hres. by rewrite take_drop in Hres.
Qed.

(** X4. On an array that is already sorted [bubbleSort] exchanges
    nothing: it yields exactly [n(n-1)/2] steps, every one of them shows
    the array as it was given, and the array is returned unchanged. *)
Theorem bubbleSort_on_sorted_input (arr : list Z) (fuel : nat) :
  Sorted Z.le arr -> (length arr < fuel)%nat ->
  exists t,
    runs (bubbleSort fuel) arr t (mkStepState arr None) arr /\
    (2 * length t = length arr * (length arr - 1))%nat /\
    Forall (fun s => result s = arr) t.
Proof.
  intros Hs Hfuel. apply Sorted_StronglySorted in Hs; [|apply _].
  destruct (sweeps_sorted_input (length arr) arr) as (Heq & Hcount & Hall); [done..|].
  exists (concat (sweeps_blocks (length arr) arr)).
  split; [|done]. pose proof (bubbleSort_runs arr fuel Hfuel) as Hr.
  by rewrite Heq in Hr.
Qed.

Lemma bubbleSort_on_sorted_input_witness :
  Sorted Z.le [1; 2; 2; 5] /\ (length [1; 2; 2; 5] < 5)%nat /\
  exists t,
    runs (bubbleSort 5) [1; 2; 2; 5] t (mkStepState [1; 2; 2; 5] None) [1; 2; 2; 5] /\
    (2 * length t = length [1; 2; 2; 5] * (length [1; 2; 2; 5] - 1))%nat /\
    Forall (fun s => result s = [1; 2; 2; 5]) t.
Proof.
  assert (H : Sorted Z.le [1; 2; 2; 5]) by (repeat constructor; lia).
  split; [done|]. split; [simpl; lia|].
  apply (bubbleSort_on_sorted_input [1; 2; 2; 5] 5 H). simpl. lia.
Defined.

Lemma pass_blocks_perm (l : list Z) : forall l1 a suf,
  Forall (fun s => result s ≡ₚ l1 ++ a :: l ++ suf) (concat (pass_blocks l1 a l suf)).
Proof.
  induction l as [|b l IH]; intros l1 a suf; simpl; [constructor|].
  apply Forall_app. split.
  - unfold compare_block. destruct (a >? b); repeat constructor; simpl; try done.
    apply Permutation_app_head, perm_swap.
  - destruct (a >? b).
    + eapply Forall_impl; [apply IH|]. intros s ->. rewrite <- app_assoc. simpl.
      apply Permutation_app_head, perm_swap.
    + eapply Forall_impl; [apply IH|]. intros s ->. by rewrite <- app_assoc.
Qed.

Lemma sweeps_blocks_perm (k : nat) : forall arr,
  Forall (fun s => result s ≡ₚ arr) (concat (sweeps_blocks k arr)).
Proof.
  induction k as [|k IH]; intros [|a rest]; simpl; try constructor.
  rewrite concat_app. apply Forall_app. split.
  - eapply Forall_impl; [apply pass_blocks_perm|]. intros s ->. simpl.
    by rewrite take_drop.
  - eapply Forall_impl; [apply IH|]. intros s ->.
    by rewrite pass_array_perm, <- app_comm_cons, take_drop.
Qed.

(** X5. Every step that [bubbleSort] yields shows a permutation of the
    array it was given: at no moment of the animation is a value missing
    or shown twice. *)
Theorem bubbleSort_steps_are_permutations (arr : list Z) (fuel : nat) :
  (length arr < fuel)%nat ->
  exists t v arr',
    runs (bubbleSort fuel) arr t v arr' /\
    Forall (fun s => result s ≡ₚ arr) (t ++ [v]).
Proof.
  intros Hfuel. eexists _, _, _. split; [by apply bubbleSort_runs|].
  apply Forall_app. split; [apply sweeps_blocks_perm|].
  repeat constructor. apply sweeps_perm.
Qed.

Lemma bubbleSort_steps_are_permutations_witness :
  (length [3; 1; 3] < 4)%nat /\
  exists t v arr',
    runs (bubbleSort 4) [3; 1; 3] t v arr' /\
    Forall (fun s => result s ≡ₚ [3; 1; 3]) (t ++ [v]).
Proof.
  split; [simpl; lia|]. apply (bubbleSort_steps_are_permutations [3; 1; 3] 4).
  simpl. lia.
Defined.

(** A step of [mergeSort] need not be one: while [merge] writes back, a
    value can be there twice. *)
Example mergeSort_step_not_a_permutation :
  exists s, s ∈ (drain (mergeSort 4 [5; 3; 1])).1 /\ ~ result s ≡ₚ [5; 3; 1].
Proof.
  exists (mkStepState [3; 3; 1] (Some (object_literal [(1, "yellow")]))).
  split.
  - simpl. repeat constructor.
  - simpl. intros H. assert (H5 : 5 ∈ [3; 3; 1]) by (rewrite H; constructor).
    rewrite !elem_of_cons, elem_of_nil in H5. lia.
Qed.

Lemma comparison_steps_fill b :
  comparison_steps b ->
  Forall (fun s =>
            exists j : nat,
              (S j < length (result s))%nat /\
              forall index, fill s index <> "white" <-> index = j \/ index = S j) b.
Proof.
  assert (Hfill : forall (res : list Z) (j : nat) c1 c2 index,
            c1 <> "white" -> c2 <> "white" ->
            fill (mkStepState res
                    (Some (object_literal [(Z.of_nat j, c1); (Z.of_nat j + 1, c2)]))) index
              <> "white" <-> index = j \/ index = S j).
  { intros res j c1 c2 index H1 H2. unfold fill, object_literal. simpl.
    rewrite !lookup_insert. repeat case_decide; simpl; try rewrite lookup_empty; simpl;
      split; try done; try lia; intros [?|?]; lia. }
  intros [l1 a c l2 H j|l1 a c l2 H j]; repeat constructor;
    exists (length l1); (split; [simpl; rewrite length_app; simpl; lia|]);
    intros index; by apply Hfill.
Qed.

(** X6. In every step that [bubbleSort] yields exactly two bars, next to
    each other, are not white; in the value it returns every bar is
    white. *)
Theorem bubbleSort_colours_two_bars (arr : list Z) (fuel : nat) :
  (length arr < fuel)%nat ->
  exists t v arr',
    runs (bubbleSort fuel) arr t v arr' /\
    Forall (fun s =>
              exists j : nat,
                (S j < length (result s))%nat /\
                forall index, fill s index <> "white" <-> index = j \/ index = S j) t /\
    forall index, fill v index = "white".
Proof.
  intros Hfuel. eexists _, _, _. split; [by apply bubbleSort_runs|]. split; [|done].
  destruct (sweeps_blocks_steps (length arr) arr) as (H1 & _ & _); [done|].
  apply Forall_concat. eapply Forall_impl; [exact H1|]. apply comparison_steps_fill.
Qed.

Lemma bubbleSort_colours_two_bars_witness :
  (length [2; 1] < 3)%nat /\
  exists t v arr',
    runs (bubbleSort 3) [2; 1] t v arr' /\
    Forall (fun s =>
              exists j : nat,
                (S j < length (result s))%nat /\
                forall index, fill s index <> "white" <-> index = j \/ index = S j) t /\
    forall index, fill v index = "white".
Proof.
  split; [simpl; lia|]. apply (bubbleSort_colours_two_bars [2; 1] 3). simpl. lia.
Defined.

(** ** More on the driver *)

Lemma sort_times_invariant (P : App -> Prop) (n : nat) : forall st0 st,
  (forall st st', P st -> sort st = inr st' -> P st') ->
  P st0 -> sort_times n st0 = inr st -> P st.
Proof.
  induction n as [|n IH]; intros st0 st Hstep H0; simpl.
  - by intros [= <-].
  - destruct (sort st0) as [e|st1] eqn:Hs; [done|]. apply IH; [done|]. by eapply Hstep.
Qed.

Lemma start_in_step algorithm arr st : start algorithm arr = inr st -> in_step st.
Proof.
  rewrite start_app_of.
  destruct (algorithm arr) as [s arr0|s arr0 k|e]; simpl; intros [= <-];
    (split; [by eexists|done]).
Qed.

Lemma sort_in_step st st' : in_step st -> sort st = inr st' -> in_step st'.
Proof.
  intros [Hv Hd]. unfold sort.
  destruct (done (sortingState st)) eqn:Hdone; [by intros [= <-]; split; [|rewrite Hdone]|].
  unfold next. destruct (generator st) as [k|]; [|by destruct Hd as [_ Hd]; discriminate Hd].
  destruct (k (array st)) as [s arr0|s arr0 k'|e]; simpl; intros [= <-];
    (split; [by eexists|done]).
Qed.

(** X7. After the first render and any number of clicks
    [sortingState.value] is defined, so that its [result] and [colors] can
    be read, and [sortingState.done] is true exactly when the generator has
    completed: [next()] is never called on a completed generator. *)
Theorem sortingState_value_defined (algorithm : Gen StepState) (arr : list Z)
    (n : nat) (st : App) :
  clicks algorithm arr n = inr st ->
  is_Some (value (sortingState st)) /\
  (done (sortingState st) = true <-> generator st = Completed).
Proof.
  unfold clicks. destruct (start algorithm arr) as [e|st0] eqn:Hstart; [done|].
  intros Hn. apply (sort_times_invariant in_step n st0 st); [apply sort_in_step| |done].
  by eapply start_in_step.
Qed.

Lemma sortingState_value_defined_witness :
  let st := mkApp Completed [1; 2]
              (mkIteratorResult (Some (mkStepState [1; 2] None)) true) in
  clicks (bubbleSort 3) [2; 1] 4 = inr st /\
  is_Some (value (sortingState st)) /\
  (done (sortingState st) = true <-> generator st = Completed).
Proof.
  split; [reflexivity|].
  by apply (sortingState_value_defined (bubbleSort 3) [2; 1] 4).
Defined.

(** X8. The component replays the run: after the first render and [k]
    clicks it shows the [k]-th yielded step, not [done]; after as many
    clicks as there are steps it shows the returned value with [done]. No
    step is skipped and none is shown twice. *)
Theorem clicks_replay_the_run (algorithm : Gen StepState) (arr : list Z)
    (t : list StepState) (v : StepState) (arr' : list Z) :
  runs algorithm arr t v arr' ->
  (forall k s, t !! k = Some s ->
     exists st, clicks algorithm arr k = inr st /\
                sortingState st = mkIteratorResult (Some s) false) /\
  clicks algorithm arr (length t) =
    inr (mkApp Completed arr' (mkIteratorResult (Some v) true)).
Proof.
  intros Hr. unfold clicks. rewrite start_app_of.
  destruct (sort_times_drain (algorithm arr) t v arr' Hr) as (st0 & -> & Hfin & Hsteps).
  split; [exact Hsteps|exact Hfin].
Qed.

Lemma clicks_replay_the_run_witness :
  let t := [ mkStepState [2; 1] (Some (object_literal [(0, "yellow"); (1, "green")]));
             mkStepState [1; 2] (Some (object_literal [(0, "green"); (1, "yellow")])) ] in
  let v := mkStepState [1; 2] None in
  runs (bubbleSort 3) [2; 1] t v [1; 2] /\
  (forall k s, t !! k = Some s ->
     exists st, clicks (bubbleSort 3) [2; 1] k = inr st /\
                sortingState st = mkIteratorResult (Some s) false) /\
  clicks (bubbleSort 3) [2; 1] (length t) =
    inr (mkApp Completed [1; 2] (mkIteratorResult (Some v) true)).
Proof.
  split; [reflexivity|].
  by apply (clicks_replay_the_run (bubbleSort 3) [2; 1]).
Defined.

Lemma results_are_store_bindS {A} (r : Susp A) (f : A -> Gen StepState) :
  yields_store r -> (forall a arr, results_are_store (f a arr)) ->
  results_are_store (bindS r f).
Proof.
  intros Hr Hf. induction r as [a arr|s arr k IH|e]; simpl in *; [apply Hf| |done].
  destruct Hr as [Hs Hk]. split; [done|]. intros arr'. by apply IH.
Qed.

Lemma bubbleSort_results_are_store fuel arr : results_are_store (bubbleSort fuel arr).
Proof.
  unfold bubbleSort, bind. apply results_are_store_bindS; [|done].
  pose proof (bubbleSort_yields_store fuel arr) as H.
  unfold bubbleSort, bind in H.
  destruct (bubbleSort_outer fuel arr) as [a arr0|s arr0 k|e]; simpl in *; try done.
  destruct H as [Hs Hk]. split; [done|]. intros arr'. specialize (Hk arr').
  clear -Hk. induction (k arr') as [a arr0|s arr0 k' IH|e]; simpl in *; try done.
  destruct Hk as [Hs Hk]. split; [done|]. intros arr''. by apply IH.
Qed.

Lemma mergeSort_from_results_are_store fuel : forall i j arr,
  results_are_store (mergeSort_from fuel i j arr).
Proof.
  induction fuel as [|fuel IH]; intros i j arr; [done|].
  simpl. split; [done|]. intros arr'.
  destruct (j <=? i); [done|].
  apply results_are_store_bindS.
  { apply yields_store_delegate. apply mergeSort_from_yields_store. }
  intros _ arr1. apply results_are_store_bindS.
  { apply yields_store_delegate. apply mergeSort_from_yields_store. }
  intros _ arr2. apply results_are_store_bindS; [|done].
  apply yields_store_delegate. apply merge_yields_store.
Qed.

Lemma start_shows_live_array algorithm arr st :
  (forall arr, results_are_store (algorithm arr)) ->
  start algorithm arr = inr st -> shows_live_array st.
Proof.
  intros Halg. rewrite start_app_of. specialize (Halg arr).
  destruct (algorithm arr) as [s arr0|s arr0 k|e]; simpl; intros [= <-]; split; simpl;
    try done.
  - by intros ? [= <-].
  - by intros ? [= <-]; destruct Halg.
  - by destruct Halg.
Qed.

Lemma sort_shows_live_array st st' :
  shows_live_array st -> sort st = inr st' -> shows_live_array st'.
Proof.
  intros [Hres Hgen]. unfold sort.
  destruct (done (sortingState st)); [by intros [= <-]; split|].
  unfold next. destruct (generator st) as [k|]; [|by intros [= <-]; split].
  specialize (Hgen (array st)).
  destruct (k (array st)) as [s arr0|s arr0 k'|e]; simpl; intros [= <-]; split; simpl;
    try done.
  - by intros ? [= <-].
  - by intros ? [= <-]; destruct Hgen.
  - by destruct Hgen.
Qed.

(** X9. With [bubbleSort] and with [mergeSort], whatever the fuel, the
    [result] the component shows after any number of clicks is the array
    as it is at that moment: the step holds the array itself and nothing
    changes the array between two clicks. *)
Theorem displayed_result_is_the_array (fuel : nat) (arr : list Z) (n : nat) (st : App) :
  clicks (bubbleSort fuel) arr n = inr st \/ clicks (mergeSort fuel) arr n = inr st ->
  forall s, value (sortingState st) = Some s -> result s = array st.
Proof.
  unfold clicks. intros [H|H].
  - destruct (start (bubbleSort fuel) arr) as [e|st0] eqn:Hstart; [done|].
    apply (sort_times_invariant shows_live_array n st0 st); [apply sort_shows_live_array| |done].
    eapply start_shows_live_array; [|done]. apply bubbleSort_results_are_store.
  - destruct (start (mergeSort fuel) arr) as [e|st0] eqn:Hstart; [done|].
    apply (sort_times_invariant shows_live_array n st0 st); [apply sort_shows_live_array| |done].
    eapply start_shows_live_array; [|done]. intros arr0. apply mergeSort_from_results_are_store.
Qed.

Lemma displayed_result_is_the_array_witness :
  let st := mkApp Completed [1; 2]
              (mkIteratorResult (Some (mkStepState [1; 2] None)) true) in
  (clicks (bubbleSort 3) [2; 1] 2 = inr st \/ clicks (mergeSort 3) [2; 1] 2 = inr st) /\
  forall s, value (sortingState st) = Some s -> result s = array st.
Proof.
  assert (H : clicks (bubbleSort 3) [2; 1] 2 =
              inr (mkApp Completed [1; 2]
                     (mkIteratorResult (Some (mkStepState [1; 2] None)) true)))
    by reflexivity.
  split; [by left|].
  apply (displayed_result_is_the_array 3 [2; 1] 2). by left.
Defined.

(** ** Resetting *)

(** X10. [reset] of [App.tsx] does not read the state it replaces: from
    any state, a finished sort included, it draws ten numbers (ten calls
    of [Math.random]), and leaves the component on the first step of
    [mergeSort] over them, the split of the cells [0..9], not [done];
    clicking on from there ends with the ten numbers sorted. *)
Theorem reset_starts_a_fresh_sort (rounded_random : nat -> Z) (fuel calls : nat)
    (st : App) :
  (10 < fuel)%nat ->
  let arr := rounded_random <$> seq calls 10 in
  exists st0 n final,
    Resetting.reset rounded_random fuel calls st = (inr st0, (calls + 10)%nat) /\
    array st0 = arr /\
    sortingState st0 = mkIteratorResult (Some (split_step arr 0 9)) false /\
    sort_times n st0 =
      inr (mkApp Completed final
             (mkIteratorResult (Some (mkStepState final None)) true)) /\
    Sorted Z.le final /\ final ≡ₚ arr.
Proof.
  intros Hfuel arr.
  unfold Resetting.reset, makeRandomArray.
  rewrite (makeRandomArray_loop_spec rounded_random 10) by reflexivity.
  cbn [app]. fold arr.
  assert (Hlen : length arr = 10%nat) by (unfold arr; by rewrite length_fmap, length_seq).
  destruct (mergeSort_runs arr) as (t & final & Hr & Hp & Hs & _).
  specialize (Hr fuel ltac:(lia)).
  destruct (sort_times_drain (mergeSort fuel arr) t _ _ Hr) as (st0 & Hst0 & Hfin & _).
  exists st0, (length t), final. rewrite start_app_of, Hst0.
  split; [done|].
  assert (Hfirst : array st0 = arr /\
            sortingState st0 = mkIteratorResult (Some (split_step arr 0 9)) false).
  { destruct fuel as [|fuel]; [lia|]. unfold mergeSort in Hst0. rewrite Hlen in Hst0.
    simpl in Hst0. by injection Hst0 as <-. }
  destruct Hfirst as [Ha Hs0].
  split; [done|]. split; [done|]. split; [done|].
  split; [by apply StronglySorted_Sorted|done].
Qed.

Lemma reset_starts_a_fresh_sort_witness :
  let rounded_random := fun k => 1000 - Z.of_nat k in
  let st := mkApp Completed [] (mkIteratorResult None true) in
  (10 < 11)%nat /\
  let arr := rounded_random <$> seq 0 10 in
  exists st0 n final,
    Resetting.reset rounded_random 11 0 st = (inr st0, (0 + 10)%nat) /\
    array st0 = arr /\
    sortingState st0 = mkIteratorResult (Some (split_step arr 0 9)) false /\
    sort_times n st0 =
      inr (mkApp Completed final
             (mkIteratorResult (Some (mkStepState final None)) true)) /\
    Sorted Z.le final /\ final ≡ₚ arr.
Proof.
  split; [lia|].
  apply (reset_starts_a_fresh_sort (fun k => 1000 - Z.of_nat k) 11 0). lia.
Defined.

(** ** The steps of [mergeSort]: how many, and which bars *)

Lemma object_literal_lookup kvs k colour :
  object_literal kvs !! k = Some colour -> (k, colour) ∈ kvs.
Proof.
  unfold object_literal.
  assert (H : forall m : gmap Z string,
            foldl (fun m kv => <[kv.1 := kv.2]> m) m kvs !! k = Some colour ->
            m !! k = Some colour \/ (k, colour) ∈ kvs).
  { induction kvs as [|[k' c'] kvs IH]; intros m; simpl; [by left|].
    intros Hl. destruct (IH _ Hl) as [Hm|Hin]; [|right; apply elem_of_cons; by right].
    destruct (decide (k' = k)) as [->|Hne].
    - rewrite lookup_insert_eq in Hm. injection Hm as ->. right. apply elem_of_cons. by left.
    - rewrite lookup_insert_ne in Hm by done. by left. }
  intros Hl. destruct (H _ Hl) as [Hm|Hin]; [by rewrite lookup_empty in Hm|done].
Qed.

Lemma object_literal_is_Some kvs k :
  k ∈ kvs.*1 -> is_Some (object_literal kvs !! k).
Proof.
  unfold object_literal.
  assert (H : forall m : gmap Z string,
            is_Some (m !! k) \/ k ∈ kvs.*1 ->
            is_Some (foldl (fun m kv => <[kv.1 := kv.2]> m) m kvs !! k)).
  { induction kvs as [|[k' c'] kvs IH]; intros m; simpl.
    - intros [H|H]; [done|]. by apply elem_of_nil in H.
    - intros [H|H]; apply IH.
      + left. destruct (decide (k' = k)) as [->|Hne].
        * rewrite lookup_insert_eq. by eexists.
        * by rewrite lookup_insert_ne.
      + apply elem_of_cons in H as [->|H]; [left|by right].
        rewrite lookup_insert_eq. by eexists. }
  intros Hin. apply H. by right.
Qed.

Lemma colours_cells_literal lo hi arr k0 c0 kvs :
  Forall (fun kv : Z * string => lo <= kv.1 < hi /\ kv.2 <> "white") ((k0, c0) :: kvs) ->
  colours_cells lo hi (mkStepState arr (Some (object_literal ((k0, c0) :: kvs)))).
Proof.
  intros Hall. eexists. split; [done|]. split.
  - exists k0. apply object_literal_is_Some. simpl. apply elem_of_cons. by left.
  - intros k colour Hl. apply object_literal_lookup in Hl.
    rewrite Forall_forall in Hall. apply (Hall _ Hl).
Qed.

Lemma colours_cells_mono lo hi lo' hi' s :
  lo' <= lo -> hi <= hi' -> colours_cells lo hi s -> colours_cells lo' hi' s.
Proof.
  intros Hlo Hhi (c & Hc & Hk & Hall). exists c. split; [done|]. split; [done|].
  intros k colour Hl. destruct (Hall k colour Hl). split; [lia|done].
Qed.

Lemma picks_steps_colours arr middle lo hi ps :
  lo <= middle < hi ->
  Forall (fun p : nat * Z => lo <= Z.of_nat p.1 < hi) ps ->
  Forall (colours_cells lo hi) (picks_steps arr middle ps).
Proof.
  intros Hm Hps. unfold picks_steps. apply Forall_fmap.
  eapply Forall_impl; [exact Hps|]. intros p Hp. simpl in Hp |- *.
  apply colours_cells_literal. repeat constructor; simpl; done || lia.
Qed.

Lemma write_steps_colours (s2 : list Z) pre g2 post :
  length g2 = length s2 ->
  Forall (colours_cells (Z.of_nat (length pre))
            (Z.of_nat (length pre) + Z.of_nat (length s2)))
         (write_steps pre [] s2 g2 post).
Proof.
  intros Hg. destruct (write_steps_spec s2 pre [] g2 post Hg) as [Hlen Hk].
  apply Forall_lookup. intros k s Hs.
  assert (Hlt : (k < length s2)%nat) by (rewrite <- Hlen; by eapply lookup_lt_Some).
  rewrite Hk in Hs by done. injection Hs as <-.
  apply colours_cells_literal. repeat constructor; simpl; done || lia.
Qed.

Lemma log2_up_half (a n : Z) :
  2 <= n -> 1 <= a -> a <= (n + 1) / 2 -> Z.log2_up a <= Z.log2_up n - 1.
Proof.
  intros Hn Ha Hhalf.
  pose proof (Z.log2_up_spec n ltac:(lia)) as [_ Hup].
  assert (Hk : 1 <= Z.log2_up n).
  { pose proof (Z.log2_up_pos n ltac:(lia)). lia. }
  apply Z.log2_up_le_pow2; [lia|].
  replace (Z.log2_up n) with (Z.succ (Z.log2_up n - 1)) in Hup by lia.
  rewrite Z.pow_succ_r in Hup by lia.
  set (p := 2 ^ (Z.log2_up n - 1)) in *.
  assert ((n + 1) / 2 < p + 1); [|lia].
  apply Z.div_lt_upper_bound; lia.
Qed.

Lemma mergeSort_steps_bound (depth : nat) : forall n : nat,
  (1 <= n)%nat ->
  Z.of_nat (mergeSort_steps depth n) <=
    2 * Z.of_nat n * Z.log2_up (Z.of_nat n) + 2 * Z.of_nat n - 1.
Proof.
  induction depth as [|depth IH]; intros n Hn.
  - simpl. pose proof (Z.log2_up_nonneg (Z.of_nat n)). nia.
  - cbn [mergeSort_steps]. destruct (Nat.leb_spec n 1) as [Hsmall|Hbig].
    + pose proof (Z.log2_up_nonneg (Z.of_nat n)). nia.
    + pose proof (left_size_bounds n ltac:(lia)) as Hh.
      assert (Hhalf : Z.of_nat (left_size n) <= (Z.of_nat n + 1) / 2).
      { unfold left_size. rewrite Nat2Z.inj_succ, Nat2Z.inj_div.
        replace (Z.of_nat (n - 1)) with (Z.of_nat n - 1) by lia. simpl Z.of_nat.
        apply Z.div_le_lower_bound; [lia|].
        pose proof (Z.mul_div_le (Z.of_nat n - 1) 2 ltac:(lia)). lia. }
      assert (Hother : Z.of_nat (n - left_size n) <= (Z.of_nat n + 1) / 2).
      { etrans; [|exact Hhalf]. unfold left_size in *.
        assert (n - 1 < 2 * S ((n - 1) / 2))%nat; [|lia].
        pose proof (Nat.div_mod_eq (n - 1) 2).
        pose proof (Nat.mod_upper_bound (n - 1) 2). lia. }
      pose proof (IH (left_size n) ltac:(lia)) as H1.
      pose proof (IH (n - left_size n)%nat ltac:(lia)) as H2.
      pose proof (log2_up_half (Z.of_nat (left_size n)) (Z.of_nat n)
                    ltac:(lia) ltac:(lia) Hhalf) as L1.
      pose proof (log2_up_half (Z.of_nat (n - left_size n)) (Z.of_nat n)
                    ltac:(lia) ltac:(lia) Hother) as L2.
      set (k := Z.log2_up (Z.of_nat n)) in *.
      set (h := left_size n) in *.
      pose proof (Z.log2_up_nonneg (Z.of_nat h)).
      pose proof (Z.log2_up_nonneg (Z.of_nat (n - h))).
      assert (Z.of_nat h * Z.log2_up (Z.of_nat h) <= Z.of_nat h * (k - 1)) by nia.
      assert (Z.of_nat (n - h) * Z.log2_up (Z.of_nat (n - h)) <=
              Z.of_nat (n - h) * (k - 1)) by nia.
      rewrite !Nat2Z.inj_add, Nat2Z.inj_mul.
      replace (Z.of_nat n) with (Z.of_nat h + Z.of_nat (n - h)) at 1 2 3 by lia.
      simpl Z.of_nat. nia.
Qed.

(** The run of [mergeSort(arr, i, j)] on a segment, with the number of
    its steps and the bars they colour. *)
Lemma mergeSort_from_trace (n : nat) : forall (pre seg post : list Z),
  (length seg <= n)%nat ->
  exists t seg',
    (forall fuel, (length seg < fuel)%nat ->
       runs (mergeSort_from fuel (Z.of_nat (length pre))
               (Z.of_nat (length pre) + Z.of_nat (length seg) - 1))
            (pre ++ seg ++ post) t
            (mkStepState (pre ++ seg' ++ post) None) (pre ++ seg' ++ post)) /\
    length seg' = length seg /\
    length t = mergeSort_steps n (length seg) /\
    (seg <> [] ->
     Forall (colours_cells (Z.of_nat (length pre))
               (Z.of_nat (length pre) + Z.of_nat (length seg))) t).
Proof.
  induction n as [|n IH]; intros pre seg post Hn.
  - destruct seg; [|simpl in Hn; lia].
    exists [split_step (pre ++ [] ++ post) (Z.of_nat (length pre))
              (Z.of_nat (length pre) + Z.of_nat (length (@nil Z)) - 1)], [].
    (split; [|split; [|split]]); [|done|done|done].
    intros [|fuel] Hf; [simpl in Hf; lia|]. apply mergeSort_from_leaf. simpl. lia.
  - destruct (decide (length seg <= 1)%nat) as [Hsmall|Hbig].
    + exists [split_step (pre ++ seg ++ post) (Z.of_nat (length pre))
                (Z.of_nat (length pre) + Z.of_nat (length seg) - 1)], seg.
      (split; [|split; [|split]]); [|done| |].
      * intros [|fuel] Hf; [lia|]. apply mergeSort_from_leaf. lia.
      * cbn [mergeSort_steps]. by rewrite (proj2 (Nat.leb_le _ _)).
      * intros Hne. assert (Hone : length seg = 1%nat) by (destruct seg; simpl in *; [done|lia]).
        constructor; [|done]. unfold split_step. rewrite Hone.
        replace (Z.of_nat (length pre) + Z.of_nat 1 - 1) with (Z.of_nat (length pre)) by lia.
        unfold middle_of. rewrite Z.sub_diag, Z.div_0_l by lia.
        apply colours_cells_literal. repeat constructor; simpl; done || lia.
    + pose proof (left_size_bounds (length seg) ltac:(lia)) as Hh.
      cbn [mergeSort_steps]. rewrite (proj2 (Nat.leb_gt _ _)) by lia.
      set (h := left_size (length seg)) in *.
      assert (Hseg : seg = take h seg ++ drop h seg) by (by rewrite take_drop).
      assert (HlenL : length (take h seg) = h) by (rewrite length_take; lia).
      assert (HlenR : length (drop h seg) = (length seg - h)%nat) by (by rewrite length_drop).
      destruct (IH pre (take h seg) (drop h seg ++ post)) as (tL & L' & HrL & HL' & HnL & HcL); [lia|].
      destruct (IH (pre ++ L') (drop h seg) post) as (tR & R' & HrR & HR' & HnR & HcR); [lia|].
      rewrite HlenL in HL', HnL, HcL. rewrite HlenR in HR', HnR, HcR.
      exists (split_step (pre ++ seg ++ post) (Z.of_nat (length pre))
                (Z.of_nat (length pre) + Z.of_nat (length seg) - 1) :: tL ++ tR ++
              picks_steps (pre ++ L' ++ R' ++ post)
                (Z.of_nat (length pre) + Z.of_nat h - 1) (merge_picks (length pre) L' R') ++
              write_steps pre [] (merge_picks (length pre) L' R').*2 (L' ++ R') post),
             (merge_picks (length pre) L' R').*2.
      assert (Hpicks : length (merge_picks (length pre) L' R') = length seg).
      { unfold merge_picks. rewrite picks_length by done. lia. }
      split; [|split; [|split]].
      * intros [|fuel] Hf; [lia|].
        pose proof (mergeSort_from_split pre (take h seg) (drop h seg) post fuel
                      tL (mkStepState (pre ++ L' ++ drop h seg ++ post) None) L'
                      tR (mkStepState (pre ++ L' ++ R' ++ post) None) R') as H.
        rewrite HlenL, HlenR in H.
        replace (h + (length seg - h))%nat with (length seg) in H by lia.
        assert (Harr : pre ++ seg ++ post = pre ++ take h seg ++ drop h seg ++ post)
          by (by rewrite (app_assoc (take h seg)), take_drop).
        rewrite Harr.
        apply H; try done; try lia.
        -- specialize (HrL fuel). rewrite HlenL in HrL.
           rewrite <- ?app_assoc in HrL. apply HrL. lia.
        -- specialize (HrR fuel). rewrite HlenR, length_app, HL' in HrR.
           rewrite <- ?app_assoc in HrR.
           replace (Z.of_nat (length pre) + Z.of_nat h - 1 + 1)
             with (Z.of_nat (length pre + h)) by lia.
           replace (Z.of_nat (length pre) + Z.of_nat (length seg) - 1)
             with (Z.of_nat (length pre + h) + Z.of_nat (length seg - h) - 1) by lia.
           apply HrR. lia.
      * by rewrite length_fmap.
      * cbn [length]. rewrite !length_app. unfold picks_steps. rewrite length_map.
        destruct (write_steps_spec (merge_picks (length pre) L' R').*2 pre [] (L' ++ R') post)
          as [Hw _]; [rewrite length_fmap, length_app; lia|].
        rewrite Hw, length_fmap, Hpicks, HnL, HnR. lia.
      * intros _. constructor.
        { unfold split_step.
          destruct (middle_of_segment (Z.of_nat (length pre)) (length seg)) as [->|H0]; [|lia].
          fold h. apply colours_cells_literal. repeat constructor; simpl; done || lia. }
        rewrite !Forall_app. split; [|split; [|split]].
        -- eapply Forall_impl; [apply HcL; intros E; rewrite E in HlenL; simpl in HlenL; lia|].
           intros s. apply colours_cells_mono; lia.
        -- eapply Forall_impl; [apply HcR; intros E; rewrite E in HlenR; simpl in HlenR; lia|].
           intros s. apply colours_cells_mono; rewrite length_app; lia.
        -- apply picks_steps_colours; [lia|].
           eapply Forall_impl; [apply picks_index|]. simpl. lia.
        -- pose proof (write_steps_colours (merge_picks (length pre) L' R').*2 pre (L' ++ R') post) as Hw.
           rewrite !length_fmap, Hpicks in Hw. apply Hw. rewrite length_app. lia.
Qed.

(** X11. The number of steps [mergeSort] yields depends on the length of
    the array only, not on its contents; on [n >= 1] cells it is at most
    [2 n ceil(log2 n) + 2 n - 1]. *)
Theorem mergeSort_step_count (arr arr' : list Z) (fuel : nat) :
  length arr = length arr' -> (length arr < fuel)%nat ->
  exists t v final t' v' final',
    runs (mergeSort fuel) arr t v final /\
    runs (mergeSort fuel) arr' t' v' final' /\
    length t = length t' /\
    (arr <> [] ->
     Z.of_nat (length t) <=
       2 * Z.of_nat (length arr) * Z.log2_up (Z.of_nat (length arr)) +
       2 * Z.of_nat (length arr) - 1).
Proof.
  intros Hlen Hfuel.
  destruct (mergeSort_from_trace (length arr) [] arr []) as (t & seg & Hr & _ & Hn & _);
    [done|].
  destruct (mergeSort_from_trace (length arr) [] arr' []) as (t' & seg' & Hr' & _ & Hn' & _);
    [lia|].
  specialize (Hr fuel Hfuel). specialize (Hr' fuel ltac:(lia)).
  simpl in Hr, Hr'. rewrite !app_nil_r in Hr, Hr'.
  exists t, (mkStepState seg None), seg, t', (mkStepState seg' None), seg'.
  split; [exact Hr|]. split; [exact Hr'|]. split; [by rewrite Hn, Hn', Hlen|].
  intros Hne. rewrite Hn. apply mergeSort_steps_bound.
  destruct arr; [done|simpl; lia].
Qed.

Lemma mergeSort_step_count_witness :
  length [3; 1; 2] = length [7; 7; 7] /\ (length [3; 1; 2] < 4)%nat /\
  exists t v final t' v' final',
    runs (mergeSort 4) [3; 1; 2] t v final /\
    runs (mergeSort 4) [7; 7; 7] t' v' final' /\
    length t = length t' /\
    ([3; 1; 2] <> [] ->
     Z.of_nat (length t) <=
       2 * Z.of_nat (length [3; 1; 2]) * Z.log2_up (Z.of_nat (length [3; 1; 2])) +
       2 * Z.of_nat (length [3; 1; 2]) - 1).
Proof.
  split; [reflexivity|]. split; [simpl; lia|].
  apply (mergeSort_step_count [3; 1; 2] [7; 7; 7] 4); [reflexivity|simpl; lia].
Defined.

(** X12. On an array that is not empty every step [mergeSort] yields
    colours bars that exist: each key of [colors] is an index of the
    array, and one bar at least is drawn in another colour than white. *)
Theorem mergeSort_colours_existing_bars (arr : list Z) (fuel : nat) :
  arr <> [] -> (length arr < fuel)%nat ->
  exists t v final,
    runs (mergeSort fuel) arr t v final /\
    Forall (fun s =>
              (exists index, (index < length arr)%nat /\ fill s index <> "white") /\
              forall c k colour,
                colors s = Some c -> c !! k = Some colour ->
                0 <= k < Z.of_nat (length arr)) t.
Proof.
  intros Hne Hfuel.
  destruct (mergeSort_from_trace (length arr) [] arr []) as (t & seg & Hr & _ & _ & Hc);
    [done|].
  specialize (Hr fuel Hfuel). simpl in Hr. rewrite !app_nil_r in Hr.
  exists t, (mkStepState seg None), seg. split; [exact Hr|].
  eapply Forall_impl; [exact (Hc Hne)|].
  intros s (c & Hcs & [k [colour Hk]] & Hall). simpl in Hall. split.
  - destruct (Hall k colour Hk) as [Hrange Hwhite].
    exists (Z.to_nat k). split; [lia|].
    unfold fill. rewrite Hcs. simpl. rewrite Z2Nat.id by lia. by rewrite Hk.
  - intros c' k' colour' Hc' Hk'. rewrite Hcs in Hc'. injection Hc' as <-.
    by destruct (Hall k' colour' Hk').
Qed.

Lemma mergeSort_colours_existing_bars_witness :
  [3; 1; 2] <> [] /\ (length [3; 1; 2] < 4)%nat /\
  exists t v final,
    runs (mergeSort 4) [3; 1; 2] t v final /\
    Forall (fun s =>
              (exists index, (index < length [3; 1; 2])%nat /\ fill s index <> "white") /\
              forall c k colour,
                colors s = Some c -> c !! k = Some colour ->
                0 <= k < Z.of_nat (length [3; 1; 2])) t.
Proof.
  split; [done|]. split; [simpl; lia|].
  apply (mergeSort_colours_existing_bars [3; 1; 2] 4); [done|simpl; lia].
Defined.

(** On the empty array the one step of [mergeSort] has the keys [0] and
    [-1]: there is no bar to colour. *)
Example mergeSort_empty_array_colours :
  exists c, (drain (mergeSort 1 [])).1 = [mkStepState [] (Some c)] /\
            is_Some (c !! 0) /\ is_Some (c !! (-1)).
Proof. eexists. split; [reflexivity|]. split; by eexists. Qed.

(** ** The generators and the functions they were made from *)

Lemma completion_bindS {A B} (r : Susp A) (f : A -> Gen B) :
  completion (bindS r f) =
    match completion r with
    | inr (a, arr) => completion (f a arr)
    | inl e => inl e
    end.
Proof.
  unfold completion. rewrite drain_bindS.
  destruct (drain r) as [t [e|[a arr]]]; [done|]. simpl.
  by destruct (drain (f a arr)).
Qed.

Lemma completion_delegate {A} (r : Susp A) : completion (delegate r) = completion r.
Proof. unfold completion. by rewrite drain_delegate. Qed.

Lemma completion_while {L} (cond cond' : L -> Gen bool) (body body' : L -> Gen L) :
  (forall l arr, completion (cond l arr) = completion (cond' l arr)) ->
  (forall l arr, completion (body l arr) = completion (body' l arr)) ->
  forall fuel l arr,
    completion (while_ fuel cond body l arr) = completion (while_ fuel cond' body' l arr).
Proof.
  intros Hc Hb. induction fuel as [|fuel IH]; intros l arr; [done|].
  simpl. unfold bind. rewrite !completion_bindS, Hc.
  destruct (completion (cond' l arr)) as [e|[[|] arr1]]; [done| |done].
  rewrite !completion_bindS, Hb.
  destruct (completion (body' l arr1)) as [e|[l' arr2]]; [done|]. apply IH.
Qed.

Lemma final_store_bindS {A B C D} (r : Susp A) (p : Susp B)
    (f : A -> Gen C) (g : B -> Gen D) :
  final_store r = final_store p ->
  (forall a b arr, final_store (f a arr) = final_store (g b arr)) ->
  final_store (bindS r f) = final_store (bindS p g).
Proof.
  unfold final_store. rewrite !completion_bindS. intros Hrp Hfg.
  destruct (completion r) as [e|[a arr]], (completion p) as [e'|[b arr']];
    try done; injection Hrp as ->; done.
Qed.

Lemma final_store_completion {A} (r p : Susp A) :
  completion r = completion p -> final_store r = final_store p.
Proof. unfold final_store. by intros ->. Qed.

Lemma completion_yield c arr : completion (yield_ c arr) = inr (tt, arr).
Proof. done. Qed.

Ltac completion_step :=
  repeat (rewrite completion_bindS || rewrite completion_delegate ||
          rewrite completion_yield);
  repeat match goal with
         | H : completion ?r = _ |- context [completion ?r] => rewrite H
         | u : unit |- _ => destruct u
         end;
  try match goal with
      | |- context [match completion ?r with _ => _ end] =>
          destruct (completion r) as [?|[? ?]] eqn:?
      | |- context [if ?b then _ else _] => destruct b
      end.

Lemma compare_completion j arr :
  completion (bubbleSort_compare j arr) = completion (Plain.bubbleSort_compare j arr).
Proof.
  unfold bubbleSort_compare, Plain.bubbleSort_compare, bind.
  repeat (progress completion_step; try done).
Qed.

Lemma bubbleSort_inner_completion fuel i arr :
  completion (bubbleSort_inner fuel i arr) = completion (Plain.bubbleSort_inner fuel i arr).
Proof.
  apply completion_while; [done|]. intros j arr'. unfold bind.
  rewrite !completion_bindS, compare_completion. done.
Qed.

Lemma bubbleSort_outer_completion fuel arr :
  completion (bubbleSort_outer fuel arr) = completion (Plain.bubbleSort_outer fuel arr).
Proof.
  apply completion_while; [done|]. intros i arr'. unfold bind.
  rewrite !completion_bindS, bubbleSort_inner_completion. done.
Qed.

Lemma merge_both_completion fuel middle j ls arr :
  completion (merge_both fuel middle j ls arr) =
  completion (Plain.merge_both fuel middle j ls arr).
Proof.
  apply completion_while; [done|]. intros [[left_ right_] sorted] arr'.
  unfold bind, yield_star, push, bind.
  repeat (progress completion_step; try done).
Qed.

Lemma merge_left_completion fuel middle ls arr :
  completion (merge_left fuel middle ls arr) =
  completion (Plain.merge_left fuel middle ls arr).
Proof.
  apply completion_while; [done|]. intros [[left_ right_] sorted] arr'.
  unfold bind, yield_star, push, bind.
  repeat (progress completion_step; try done).
Qed.

Lemma merge_right_completion fuel middle j ls arr :
  completion (merge_right fuel middle j ls arr) =
  completion (Plain.merge_right fuel middle j ls arr).
Proof.
  apply completion_while; [done|]. intros [[left_ right_] sorted] arr'.
  unfold bind, yield_star, push, bind.
  repeat (progress completion_step; try done).
Qed.

Lemma merge_write_back_completion fuel i sorted arr :
  completion (merge_write_back fuel i sorted arr) =
  completion (Plain.merge_write_back fuel i sorted arr).
Proof.
  apply completion_while; [done|]. intros k arr'. unfold bind.
  rewrite !completion_bindS, completion_yield, !completion_bindS. done.
Qed.

Lemma merge_final_store fuel i middle j arr :
  final_store (merge fuel i middle j arr) = final_store (Plain.merge fuel i middle j arr).
Proof.
  unfold merge, Plain.merge, bind, final_store.
  rewrite !completion_bindS, merge_both_completion.
  destruct (completion (Plain.merge_both _ _ _ _ _)) as [e|[ls1 arr1]]; [done|].
  rewrite !completion_bindS, merge_left_completion.
  destruct (completion (Plain.merge_left _ _ _ _)) as [e|[ls2 arr2]]; [done|].
  rewrite !completion_bindS, merge_right_completion.
  destruct (completion (Plain.merge_right _ _ _ _ _)) as [e|[ls3 arr3]]; [done|].
  rewrite !completion_bindS, merge_write_back_completion.
  by destruct (completion (Plain.merge_write_back _ _ _ _)) as [e|[k arr4]].
Qed.

Lemma mergeSort_from_final_store fuel : forall i j arr,
  final_store (mergeSort_from fuel i j arr) =
  final_store (Plain.mergeSort_from fuel i j arr).
Proof.
  induction fuel as [|fuel IH]; intros i j arr; [done|].
  cbn [mergeSort_from Plain.mergeSort_from]. unfold bind at 1.
  unfold final_store at 1. rewrite completion_bindS, completion_yield.
  fold (final_store ((if j <=? i then return_result
     else yield_star (mergeSort_from fuel i (middle_of i j)) ;;;
          yield_star (mergeSort_from fuel (middle_of i j + 1) j) ;;;
          yield_star (merge (S fuel) i (middle_of i j) j) ;;; return_result) arr)).
  destruct (j <=? i); [done|]. unfold bind, yield_star.
  apply final_store_bindS.
  { unfold final_store. rewrite completion_delegate. apply IH. }
  intros _ _ arr1. apply final_store_bindS.
  { unfold final_store. rewrite completion_delegate. apply IH. }
  intros _ _ arr2.
  rewrite <- merge_final_store. unfold final_store.
  rewrite completion_bindS, completion_delegate.
  by destruct (completion (merge _ _ _ _ _)) as [e|[v arr3]].
Qed.

(** X13. The generator [bubbleSort] does to the array what the function
    it was made from does: for every array and every fuel both leave the
    same array, or stop on the same fault. The [yield]s change nothing. *)
Theorem bubbleSort_as_the_plain_function (fuel : nat) (arr : list Z) :
  final_store (bubbleSort fuel arr) = final_store (Plain.bubbleSort fuel arr).
Proof.
  unfold bubbleSort, Plain.bubbleSort, bind. apply final_store_bindS; [|done].
  apply final_store_completion, bubbleSort_outer_completion.
Qed.

(** X14. The generators [mergeSort] and [merge] do to the array what the
    functions they were made from do, on every segment [i..j] and for
    every fuel: the same array is left, or the same fault stops them. *)
Theorem mergeSort_as_the_plain_function (fuel : nat) (i middle j : Z) (arr : list Z) :
  final_store (mergeSort_from fuel i j arr) =
    final_store (Plain.mergeSort_from fuel i j arr) /\
  final_store (mergeSort fuel arr) = final_store (Plain.mergeSort fuel arr) /\
  final_store (merge fuel i middle j arr) = final_store (Plain.merge fuel i middle j arr).
Proof.
  split; [apply mergeSort_from_final_store|].
  split; [apply mergeSort_from_final_store|apply merge_final_store].
Qed.

Lemma runs_final_store {A} (m : Gen A) arr t a arr' :
  runs m arr t a arr' -> final_store (m arr) = inr arr'.
Proof. unfold runs, final_store, completion. by intros ->. Qed.

(** X15. With enough fuel the four sorting functions of the article, the
    two plain ones and the two generators, leave one and the same array:
    the sorted arrangement of the input. *)
Theorem sorting_functions_agree (arr : list Z) (fuel : nat) :
  (length arr < fuel)%nat ->
  exists final,
    Sorted Z.le final /\ final ≡ₚ arr /\
    final_store (Plain.bubbleSort fuel arr) = inr final /\
    final_store (Plain.mergeSort fuel arr) = inr final /\
    final_store (bubbleSort fuel arr) = inr final /\
    final_store (mergeSort fuel arr) = inr final.
Proof.
  intros Hfuel.
  pose proof (runs_final_store _ _ _ _ _ (bubbleSort_runs arr fuel Hfuel)) as Hb.
  destruct (mergeSort_runs arr) as (t & final & Hr & Hp & Hs & _).
  pose proof (runs_final_store _ _ _ _ _ (Hr fuel Hfuel)) as Hm.
  assert (Heq : sweeps (length arr) arr = final).
  { apply (Sorted_unique Z.le).
    - apply bubbleSort_sorted.
    - by apply StronglySorted_Sorted.
    - rewrite Hp. by apply sweeps_perm. }
  rewrite Heq in Hb. exists final.
  split; [by apply StronglySorted_Sorted|]. split; [done|].
  split; [|split; [|done]].
  - unfold Plain.bubbleSort, bind. rewrite <- Hb. symmetry.
    unfold bubbleSort, bind. apply final_store_bindS; [|done].
    apply final_store_completion, bubbleSort_outer_completion.
  - rewrite <- Hm. symmetry. apply mergeSort_from_final_store.
Qed.

Lemma sorting_functions_agree_witness :
  (length [3; 1; 2] < 4)%nat /\
  exists final,
    Sorted Z.le final /\ final ≡ₚ [3; 1; 2] /\
    final_store (Plain.bubbleSort 4 [3; 1; 2]) = inr final /\
    final_store (Plain.mergeSort 4 [3; 1; 2]) = inr final /\
    final_store (bubbleSort 4 [3; 1; 2]) = inr final /\
    final_store (mergeSort 4 [3; 1; 2]) = inr final.
Proof.
  split; [simpl; lia|]. apply (sorting_functions_agree [3; 1; 2] 4). simpl. lia.
Defined.

(** ** When [part1] throws *)

Lemma split_from_not_nil separator (s : string) : forall skip current,
  split_from separator skip current s <> [].
Proof.
  induction s as [|c s IH]; intros skip current; cbn [split_from]; [done|].
  destruct skip; [|apply IH].
  destruct (String.prefix separator (String c s)); [done|apply IH].
Qed.

Lemma split_from_contains separator (s : string) : forall current,
  String.prefix separator "" = false ->
  (2 <= length (split_from separator 0 current s))%nat <-> contains separator s = true.
Proof.
  intros current Hsep. revert current.
  induction s as [|c s IH]; intros current.
  - cbn [split_from contains]. rewrite Hsep. simpl. split; [lia|done].
  - cbn [split_from contains]. destruct (String.prefix separator (String c s)) eqn:Hp.
    + simpl. split; [done|]. intros _.
      pose proof (split_from_not_nil separator s (String.length separator - 1) "") as Hne.
      destruct (split_from _ _ _ s); [done|simpl; lia].
    + simpl. apply IH.
Qed.

(** A line is destructured into [gameText] and [infoText] exactly when it
    contains [": "]. *)
Lemma split_line_parts game :
  contains ": " game = true <->
  exists gameText infoText,
    split ": " game !! 0%nat = Some gameText /\ split ": " game !! 1%nat = Some infoText.
Proof.
  rewrite <- (split_from_contains ": " game "") by done. unfold split.
  destruct (split_from ": " 0 "" game) as [|gameText [|infoText parts]]; simpl.
  - split; [lia|]. by intros (? & ? & ? & ?).
  - split; [lia|]. by intros (? & ? & ? & ?).
  - split; [by eexists _, _|lia].
Qed.

Lemma split_line_throws game :
  contains ": " game = false <->
  split ": " game !! 0%nat = None \/ split ": " game !! 1%nat = None.
Proof.
  pose proof (split_line_parts game) as H.
  destruct (contains ": " game).
  - destruct (proj1 H eq_refl) as (g & i & -> & ->). split; [done|]. by intros [|].
  - split; [|done]. intros _.
    destruct (split ": " game !! 0%nat) as [g|] eqn:H0; [|by left].
    destruct (split ": " game !! 1%nat) as [i|] eqn:H1; [|by right].
    assert (false = true); [|done]. apply H. by eexists _, _.
Qed.

Lemma FirstWay_part1_lines_throws lines : forall sum,
  FirstWay.part1_lines lines sum = Throws <->
  Exists (fun game => contains ": " game = false) lines.
Proof.
  induction lines as [|game lines IH]; intros sum; simpl.
  - split; [done|]. by intros H%Exists_nil.
  - rewrite Exists_cons, split_line_throws.
    destruct (split ": " game !! 0%nat) as [g|]; [|by split; [left; left|]].
    destruct (split ": " game !! 1%nat) as [i|]; [|by split; [left; right|]].
    rewrite IH. split; [by right|]. by intros [[|]|].
Qed.

Lemma SecondWay_part1_lines_throws lines : forall sum,
  SecondWay.part1_lines lines sum = Throws <->
  Exists (fun game => contains ": " game = false) lines.
Proof.
  induction lines as [|game lines IH]; intros sum; simpl.
  - split; [done|]. by intros H%Exists_nil.
  - rewrite Exists_cons, split_line_throws.
    destruct (split ": " game !! 0%nat) as [g|]; [|by split; [left; left|]].
    destruct (split ": " game !! 1%nat) as [i|]; [|by split; [left; right|]].
    rewrite IH. split; [by right|]. by intros [[|]|].
Qed.

Lemma PartTwo_part1_lines_throws lines : forall sum,
  PartTwo.part1_lines lines sum = Throws <->
  Exists (fun game => contains ": " game = false) lines.
Proof.
  induction lines as [|game lines IH]; intros sum; simpl.
  - split; [done|]. by intros H%Exists_nil.
  - rewrite Exists_cons, split_line_throws.
    destruct (split ": " game !! 0%nat) as [g|]; [|by split; [left; left|]].
    destruct (split ": " game !! 1%nat) as [i|]; [|by split; [left; right|]].
    rewrite IH. split; [by right|]. by intros [[|]|].
Qed.

(** X16. Each of the three versions of [part1] throws exactly when some
    line of the input does not contain [": "]; otherwise it returns. What
    the rest of a line holds never makes it throw. *)
Theorem part1_throws_iff (input : string) :
  let bad := exists game,
               game ∈ split (String "010" "") input /\ contains ": " game = false in
  (FirstWay.part1 input = Throws <-> bad) /\
  (SecondWay.part1 input = Throws <-> bad) /\
  (PartTwo.part1 input = Throws <-> bad).
Proof.
  intros bad. unfold bad, FirstWay.part1, SecondWay.part1, PartTwo.part1.
  rewrite FirstWay_part1_lines_throws, SecondWay_part1_lines_throws,
    PartTwo_part1_lines_throws, Exists_exists. done.
Qed.

Lemma split_newline_at_end (s : string) : forall current,
  "" ∈ split_from (String "010" "") 0 current (s +:+ String "010" "").
Proof.
  induction s as [|c s IH]; intros current.
  - simpl. apply elem_of_cons. right. apply elem_of_cons. by left.
  - simpl. match goal with |- _ ∈ (if ?b then _ else _) => destruct b end; [|apply IH].
    apply elem_of_cons. right. apply IH.
Qed.

(** X17. An input that ends with a line feed, as the puzzle's input file
    does, makes each of the three versions of [part1] throw: the text
    after the last line feed is an empty line. *)
Theorem part1_throws_on_final_newline (input : string) :
  FirstWay.part1 (input +:+ String "010" "") = Throws /\
  SecondWay.part1 (input +:+ String "010" "") = Throws /\
  PartTwo.part1 (input +:+ String "010" "") = Throws.
Proof.
  assert (H : Exists (fun game => contains ": " game = false)
                (split (String "010" "") (input +:+ String "010" ""))).
  { apply Exists_exists. exists "". split; [apply split_newline_at_end|done]. }
  unfold FirstWay.part1, SecondWay.part1, PartTwo.part1.
  by rewrite FirstWay_part1_lines_throws, SecondWay_part1_lines_throws,
    PartTwo_part1_lines_throws.
Qed.

(** ** The bag of the second way *)

Lemma record_infos_app infos1 : forall infos2 m,
  SecondWay.record_infos (infos1 ++ infos2) m =
  SecondWay.record_infos infos2 (SecondWay.record_infos infos1 m).
Proof. induction infos1 as [|parts infos1 IH]; intros infos2 m; [done|]. simpl. apply IH. Qed.

Lemma record_reveals_balls reveals : forall m,
  SecondWay.record_reveals reveals m = SecondWay.record_infos (balls_of reveals) m.
Proof.
  induction reveals as [|reveal reveals IH]; intros m; [done|].
  simpl. unfold balls_of. cbn [mbind list_bind]. rewrite record_infos_app. apply IH.
Qed.

(** What is filed under [key] after the loop: nothing new when no ball has
    the key, otherwise the [Math.max] of what was there and the counts. *)
Lemma record_infos_lookup key infos : forall m,
  SecondWay.record_infos infos m !! key =
    match counts_of key infos with
    | [] => m !! key
    | ns => Some (foldl Math_max (SecondWay.read m key) ns)
    end.
Proof.
  induction infos as [|parts infos IH]; intros m; [done|].
  simpl. rewrite IH. unfold counts_of. rewrite filter_cons.
  destruct (decide (SecondWay.key_of (parts !! 1%nat) = key)) as [<-|Hne].
  - rewrite fmap_cons. cbn [foldl]. unfold SecondWay.read.
    rewrite !lookup_insert_eq. simpl.
    by destruct (_ <$> filter _ infos).
  - unfold SecondWay.read. rewrite !lookup_insert_ne by done.
    by destruct (_ <$> filter _ infos).
Qed.

Lemma record_infos_read key infos m :
  SecondWay.read (SecondWay.record_infos infos m) key =
    foldl Math_max (SecondWay.read m key) (counts_of key infos).
Proof.
  unfold SecondWay.read at 1. rewrite record_infos_lookup.
  by destruct (counts_of key infos).
Qed.

Lemma Math_max_swap a x y :
  Math_max (Math_max a x) y = Math_max (Math_max a y) x.
Proof. destruct a, x, y; simpl; try done. f_equal. lia. Qed.

Lemma foldl_Math_max_perm ns ns' : ns ≡ₚ ns' ->
  forall a, foldl Math_max a ns = foldl Math_max a ns'.
Proof.
  induction 1 as [|n ns ns' _ IH|n n' ns|ns ns' ns'' _ IH1 _ IH2]; intros a; simpl.
  - done.
  - apply IH.
  - by rewrite Math_max_swap.
  - by rewrite IH1.
Qed.

Lemma counts_of_perm key infos infos' :
  infos ≡ₚ infos' -> counts_of key infos ≡ₚ counts_of key infos'.
Proof. intros H. unfold counts_of. by rewrite H. Qed.

(** X18. The bag [leastNumOfBalls] of the second way does not depend on
    the order in which the reveals of a game are given: reveals in another
    order leave the same object. *)
Theorem leastNumOfBalls_order_independent (reveals reveals' : list string)
    (leastNumOfBalls : gmap string number) :
  reveals ≡ₚ reveals' ->
  SecondWay.record_reveals reveals leastNumOfBalls =
  SecondWay.record_reveals reveals' leastNumOfBalls.
Proof.
  intros Hp. rewrite !record_reveals_balls. apply map_eq. intros key.
  rewrite !record_infos_lookup.
  assert (Hc : counts_of key (balls_of reveals) ≡ₚ counts_of key (balls_of reveals')).
  { apply counts_of_perm. unfold balls_of. by rewrite Hp. }
  destruct (counts_of key (balls_of reveals)) as [|n ns] eqn:E1.
  - apply Permutation_nil_l in Hc. by rewrite <- Hc.
  - destruct (counts_of key (balls_of reveals')) as [|n' ns'] eqn:E2.
    + by apply Permutation_nil_r in Hc.
    + f_equal. by apply foldl_Math_max_perm.
Qed.

Lemma leastNumOfBalls_order_independent_witness :
  ["3 blue, 4 red"; "1 red, 2 green, 6 blue"; "2 green"] ≡ₚ
  ["2 green"; "3 blue, 4 red"; "1 red, 2 green, 6 blue"] /\
  SecondWay.record_reveals ["3 blue, 4 red"; "1 red, 2 green, 6 blue"; "2 green"] empty_bag =
  SecondWay.record_reveals ["2 green"; "3 blue, 4 red"; "1 red, 2 green, 6 blue"] empty_bag.
Proof.
  assert (H : ["3 blue, 4 red"; "1 red, 2 green, 6 blue"; "2 green"] ≡ₚ
              ["2 green"; "3 blue, 4 red"; "1 red, 2 green, 6 blue"]).
  { apply (Permutation_app_comm ["3 blue, 4 red"; "1 red, 2 green, 6 blue"] ["2 green"]). }
  split; [exact H|].
  apply (leastNumOfBalls_order_independent _ _ empty_bag H).
Defined.

Lemma foldl_Math_max_None ns : foldl Math_max None ns = None.
Proof. induction ns as [|n ns IH]; [done|]. simpl. apply IH. Qed.

Lemma foldl_Math_max_NaN ns : forall a, None ∈ ns -> foldl Math_max a ns = None.
Proof.
  induction ns as [|n ns IH]; intros a Hin; [by apply elem_of_nil in Hin|].
  apply elem_of_cons in Hin as [<-|Hin]; simpl; [|by apply IH].
  destruct a; apply foldl_Math_max_None.
Qed.

Lemma foldl_Math_max_least ns : forall a,
  None ∉ ns ->
  exists v, foldl Math_max (Some a) ns = Some v /\ a <= v /\
            (forall x, Some x ∈ ns -> x <= v) /\
            forall w, a <= w -> (forall x, Some x ∈ ns -> x <= w) -> v <= w.
Proof.
  induction ns as [|n ns IH]; intros a Hns.
  - exists a. split; [done|]. split; [lia|]. split; [|by intros].
    intros x Hx. by apply elem_of_nil in Hx.
  - destruct n as [x|]; [|exfalso; apply Hns, elem_of_cons; by left].
    destruct (IH (Z.max a x)) as (v & Hv & Hle & Hub & Hleast).
    { intros Hin. apply Hns, elem_of_cons. by right. }
    exists v. split; [done|]. split; [lia|]. split.
    + intros y [[= ->]|Hy]%elem_of_cons; [lia|by apply Hub].
    + intros w Hw Hall. apply Hleast.
      * assert (x <= w) by (apply Hall, elem_of_cons; by left). lia.
      * intros y Hy. apply Hall, elem_of_cons. by right.
Qed.

Lemma counts_of_shown color infos n :
  color <> "undefined" ->
  n ∈ counts_of color infos <->
  exists parts, parts ∈ infos /\ parts !! 1%nat = Some color /\
                parseInt_of (parts !! 0%nat) = n.
Proof.
  intros Hc. unfold counts_of. rewrite list_elem_of_fmap. split.
  - intros (parts & -> & [Hk Hin]%list_elem_of_filter).
    exists parts. split; [done|]. split; [|done].
    destruct (parts !! 1%nat) as [c|]; simpl in Hk; congruence.
  - intros (parts & Hin & Hk & <-). exists parts. split; [done|].
    apply list_elem_of_filter. split; [by rewrite Hk|done].
Qed.

(** X19. For each of the colours red, green and blue the number the
    second way files in [leastNumOfBalls] is the least number of balls
    that makes every reveal of the game possible: it is at least every
    count shown for the colour, and no smaller number, zero or more, is.
    When one count of the colour is not a number, the entry is [NaN]. *)
Theorem leastNumOfBalls_is_least (reveals : list string) (color : string) :
  color ∈ ["red"; "green"; "blue"] ->
  let bag := SecondWay.record_reveals reveals empty_bag in
  let shown (n : number) :=
    exists parts, parts ∈ balls_of reveals /\ parts !! 1%nat = Some color /\
                  parseInt_of (parts !! 0%nat) = n in
  (shown None -> SecondWay.read bag color = None) /\
  (~ shown None ->
   exists v, SecondWay.read bag color = Some v /\ 0 <= v /\
             (forall x, shown (Some x) -> x <= v) /\
             forall w, 0 <= w -> (forall x, shown (Some x) -> x <= w) -> v <= w).
Proof.
  intros Hcolor bag shown.
  assert (Hne : color <> "undefined").
  { intros ->. repeat (apply elem_of_cons in Hcolor as [Hcolor|Hcolor]; [done|]).
    by apply elem_of_nil in Hcolor. }
  assert (Hzero : SecondWay.read empty_bag color = Some 0).
  { repeat (apply elem_of_cons in Hcolor as [->|Hcolor]; [done|]).
    by apply elem_of_nil in Hcolor. }
  assert (Hread : SecondWay.read bag color =
                  foldl Math_max (Some 0) (counts_of color (balls_of reveals))).
  { unfold bag. by rewrite record_reveals_balls, record_infos_read, Hzero. }
  assert (Hshown : forall n, n ∈ counts_of color (balls_of reveals) <-> shown n).
  { intros n. by apply counts_of_shown. }
  rewrite Hread. split.
  - intros Hnan. apply foldl_Math_max_NaN. by apply Hshown.
  - intros Hnum.
    destruct (foldl_Math_max_least (counts_of color (balls_of reveals)) 0)
      as (v & Hv & Hle & Hub & Hleast).
    { intros Hin. by apply Hnum, Hshown. }
    exists v. split; [done|]. split; [done|]. split.
    + intros x Hx. by apply Hub, Hshown.
    + intros w Hw Hall. apply Hleast; [done|]. intros x Hx. by apply Hall, Hshown.
Qed.

Lemma leastNumOfBalls_is_least_witness :
  let reveals := ["3 blue, 4 red"; "1 red, 2 green, 6 blue"; "2 green"] in
  let color := "red" in
  color ∈ ["red"; "green"; "blue"] /\
  let bag := SecondWay.record_reveals reveals empty_bag in
  let shown (n : number) :=
    exists parts, parts ∈ balls_of reveals /\ parts !! 1%nat = Some color /\
                  parseInt_of (parts !! 0%nat) = n in
  (shown None -> SecondWay.read bag color = None) /\
  (~ shown None ->
   exists v, SecondWay.read bag color = Some v /\ 0 <= v /\
             (forall x, shown (Some x) -> x <= v) /\
             forall w, 0 <= w -> (forall x, shown (Some x) -> x <= w) -> v <= w).
Proof.
  assert (H : "red" ∈ ["red"; "green"; "blue"]) by (apply elem_of_cons; by left).
  split; [exact H|].
  exact (leastNumOfBalls_is_least ["3 blue, 4 red"; "1 red, 2 green, 6 blue"; "2 green"]
           "red" H).
Defined.

(** ** Well-formed inputs *)

Lemma append_empty_r (s : string) : s +:+ "" = s.
Proof.
  induction s as [|c s IH]; [done|].
  change (String c s +:+ "") with (String c (s +:+ "")). by rewrite IH.
Qed.

Lemma rev_app_rev_app (s : string) : forall a b,
  String.rev_app (String.rev_app s a) b = String.rev_app a (s +:+ b).
Proof. induction s as [|c s IH]; intros a b; [done|]. simpl. by rewrite IH. Qed.

Lemma rev_rev (s : string) : String.rev (String.rev s) = s.
Proof. unfold String.rev. rewrite rev_app_rev_app. exact (append_empty_r s). Qed.

Lemma only_digits_rev_app (s : string) : forall a,
  only_digits (String.rev_app s a) = only_digits s && only_digits a.
Proof.
  induction s as [|c s IH]; intros a; [done|]. simpl. rewrite IH. simpl.
  destruct (bool_decide _), (only_digits s), (only_digits a); done.
Qed.

Lemma skip_whitespace_digits (s : string) : only_digits s = true -> skip_whitespace s = s.
Proof.
  destruct s as [|c s]; [done|]. simpl.
  intros [Hc%bool_decide_eq_true _]%andb_true_iff.
  by rewrite (digit_not_whitespace c Hc).
Qed.

(** [trim] leaves a string of digits as it is. *)
Lemma trim_digits (s : string) : only_digits s = true -> trim s = s.
Proof.
  intros Hs. unfold trim. rewrite (skip_whitespace_digits s Hs).
  rewrite skip_whitespace_digits; [apply rev_rev|].
  unfold String.rev. rewrite only_digits_rev_app, Hs. done.
Qed.

Lemma replace_prefix (pattern s : string) :
  String.prefix pattern s = true ->
  replace_with_empty pattern s = drop_string (String.length pattern) s.
Proof. intros H. destruct s; cbn [replace_with_empty]; by rewrite H. Qed.

Lemma parse_digits_nonneg (s : string) : forall acc v,
  (forall a, acc = Some a -> 0 <= a) ->
  parse_digits digit_value 10 acc s = Some v -> 0 <= v.
Proof.
  induction s as [|c s IH]; intros acc v Hacc; simpl; [apply Hacc|].
  destruct (digit_value c) as [d|] eqn:Hd; [|apply Hacc].
  apply IH. intros a [= <-].
  assert (0 <= d).
  { unfold digit_value in Hd.
    destruct ((48 <=? _) && (_ <=? 57)) eqn:E; [|done].
    apply andb_true_iff in E as [E1%Z.leb_le _]. injection Hd as <-. lia. }
  destruct acc as [a|]; simpl; [|lia]. specialize (Hacc a eq_refl). lia.
Qed.

Lemma parse_digits_bound (s : string) : forall acc v,
  (forall a, acc = Some a -> 0 <= a) ->
  parse_digits digit_value 10 acc s = Some v ->
  v < (default 0 acc + 1) * 10 ^ Z.of_nat (String.length s).
Proof.
  induction s as [|c s IH]; intros acc v Hacc; cbn [parse_digits String.length].
  - intros ->. simpl. lia.
  - rewrite Nat2Z.inj_succ, Z.pow_succ_r by lia.
    assert (Hpow : 0 < 10 ^ Z.of_nat (String.length s)) by (apply Z.pow_pos_nonneg; lia).
    destruct (digit_value c) as [d|] eqn:Hd.
    + assert (0 <= d <= 9).
      { unfold digit_value in Hd.
        destruct ((48 <=? _) && (_ <=? 57)) eqn:E; [|done].
        apply andb_true_iff in E as [E1%Z.leb_le E2%Z.leb_le]. injection Hd as <-. lia. }
      assert (Ha0 : 0 <= default 0 acc).
      { destruct acc as [a|]; simpl; [by apply Hacc|lia]. }
      intros Hv. apply IH in Hv; [|intros a [= <-]; lia].
      simpl in Hv. nia.
    + intros ->. simpl. specialize (Hacc v eq_refl). nia.
Qed.

(** [parseInt] of a non-empty string of digits is a number that is not
    negative and is below the power of ten of its length. *)
Lemma parseInt_all_digits_bound s :
  all_digits s = true ->
  exists n, parseInt s = Some n /\ 0 <= n < 10 ^ Z.of_nat (String.length s).
Proof.
  intros Hs. destruct (parseInt_all_digits s Hs) as [n Hn].
  exists n. split; [done|]. revert Hn.
  destruct s as [|c s]; [done|]. simpl in Hs.
  apply andb_true_iff in Hs as [Hc%bool_decide_eq_true Hs].
  unfold parseInt. cbn [skip_whitespace]. rewrite (digit_not_whitespace c Hc).
  rewrite !(digit_not_char c) by done. cbv iota beta.
  assert (Hdec : forall v, parse_digits digit_value 10 None (String c s) = Some v ->
                           0 <= v < 10 ^ Z.of_nat (String.length (String c s))).
  { intros v Hv. split; [eapply parse_digits_nonneg; [|exact Hv]; done|].
    apply parse_digits_bound in Hv; [|done]. simpl default in Hv. lia. }
  destruct s as [|c2 s].
  - destruct (parse_digits _ _ _ _) as [v|]; [|done]. intros [= <-].
    specialize (Hdec v eq_refl). lia.
  - simpl in Hs. apply andb_true_iff in Hs as [Hc2%bool_decide_eq_true _].
    rewrite !(digit_not_char c2) by done. rewrite andb_false_r.
    destruct (parse_digits _ _ _ _) as [v|]; [|done]. intros [= <-].
    specialize (Hdec v eq_refl). lia.
Qed.

Lemma parseInt_short s (digits : nat) :
  all_digits s = true -> (String.length s <= digits)%nat ->
  exists n, parseInt s = Some n /\ 0 <= n < 10 ^ Z.of_nat digits.
Proof.
  intros Hs Hlen. destruct (parseInt_all_digits_bound s Hs) as (n & Hn & Hle).
  exists n. split; [done|].
  assert (10 ^ Z.of_nat (String.length s) <= 10 ^ Z.of_nat digits)
    by (apply Z.pow_le_mono_r; lia).
  lia.
Qed.

(** The id of a well-formed line, as [part1] computes it. *)
Lemma well_formed_id gameText (id_digits : nat) :
  String.prefix "Game " gameText = true ->
  all_digits (drop_string 5 gameText) = true ->
  (String.length (drop_string 5 gameText) <= id_digits)%nat ->
  exists n, parseInt (trim (replace_with_empty "Game " gameText)) = Some n /\
            0 <= n < 10 ^ Z.of_nat id_digits.
Proof.
  intros Hp Hd Hlen. rewrite replace_prefix by done. simpl String.length.
  rewrite trim_digits; [by apply parseInt_short|].
  by destruct (drop_string 5 gameText).
Qed.

Lemma well_formed_bag_read reveals color (count_digits : nat) :
  color ∈ ["red"; "green"; "blue"] ->
  forallb (fun reveal => forallb well_formed_ball (split ", " reveal)) reveals = true ->
  forallb (fun reveal => forallb (short_ball count_digits) (split ", " reveal)) reveals = true ->
  exists v, SecondWay.read (SecondWay.record_reveals reveals empty_bag) color = Some v /\
            0 <= v < 10 ^ Z.of_nat count_digits.
Proof.
  intros Hcolor Hwf Hshort.
  assert (Hne : color <> "undefined").
  { intros ->. repeat (apply elem_of_cons in Hcolor as [Hcolor|Hcolor]; [done|]).
    by apply elem_of_nil in Hcolor. }
  assert (Hzero : SecondWay.read empty_bag color = Some 0).
  { repeat (apply elem_of_cons in Hcolor as [->|Hcolor]; [done|]).
    by apply elem_of_nil in Hcolor. }
  assert (Hcount : forall n, n ∈ counts_of color (balls_of reveals) ->
                     exists x, n = Some x /\ 0 <= x < 10 ^ Z.of_nat count_digits).
  { intros n (parts & Hin & Hk & Hn)%counts_of_shown; [|done].
    unfold balls_of in Hin. apply list_elem_of_bind in Hin as (reveal & Hparts & Hreveal).
    apply list_elem_of_fmap in Hparts as (ball & -> & Hball).
    rewrite forallb_forall in Hwf, Hshort.
    specialize (Hwf reveal ltac:(by apply list_elem_of_In)).
    specialize (Hshort reveal ltac:(by apply list_elem_of_In)).
    rewrite forallb_forall in Hwf, Hshort.
    specialize (Hwf ball ltac:(by apply list_elem_of_In)).
    specialize (Hshort ball ltac:(by apply list_elem_of_In)).
    unfold well_formed_ball in Hwf. unfold short_ball in Hshort.
    destruct (split " " ball) as [|count [|colour [|? ?]]]; try done.
    apply andb_true_iff in Hwf as [Hd _]. apply Nat.leb_le in Hshort.
    destruct (parseInt_short count count_digits Hd Hshort) as (x & Hx & Hle).
    exists x. split; [|done]. simpl in Hn. congruence. }
  rewrite record_reveals_balls, record_infos_read, Hzero.
  assert (Hpow : 0 < 10 ^ Z.of_nat count_digits) by (apply Z.pow_pos_nonneg; lia).
  destruct (foldl_Math_max_least (counts_of color (balls_of reveals)) 0)
    as (v & Hv & Hle & _ & Hleast).
  - intros Hin. by destruct (Hcount _ Hin) as (x & ? & _).
  - exists v. split; [done|]. split; [done|].
    assert (v <= 10 ^ Z.of_nat count_digits - 1); [|lia].
    apply Hleast; [lia|]. intros x Hx.
    destruct (Hcount _ Hx) as (x' & [= <-] & Hx'). lia.
Qed.

Lemma FirstWay_part1_lines_number lines (id_digits count_digits : nat) : forall s,
  forallb well_formed_line lines = true ->
  forallb (short_line id_digits count_digits) lines = true -> 0 <= s ->
  exists a, FirstWay.part1_lines lines (Some s) = Returns (Some a) /\
            s <= a <= s + Z.of_nat (length lines) * 10 ^ Z.of_nat id_digits.
Proof.
  assert (Hpow : 0 < 10 ^ Z.of_nat id_digits) by (apply Z.pow_pos_nonneg; lia).
  induction lines as [|game lines IH]; intros s Hwf Hshort Hs.
  { exists s. split; [done|]. simpl. lia. }
  simpl in Hwf, Hshort. apply andb_true_iff in Hwf as [Hgame Hlines].
  apply andb_true_iff in Hshort as [Hsgame Hslines].
  cbn [FirstWay.part1_lines length]. rewrite Nat2Z.inj_succ.
  unfold well_formed_line in Hgame. unfold short_line in Hsgame.
  destruct (split ": " game) as [|gameText [|infoText [|? ?]]]; try done.
  cbn [lookup list_lookup].
  apply andb_true_iff in Hgame as [[Hp Hd]%andb_true_iff _].
  apply andb_true_iff in Hsgame as [Hlen%Nat.leb_le _].
  destruct (well_formed_id gameText id_digits Hp Hd Hlen) as (n & -> & Hn).
  destruct (forallb FirstWay.checkReveal _).
  - destruct (IH (s + n) Hlines Hslines ltac:(lia)) as (a & Ha & Hle).
    exists a. split; [done|]. lia.
  - destruct (IH s Hlines Hslines Hs) as (a & Ha & Hle).
    exists a. split; [done|]. lia.
Qed.

Lemma PartTwo_part1_lines_number lines (id_digits count_digits : nat) : forall s,
  forallb well_formed_line lines = true ->
  forallb (short_line id_digits count_digits) lines = true -> 0 <= s ->
  exists a, PartTwo.part1_lines lines (Some s) = Returns (Some a) /\
            s <= a <= s + Z.of_nat (length lines) * 10 ^ (3 * Z.of_nat count_digits).
Proof.
  assert (Hpow : 0 < 10 ^ Z.of_nat count_digits) by (apply Z.pow_pos_nonneg; lia).
  replace (3 * Z.of_nat count_digits)
    with (Z.of_nat count_digits + Z.of_nat count_digits + Z.of_nat count_digits) by lia.
  rewrite !Z.pow_add_r by lia.
  set (c := 10 ^ Z.of_nat count_digits) in *.
  induction lines as [|game lines IH]; intros s Hwf Hshort Hs.
  { exists s. split; [done|]. simpl. lia. }
  simpl in Hwf, Hshort. apply andb_true_iff in Hwf as [Hgame Hlines].
  apply andb_true_iff in Hshort as [Hsgame Hslines].
  cbn [PartTwo.part1_lines length]. rewrite Nat2Z.inj_succ.
  unfold well_formed_line in Hgame. unfold short_line in Hsgame.
  destruct (split ": " game) as [|gameText [|infoText [|? ?]]]; try done.
  cbn [lookup list_lookup].
  apply andb_true_iff in Hgame as [_ Hreveals].
  apply andb_true_iff in Hsgame as [_ Hsreveals].
  fold empty_bag.
  destruct (well_formed_bag_read (split "; " infoText) "red" count_digits)
    as (r & -> & Hr); [repeat constructor|done|done|].
  destruct (well_formed_bag_read (split "; " infoText) "green" count_digits)
    as (g & -> & Hg); [repeat constructor|done|done|].
  destruct (well_formed_bag_read (split "; " infoText) "blue" count_digits)
    as (b & -> & Hb); [repeat constructor|done|done|].
  simpl number_add. fold c in Hr, Hg, Hb.
  assert (0 <= r * g * b <= c * c * c).
  { split; [nia|]. assert (r * g <= c * c) by nia. nia. }
  destruct (IH (s + r * g * b) Hlines Hslines ltac:(lia)) as (a & Ha & Hle).
  exists a. split; [done|]. lia.
Qed.

(** X20. On a well-formed input whose numbers are small each of the three
    versions of [part1] returns: it does not throw, and the sum is a
    number, not [NaN], between 0 and [Number.MAX_SAFE_INTEGER]; the two
    ways of part 1 return the same number. The numbers are small when the
    ids have at most [id_digits] digits, the counts at most
    [count_digits], and the number of lines times [10 ^ id_digits], and
    times [10 ^ (3 count_digits)], does not pass [MAX_SAFE_INTEGER]: then
    every id, count, product and partial sum that the code computes is an
    integer of that range, where the arithmetic of doubles is exact. *)
Theorem part1_returns_a_number (input : string) (id_digits count_digits : nat) :
  well_formed input = true ->
  short_numbers id_digits count_digits input = true ->
  let lines := Z.of_nat (length (split (String "010" "") input)) in
  lines * 10 ^ Z.of_nat id_digits <= MAX_SAFE_INTEGER ->
  lines * 10 ^ (3 * Z.of_nat count_digits) <= MAX_SAFE_INTEGER ->
  exists a b,
    FirstWay.part1 input = Returns (Some a) /\
    SecondWay.part1 input = Returns (Some a) /\
    PartTwo.part1 input = Returns (Some b) /\
    0 <= a <= MAX_SAFE_INTEGER /\ 0 <= b <= MAX_SAFE_INTEGER.
Proof.
  intros Hwf Hshort lines Hids Hcounts. unfold well_formed in Hwf.
  unfold short_numbers in Hshort.
  destruct (FirstWay_part1_lines_number _ id_digits count_digits 0 Hwf Hshort ltac:(lia))
    as (a & Ha & Hale).
  destruct (PartTwo_part1_lines_number _ id_digits count_digits 0 Hwf Hshort ltac:(lia))
    as (b & Hb & Hble).
  exists a, b. unfold FirstWay.part1, SecondWay.part1, PartTwo.part1.
  rewrite <- part1_lines_agree by done. fold lines in Hale, Hble.
  split; [done|]. split; [done|]. split; [done|]. lia.
Qed.

Lemma part1_returns_a_number_witness :
  well_formed sample_input = true /\
  short_numbers 1 2 sample_input = true /\
  let lines := Z.of_nat (length (split (String "010" "") sample_input)) in
  lines * 10 ^ Z.of_nat 1 <= MAX_SAFE_INTEGER /\
  lines * 10 ^ (3 * Z.of_nat 2) <= MAX_SAFE_INTEGER /\
  exists a b,
    FirstWay.part1 sample_input = Returns (Some a) /\
    SecondWay.part1 sample_input = Returns (Some a) /\
    PartTwo.part1 sample_input = Returns (Some b) /\
    0 <= a <= MAX_SAFE_INTEGER /\ 0 <= b <= MAX_SAFE_INTEGER.
Proof.
  split; [reflexivity|]. split; [reflexivity|].
  assert (H1 : Z.of_nat (length (split (String "010" "") sample_input)) * 10 ^ Z.of_nat 1
               <= MAX_SAFE_INTEGER) by (by vm_compute).
  assert (H2 : Z.of_nat (length (split (String "010" "") sample_input)) *
               10 ^ (3 * Z.of_nat 2) <= MAX_SAFE_INTEGER) by (by vm_compute).
  split; [exact H1|]. split; [exact H2|].
  apply (part1_returns_a_number sample_input 1 2); [reflexivity|reflexivity|exact H1|exact H2].
Defined.

(** The sample of the puzzle for part 2. *)
Example part2_sample : PartTwo.part1 sample_input = Returns (Some 2286).
Proof. reflexivity. Qed.

(** ** [checkReveal] *)

Lemma exceeds_true c limit parts :
  exceeds c limit parts = true <->
  exists n, parts !! 1%nat = Some c /\ parseInt_of (parts !! 0%nat) = Some n /\ limit < n.
Proof.
  unfold exceeds, number_gt. rewrite andb_true_iff, bool_decide_eq_true. split.
  - intros [Hc Hn]. destruct (parseInt_of _) as [n|]; [|done].
    exists n. split; [done|]. split; [done|]. by apply Z.gtb_lt in Hn.
  - intros (n & Hc & -> & Hn). split; [done|]. by apply Z.gtb_lt.
Qed.

Lemma some_ball_exceeds c limit balls :
  forallb (fun ball => negb (exceeds c limit (split " " ball))) balls = false <->
  exists ball n, ball ∈ balls /\ split " " ball !! 1%nat = Some c /\
                 parseInt_of (split " " ball !! 0%nat) = Some n /\ limit < n.
Proof.
  induction balls as [|ball balls IH]; simpl.
  - split; [done|]. intros (ball & n & Hin & _). by apply elem_of_nil in Hin.
  - rewrite andb_false_iff, negb_false_iff, exceeds_true, IH. split.
    + intros [(n & H)|(ball' & n & Hin & H)].
      * exists ball, n. split; [apply elem_of_cons; by left|done].
      * exists ball', n. split; [apply elem_of_cons; by right|done].
    + intros (ball' & n & [->|Hin]%elem_of_cons & H).
      * left. by exists n.
      * right. by exists ball', n.
Qed.

(** X21. [checkReveal(str)] is false exactly when some ball of [str] has
    one of the colours red, green and blue and a count, as [parseInt]
    reads it, above 12, 13 and 14 respectively. A ball of another colour,
    or with a count that is not a number, never makes a reveal
    impossible. *)
Theorem checkReveal_false_iff (str : string) :
  FirstWay.checkReveal str = false <->
  exists ball color limit n,
    ball ∈ split ", " str /\
    (color, limit) ∈ [("red", 12); ("green", 13); ("blue", 14)] /\
    split " " ball !! 1%nat = Some color /\
    parseInt_of (split " " ball !! 0%nat) = Some n /\ limit < n.
Proof.
  unfold FirstWay.checkReveal. rewrite checkReveal_balls_forallb.
  rewrite !andb_false_iff, !some_ball_exceeds. split.
  - intros [[(ball & n & Hin & H)|(ball & n & Hin & H)]|(ball & n & Hin & H)].
    + exists ball, "red", 12, n. split; [done|]. split; [|done]. repeat constructor.
    + exists ball, "green", 13, n. split; [done|]. split; [|done]. repeat constructor.
    + exists ball, "blue", 14, n. split; [done|]. split; [|done]. repeat constructor.
  - intros (ball & color & limit & n & Hin & Hcl & H).
    apply elem_of_cons in Hcl as [[= -> ->]|Hcl]; [left; left; by exists ball, n|].
    apply elem_of_cons in Hcl as [[= -> ->]|Hcl]; [left; right; by exists ball, n|].
    apply elem_of_cons in Hcl as [[= -> ->]|Hcl]; [right; by exists ball, n|].
    by apply elem_of_nil in Hcl.
Qed.

(** ** The second way is the stricter one *)

Lemma foldl_Math_max_ge ns : forall a v,
  foldl Math_max a ns = Some v ->
  (exists b, a = Some b /\ b <= v) /\ forall x, Some x ∈ ns -> x <= v.
Proof.
  induction ns as [|n ns IH]; intros a v; simpl.
  - intros ->. split; [by exists v|]. intros x Hx. by apply elem_of_nil in Hx.
  - intros Hv. destruct (IH _ _ Hv) as [(b & Hb & Hle) Hub].
    destruct a as [a|], n as [n|]; try done. simpl in Hb. injection Hb as <-.
    split; [exists a; split; [done|lia]|].
    intros x [[= ->]|Hx]%elem_of_cons; [lia|by apply Hub].
Qed.

Lemma bag_within_limit reveals color limit :
  color ∈ ["red"; "green"; "blue"] ->
  number_le (SecondWay.read (SecondWay.record_reveals reveals empty_bag) color) limit = true ->
  forallb (fun reveal =>
             forallb (fun ball => negb (exceeds color limit (split " " ball)))
                     (split ", " reveal)) reveals = true.
Proof.
  intros Hcolor Hle.
  assert (Hne : color <> "undefined").
  { intros ->. repeat (apply elem_of_cons in Hcolor as [Hcolor|Hcolor]; [done|]).
    by apply elem_of_nil in Hcolor. }
  rewrite record_reveals_balls, record_infos_read in Hle.
  destruct (foldl Math_max _ _) as [v|] eqn:Hv; [|done].
  simpl in Hle. apply Z.leb_le in Hle.
  destruct (foldl_Math_max_ge _ _ _ Hv) as [_ Hub].
  apply forallb_forall. intros reveal Hreveal%list_elem_of_In.
  apply forallb_forall. intros ball Hball%list_elem_of_In.
  apply negb_true_iff. destruct (exceeds color limit (split " " ball)) eqn:He; [|done].
  apply exceeds_true in He as (n & Hc & Hn & Hlt).
  assert (n <= v); [|lia]. apply Hub. apply counts_of_shown; [done|].
  exists (split " " ball). split; [|done].
  unfold balls_of. apply list_elem_of_bind. exists reveal. split; [|done].
  apply list_elem_of_fmap. by exists ball.
Qed.

(** X22. On every game, well-formed or not, a game the second way takes
    for possible is possible for the first way as well: when the three
    entries of [leastNumOfBalls] pass the test, [checkReveal] holds of
    every reveal. (The converse fails on a count that is not a number.) *)
Theorem second_way_is_stricter (reveals : list string) :
  let leastNumOfBalls := SecondWay.record_reveals reveals empty_bag in
  number_le (SecondWay.read leastNumOfBalls "red") 12 &&
  number_le (SecondWay.read leastNumOfBalls "green") 13 &&
  number_le (SecondWay.read leastNumOfBalls "blue") 14 = true ->
  forallb FirstWay.checkReveal reveals = true.
Proof.
  intros bag [[Hr Hg]%andb_true_iff Hb]%andb_true_iff.
  rewrite forallb_checkReveal.
  rewrite (bag_within_limit reveals "red" 12), (bag_within_limit reveals "green" 13),
    (bag_within_limit reveals "blue" 14); try done; repeat constructor.
Qed.

Lemma second_way_is_stricter_witness :
  let reveals := ["3 blue, 4 red"; "1 red, 2 green, 6 blue"; "2 green"] in
  let leastNumOfBalls := SecondWay.record_reveals reveals empty_bag in
  (number_le (SecondWay.read leastNumOfBalls "red") 12 &&
   number_le (SecondWay.read leastNumOfBalls "green") 13 &&
   number_le (SecondWay.read leastNumOfBalls "blue") 14 = true) /\
  forallb FirstWay.checkReveal reveals = true.
Proof.
  split; [reflexivity|].
  apply (second_way_is_stricter ["3 blue, 4 red"; "1 red, 2 green, 6 blue"; "2 green"]).
  reflexivity.
Defined.

(** ** Autoplay *)

Lemma on_frames_pace frames : forall refs,
  Sorted (fun a b => delta refs < b - a)
         (lastCalled refs :: step_times (on_frames frames refs).1) /\
  delta (on_frames frames refs).2 = delta refs.
Proof.
  induction frames as [|[isDone time] frames IH]; intros refs.
  - simpl. split; [by repeat constructor|done].
  - cbn [on_frames]. unfold on_frame.
    destruct (Z.gtb_spec (time - lastCalled refs) (delta refs)) as [Hgt|Hle].
    + destruct (IH (mkRefs time (delta refs))) as [Hs Hd].
      destruct (on_frames frames (mkRefs time (delta refs))) as [log refs''].
      simpl in *. split; [|done]. constructor; [done|]. constructor. lia.
    + destruct (IH refs) as [Hs Hd].
      destruct (on_frames frames refs) as [log refs''].
      simpl in *. split; [|done]. by destruct isDone.
Qed.

(** X23. Autoplay keeps its pace: over any frames, at whatever times they
    come, a frame asks for [nextStep()] at most once, and only when more
    than [delta] has passed since the frame that asked last (or since
    [lastCalled] as it was at the start). *)
Theorem autoplay_keeps_its_pace (frames : list (bool * Z)) (refs : Refs) :
  let log := (on_frames frames refs).1 in
  Sorted (fun a b => delta refs < b - a) (lastCalled refs :: step_times log) /\
  Forall (fun entry => length (filter (fun r => r = NextStep) entry.2) <= 1)%nat log.
Proof.
  intros log. split; [apply on_frames_pace|].
  unfold log. clear log. revert refs.
  induction frames as [|[isDone time] frames IH]; intros refs; [constructor|].
  cbn [on_frames]. unfold on_frame.
  destruct (time - lastCalled refs >? delta refs).
  - specialize (IH (mkRefs time (delta refs))).
    destruct (on_frames frames (mkRefs time (delta refs))) as [log' refs''].
    simpl in *. constructor; [|done]. destruct isDone; simpl; lia.
  - specialize (IH refs).
    destruct (on_frames frames refs) as [log' refs''].
    simpl in *. constructor; [|done]. destruct isDone; simpl; lia.
Qed.
